(** * mrpc: connection protocol of a small RPC runtime

    A shallow embedding of the Go packages [mrpc/codec] (codec.go, gob.go)
    and [mrpc] (client, server, service), followed by the properties of the
    handshake, the client's pending table and receive loop, and the server's
    request loop.

    Conventions.
    - [uint32] and [uint64] are [N] with the wrap-around written out.
    - A Go [error] is its text; a nil-able error is [option error].
    - Go maps are [gmap]s; a [*Call] is an address into a store of calls.
    - Stateful code is a state-and-failure monad: [None] is a goroutine that
      cannot go on (a [Lock] on a held mutex, a nil dereference).
    - Every call on a mutex, the codec or a [Done] channel is also appended to
      a ghost trace, so that what was written, and under which locks, can be
      stated.
    - Where the order of goroutines matters, a function is also given as a
      program of atomic actions ([prog]), proved equal to the function, and
      the programs of several goroutines take their steps in turn. *)

From Stdlib Require Import NArith Lia.
From Stdlib Require Import Strings.Byte Strings.Ascii Strings.String.
From stdpp Require Import base option list strings pretty gmap fin_maps.

#[global] Set Warnings "-register-all".
#[global] Set Default Proof Using "Type".

Abbreviation error := string.

(** ** State-and-failure monad *)

Definition M (S A : Type) : Type := S → option (A * S).

#[global] Instance M_ret {S} : MRet (M S) := λ A a s, Some (a, s).

#[global] Instance M_bind {S} : MBind (M S) := λ A B k m s,
  match m s with
  | Some (a, s') => k a s'
  | None => None
  end.

Definition get {S} : M S S := λ s, Some (s, s).

Definition modify {S} (f : S → S) : M S unit := λ s, Some (tt, f s).

(** A goroutine that cannot continue. *)
Definition stuck {S A} : M S A := λ _, None.

(** [for _, x := range xs { body x }] *)
Fixpoint forEach {S A} (body : A → M S unit) (xs : list A) : M S unit :=
  match xs with
  | [] => mret tt
  | x :: xs => body x ;; forEach body xs
  end.

(** ** encoding/binary, big endian *)

Module binary.

(** Go's conversion [byte(v)]: the low eight bits. *)
Definition byte_of (v : N) : byte :=
  default "000"%byte (Byte.of_N (N.land v 255)).

(** [uint32(x)]: the low thirty-two bits. *)
Definition uint32 (v : N) : N := N.land v (N.ones 32).

(** [binary.BigEndian.PutUint32(b[off:], v)], on the array behind [b]. *)
Definition PutUint32 (off : nat) (v : N) (b : list byte) : list byte :=
  <[off + 3 := byte_of v]>
    (<[off + 2 := byte_of (N.shiftr v 8)]>
       (<[off + 1 := byte_of (N.shiftr v 16)]>
          (<[off := byte_of (N.shiftr v 24)]> b))).

(** [binary.BigEndian.Uint32(b)]; indexing past the end panics. *)
Definition Uint32 (b : list byte) : option N :=
  match b with
  | b0 :: b1 :: b2 :: b3 :: _ =>
      Some (N.lor (N.lor (N.lor (Byte.to_N b3) (N.shiftl (Byte.to_N b2) 8))
                         (N.shiftl (Byte.to_N b1) 16))
                  (N.shiftl (Byte.to_N b0) 24))
  | _ => None
  end.

End binary.

(** ** net.Conn: a byte stream to a peer *)

Module net.

Record Conn := mkConn {
  rd : list byte;          (* sent by the peer and not read yet; then EOF *)
  wr : list byte;          (* written so far *)
  wfail : option error;    (* [Some e]: writes fail with [e] *)
  closed : bool
}.

Definition ErrClosed : error := "use of closed network connection".

Definition Write (p : list byte) (c : Conn) : option error * Conn :=
  if closed c then (Some ErrClosed, c)
  else match wfail c with
       | Some e => (Some e, c)
       | None => (None, mkConn (rd c) (wr c ++ p) (wfail c) (closed c))
       end.

Definition Close (c : Conn) : option error * Conn :=
  if closed c then (Some ErrClosed, c)
  else (None, mkConn (rd c) (wr c) (wfail c) true).

(** [io.ReadFull(conn, buf)] with [len(buf) = n]. *)
Definition ReadFull (n : nat) (c : Conn) : (error + list byte) * Conn :=
  if closed c then (inl ErrClosed, c)
  else if decide (n ≤ length (rd c))
  then (inr (take n (rd c)), mkConn (drop n (rd c)) (wr c) (wfail c) (closed c))
  else (inl (match rd c with [] => "EOF" | _ => "unexpected EOF" end),
        mkConn [] (wr c) (wfail c) (closed c)).

End net.

(** ** reflect: the types and values that travel as arguments and replies *)

Module reflect.

Inductive Type_ :=
| TInt
| TString
| TStruct (fields : list Type_)
| TPointer (elem : Type_)
| TMap (key val : Type_)
| TSlice (elem : Type_).

(** A Go value held in an [any] or a [reflect.Value].  [Ref v] is a pointer
    to a cell that holds [v]; the cell is reachable through that pointer
    only, so it is kept with it. *)
Inductive any :=
| Nil                                   (* nil interface, pointer, map, slice *)
| Int (z : Z)
| Str (s : string)
| Struct (fields : list any)
| Ref (pointee : any)
| MapOf (entries : list (any * any))    (* made, not nil *)
| SliceOf (elems : list any).           (* made, not nil *)

Inductive Kind := KInt | KString | KStruct | KPointer | KMap | KSlice.

#[global] Instance Kind_eq_dec : EqDecision Kind.
Proof. solve_decision. Defined.

Definition Kind_of (t : Type_) : Kind :=
  match t with
  | TInt => KInt
  | TString => KString
  | TStruct _ => KStruct
  | TPointer _ => KPointer
  | TMap _ _ => KMap
  | TSlice _ => KSlice
  end.

(** [t.Elem()]; it panics on a type that has no element type. *)
Definition Elem (t : Type_) : option Type_ :=
  match t with
  | TPointer e | TSlice e => Some e
  | TMap _ v => Some v
  | _ => None
  end.

(** [reflect.Zero(t)] *)
Fixpoint Zero (t : Type_) : any :=
  match t with
  | TInt => Int 0
  | TString => Str ""
  | TStruct fs => Struct (map Zero fs)
  | TPointer _ | TMap _ _ | TSlice _ => Nil
  end.

(** [reflect.New(t)]: a pointer to a fresh zero [t]. *)
Definition New (t : Type_) : any := Ref (Zero t).

End reflect.

Export reflect(any).

(** ** bufio.Writer over the codec's connection *)

Module bufio.

(** The writer of gob.go wraps the very connection the codec holds; the
    connection is therefore an argument of [Flush], not a copy in here. *)
Record Writer := mkWriter {
  buf : list byte;        (* buffered, not yet on the connection *)
  err : option error      (* a failed write sticks *)
}.

Definition NewWriter : Writer := mkWriter [] None.

Definition Write (p : list byte) (b : Writer) : option error * Writer :=
  match err b with
  | Some e => (Some e, b)
  | None => (None, mkWriter (buf b ++ p) None)
  end.

Definition Flush (b : Writer) (c : net.Conn) : option error * (Writer * net.Conn) :=
  match err b with
  | Some e => (Some e, (b, c))
  | None =>
      match buf b with
      | [] => (None, (b, c))
      | _ =>
          match net.Write (buf b) c with
          | (Some e, c') => (Some e, (mkWriter (buf b) (Some e), c'))
          | (None, c') => (None, (mkWriter [] None, c'))
          end
      end
  end.

End bufio.

(** ** package codec *)

Module codec.

(** codec.go *)
Record Header := mkHeader {
  Seq : N;            (* uint64 *)
  Name : string;
  Error : string
}.

#[global] Instance Header_eq_dec : EqDecision Header.
Proof. solve_decision. Defined.

(** The [Codec] interface.  [ReadHeader] returns the header it filled in.
    [ReadBody] takes its argument (a pointer [Ref v] to decode into, or
    [Nil] to consume the body and drop it) and returns, next to the error,
    that argument as it is after the call: the cell behind the pointer is
    filled in, perhaps in part when the decoding fails. *)
Class Codec (C : Type) := {
  ReadHeader : C → (error + Header) * C;
  ReadBody : any → C → (option error * any) * C;
  Write : Header → any → C → option error * C;
  Close : C → option error * C
}.

Definition GobType : N := 0.
Definition JSONType : N := 1.
Definition CustomType : N := 2.

(** encoding/gob, as far as gob.go relies on it: what an encoder hands to
    its writer for a value, and what a decoder makes of the bytes that have
    arrived.  Both keep state across messages. *)
Class Gob := {
  Encoder : Type;
  Decoder : Type;
  NewEncoder : Encoder;
  NewDecoder : Decoder;
  encode : Header + any → Encoder → (error + list byte) * Encoder;
  decodeHeader : Decoder → list byte → (error + Header) * (Decoder * list byte);
  decodeBody : any → Decoder → list byte → (option error * any) * (Decoder * list byte)
}.

(** gob.go *)
Record GobCodec `{Gob} := mkGobCodec {
  conn : net.Conn;
  buf : bufio.Writer;
  dec : Decoder;
  enc : Encoder
}.

Definition NewGobCodec `{Gob} (conn : net.Conn) : GobCodec :=
  mkGobCodec _ conn bufio.NewWriter NewDecoder NewEncoder.

(** [c.enc.Encode(v)]: encode, then write the message to [c.buf]. *)
Definition Encode `{Gob} (v : Header + any) (c : GobCodec) : option error * GobCodec :=
  match encode v (enc c) with
  | (inl e, enc') => (Some e, mkGobCodec _ (conn c) (buf c) (dec c) enc')
  | (inr bs, enc') =>
      let '(r, buf') := bufio.Write bs (buf c) in
      (r, mkGobCodec _ (conn c) buf' (dec c) enc')
  end.

Definition GobCodec_ReadHeader `{Gob} (c : GobCodec) : (error + Header) * GobCodec :=
  if net.closed (conn c) then (inl net.ErrClosed, c) else
  let '(r, (dec', rest)) := decodeHeader (dec c) (net.rd (conn c)) in
  (r, mkGobCodec _ (net.mkConn rest (net.wr (conn c)) (net.wfail (conn c)) (net.closed (conn c)))
                 (buf c) dec' (enc c)).

Definition GobCodec_ReadBody `{Gob} (body : any) (c : GobCodec) : (option error * any) * GobCodec :=
  if net.closed (conn c) then ((Some net.ErrClosed, body), c) else
  let '(r, (dec', rest)) := decodeBody body (dec c) (net.rd (conn c)) in
  (r, mkGobCodec _ (net.mkConn rest (net.wr (conn c)) (net.wfail (conn c)) (net.closed (conn c)))
                 (buf c) dec' (enc c)).

Definition GobCodec_Close `{Gob} (c : GobCodec) : option error * GobCodec :=
  let '(r, conn') := net.Close (conn c) in
  (r, mkGobCodec _ conn' (buf c) (dec c) (enc c)).

(** The deferred function of [Write]: flush, dropping the result of the
    flush, and close when the named result [err] is not nil. *)
Definition GobCodec_Write_deferred `{Gob} (err : option error) (c : GobCodec) : GobCodec :=
  let '(_, (buf', conn')) := bufio.Flush (buf c) (conn c) in
  let c := mkGobCodec _ conn' buf' (dec c) (enc c) in
  match err with
  | Some _ => snd (GobCodec_Close c)
  | None => c
  end.

Definition GobCodec_Write `{Gob} (h : Header) (body : any) (c : GobCodec) : option error * GobCodec :=
  let '(err, c) :=
    match Encode (inl h) c with
    | (Some e, c) => (Some e, c)
    | (None, c) =>
        match Encode (inr body) c with
        | (Some e, c) => (Some e, c)
        | (None, c) => (None, c)
        end
    end in
  (err, GobCodec_Write_deferred err c).

#[global] Instance GobCodec_Codec `{Gob} : Codec GobCodec := {
  ReadHeader := GobCodec_ReadHeader;
  ReadBody := GobCodec_ReadBody;
  Write := GobCodec_Write;
  Close := GobCodec_Close
}.

(** [NewCodecFuncMap] is a package variable: a map from a type tag to a
    constructor of codecs.  In the model a registry builds codecs of one
    type [C]; [init] registers the gob codec. *)
Definition NewCodecFuncMap_init `{Gob} : gmap N (net.Conn → GobCodec) :=
  <[GobType := NewGobCodec]> ∅.

End codec.

(** ** The ghost trace

    What a goroutine does to the world outside its own variables; [L] names
    the mutexes it can see. *)

Inductive event (L : Type) :=
| EvLock (m : L)
| EvUnlock (m : L)
| EvReadHeader (r : error + codec.Header)
| EvReadBody (target : any) (r : option error * any)
| EvWrite (h : codec.Header) (body : any) (r : option error)
| EvClose
| EvDone (ch : positive) (call : positive).    (* [call.Done <- call] *)
Arguments EvLock {L}.
Arguments EvUnlock {L}.
Arguments EvReadHeader {L}.
Arguments EvReadBody {L}.
Arguments EvWrite {L}.
Arguments EvClose {L}.
Arguments EvDone {L}.

(** ** package mrpc: the client *)

Abbreviation ptr := positive.     (* the address of a [Call] *)
Abbreviation chan := positive.    (* a [chan *Call] *)

Definition Magic : N := 0x5a2b71c3.

Definition uint64 (v : N) : N := N.land v (N.ones 64).

Record Call := mkCall {
  Name : string;
  Args : any;
  Seq : N;
  Error : option error;
  Reply : any;
  Done : chan
}.

Definition Call_set_Seq (s : N) (k : Call) : Call :=
  mkCall (Name k) (Args k) s (Error k) (Reply k) (Done k).
Definition Call_set_Error (e : error) (k : Call) : Call :=
  mkCall (Name k) (Args k) (Seq k) (Some e) (Reply k) (Done k).
Definition Call_set_Reply (r : any) (k : Call) : Call :=
  mkCall (Name k) (Args k) (Seq k) (Error k) r (Done k).

Record Client (C : Type) := mkClient {
  cc : C;
  flag : list byte;
  sending : bool;                 (* sync.Mutex: held? *)
  header : codec.Header;
  mu : bool;                      (* sync.Mutex: held? *)
  seq : N;
  pending : gmap N ptr;
  closing : bool;
  shutdown : bool
}.
Arguments mkClient {C}.
Arguments cc {C}.
Arguments flag {C}.
Arguments sending {C}.
Arguments header {C}.
Arguments mu {C}.
Arguments seq {C}.
Arguments pending {C}.
Arguments closing {C}.
Arguments shutdown {C}.

Inductive mutex := Mu | Sending.

(** The client, the calls it can reach, and the ghost trace. *)
Record World (C : Type) := mkWorld {
  client : Client C;
  calls : gmap ptr Call;
  trace : list (event mutex)
}.
Arguments mkWorld {C}.
Arguments client {C}.
Arguments calls {C}.
Arguments trace {C}.

Section client.
Context {C : Type} `{!codec.Codec C}.

Definition emit (e : event mutex) : M (World C) unit :=
  modify (λ w, mkWorld (client w) (calls w) (trace w ++ [e])).

Definition getC : M (World C) (Client C) := λ w, Some (client w, w).

Definition modifyC (f : Client C → Client C) : M (World C) unit :=
  modify (λ w, mkWorld (f (client w)) (calls w) (trace w)).

Definition held (m : mutex) (c : Client C) : bool :=
  match m with Mu => mu c | Sending => sending c end.

Definition set_held (m : mutex) (b : bool) (c : Client C) : Client C :=
  match m with
  | Mu => mkClient (cc c) (flag c) (sending c) (header c) b (seq c) (pending c) (closing c) (shutdown c)
  | Sending => mkClient (cc c) (flag c) b (header c) (mu c) (seq c) (pending c) (closing c) (shutdown c)
  end.

Definition set_cc (x : C) (c : Client C) : Client C :=
  mkClient x (flag c) (sending c) (header c) (mu c) (seq c) (pending c) (closing c) (shutdown c).
Definition set_header (h : codec.Header) (c : Client C) : Client C :=
  mkClient (cc c) (flag c) (sending c) h (mu c) (seq c) (pending c) (closing c) (shutdown c).
Definition set_seq (s : N) (c : Client C) : Client C :=
  mkClient (cc c) (flag c) (sending c) (header c) (mu c) s (pending c) (closing c) (shutdown c).
Definition set_pending (p : gmap N ptr) (c : Client C) : Client C :=
  mkClient (cc c) (flag c) (sending c) (header c) (mu c) (seq c) p (closing c) (shutdown c).
Definition set_closing (b : bool) (c : Client C) : Client C :=
  mkClient (cc c) (flag c) (sending c) (header c) (mu c) (seq c) (pending c) b (shutdown c).
Definition set_shutdown (b : bool) (c : Client C) : Client C :=
  mkClient (cc c) (flag c) (sending c) (header c) (mu c) (seq c) (pending c) (closing c) b.

(** [m.Lock()]: a goroutine that asks for a held mutex does not go on. *)
Definition Lock (m : mutex) : M (World C) unit :=
  c ← getC;
  if held m c then stuck
  else modifyC (set_held m true);; emit (EvLock m).

(** [m.Unlock()]: unlocking a mutex that is not locked is a fatal error. *)
Definition Unlock (m : mutex) : M (World C) unit :=
  c ← getC;
  if held m c then emit (EvUnlock m);; modifyC (set_held m false)
  else stuck.

(** [m.Lock(); defer m.Unlock(); body] *)
Definition withLock {A} (m : mutex) (body : M (World C) A) : M (World C) A :=
  Lock m;; r ← body; Unlock m;; mret r.

(** [*call]; a nil or dangling [call] panics. *)
Definition load (call : ptr) : M (World C) Call :=
  λ w, match calls w !! call with
       | Some k => Some (k, w)
       | None => None
       end.

(** [call.f = v] *)
Definition store (call : ptr) (f : Call → Call) : M (World C) unit :=
  k ← load call;
  modify (λ w, mkWorld (client w) (<[call := f k]> (calls w)) (trace w)).

(** [func (c *Call) done()]: the send on [c.Done].  The channel is taken to
    have room, as the buffered channel that [Go] makes has for its one
    call; a send that has to wait for its receiver is not modelled. *)
Definition done (call : ptr) : M (World C) unit :=
  k ← load call;
  emit (EvDone (Done k) call).

Definition cc_ReadHeader : M (World C) (error + codec.Header) :=
  c ← getC;
  let '(r, cc') := codec.ReadHeader (cc c) in
  modifyC (set_cc cc');; emit (EvReadHeader r);; mret r.

Definition cc_ReadBody (target : any) : M (World C) (option error * any) :=
  c ← getC;
  let '(r, cc') := codec.ReadBody target (cc c) in
  modifyC (set_cc cc');; emit (EvReadBody target r);; mret r.

Definition cc_Write (h : codec.Header) (body : any) : M (World C) (option error) :=
  c ← getC;
  let '(r, cc') := codec.Write h body (cc c) in
  modifyC (set_cc cc');; emit (EvWrite h body r);; mret r.

Definition cc_Close : M (World C) (option error) :=
  c ← getC;
  let '(r, cc') := codec.Close (cc c) in
  modifyC (set_cc cc');; emit EvClose;; mret r.

Definition ErrShutDown : error := "connection shut down".

Definition Close : M (World C) (option error) :=
  withLock Mu (
    c ← getC;
    if shutdown c || closing c then mret (Some ErrShutDown)
    else modifyC (set_closing true);; cc_Close).

Definition IsAvaliable : M (World C) bool :=
  withLock Mu (
    c ← getC;
    mret (negb (shutdown c) && negb (closing c))).

Definition addCall (call : ptr) : M (World C) (N * option error) :=
  withLock Mu (
    c ← getC;
    if closing c || shutdown c then mret (0%N, Some ErrShutDown)
    else
      store call (Call_set_Seq (seq c));;
      k ← load call;
      modifyC (λ c, set_pending (<[Seq k := call]> (pending c)) c);;
      modifyC (λ c, set_seq (uint64 (seq c + 1)) c);;
      mret (Seq k, None)).

(** The result is [None] for Go's nil. *)
Definition removeCall (seq : N) : M (World C) (option ptr) :=
  withLock Mu (
    c ← getC;
    let call := pending c !! seq in
    modifyC (λ c, set_pending (delete seq (pending c)) c);;
    mret call).

(** [range c.pending] visits every entry once, in an order Go leaves open;
    the model takes the order of [map_to_list]. *)
Definition terminateCalls (err : error) : M (World C) unit :=
  withLock Mu (
    withLock Sending (
      modifyC (set_shutdown true);;
      c ← getC;
      forEach (λ call, store call (Call_set_Error err);; done call)
              (map snd (map_to_list (pending c))))).

(** One turn of the loop of [receive]; the result is [err] at its end. *)
Definition receive_turn : M (World C) (option error) :=
  r ← cc_ReadHeader;
  match r with
  | inl e => mret (Some e)
  | inr h =>
      call ← removeCall (codec.Seq h);
      match call with
      | None =>
          '(err, _) ← cc_ReadBody reflect.Nil;
          mret err
      | Some call =>
          if decide (codec.Error h ≠ "") then
            store call (Call_set_Error (codec.Error h));;
            '(err, _) ← cc_ReadBody reflect.Nil;
            done call;;
            mret err
          else
            k ← load call;
            '(err, reply) ← cc_ReadBody (Reply k);
            store call (Call_set_Reply reply);;
            match err with
            | Some e => store call (Call_set_Error ("reading body error: " +:+ e))
            | None => mret tt
            end;;
            done call;;
            mret err
      end
  end.

(** [for err == nil { ... }]: the error that ends the loop. *)
Fixpoint receive_loop (fuel : nat) : M (World C) error :=
  match fuel with
  | O => stuck
  | S fuel =>
      err ← receive_turn;
      match err with
      | Some e => mret e
      | None => receive_loop fuel
      end
  end.


Definition send (call : ptr) : M (World C) unit :=
  withLock Sending (
    '(seq, err) ← addCall call;
    match err with
    | Some e =>
        store call (Call_set_Error e);;
        done call
    | None =>
        store call (Call_set_Seq seq);;
        k ← load call;
        modifyC (set_header (codec.mkHeader seq (Name k) ""));;
        c ← getC;
        r ← cc_Write (header c) (Args k);
        match r with
        | Some e =>
            call ← removeCall seq;
            match call with
            | Some call => store call (Call_set_Error e);; done call
            | None => mret tt
            end
        | None => mret tt
        end
    end).

End client.

(** [Go] builds the call and sends it.  A nil [done] is replaced by a fresh
    channel of capacity one; the model takes the channel that results. *)
Definition Go {C} `{!codec.Codec C} (name : string) (args reply : any) (done : chan)
  : M (World C) ptr :=
  w ← get;
  let call := fresh (dom (calls w)) in
  modify (λ w, mkWorld (client w)
                 (<[call := mkCall name args 0 None reply done]> (calls w)) (trace w));;
  send call;;
  mret call.

(** [NewClient]: the result, and the connection as the call leaves it (on
    success it is the connection handed to the codec).  The receive loop is
    started as a goroutine of its own: [receive] above. *)
Definition NewClient {C} (NewCodecFuncMap : gmap N (net.Conn → C))
    (conn : net.Conn) (codecType : N) : (error + Client C) * net.Conn :=
  match NewCodecFuncMap !! codecType with
  | None => (inl ("invalid codec type " +:+ pretty codecType), conn)
  | Some ncf =>
      let buf := replicate 8 "000"%byte in
      let buf := binary.PutUint32 0 Magic buf in
      let buf := binary.PutUint32 4 codecType buf in
      match net.Write buf conn with
      | (Some err, conn) => (inl err, snd (net.Close conn))
      | (None, conn) =>
          (inr (mkClient (ncf conn) buf false (codec.mkHeader 0 "" "") false 1 ∅ false false),
           conn)
      end
  end.

(** ** package mrpc: services and the server *)

Definition dquote : string := String (Ascii.ascii_of_nat 34) EmptyString.

(** [strings.LastIndex(s, c)] for a one-byte [c]; [None] is Go's -1. *)
Fixpoint LastIndex_from (c : ascii) (i : nat) (found : option nat) (s : list ascii) : option nat :=
  match s with
  | [] => found
  | a :: s => LastIndex_from c (S i) (if decide (a = c) then Some i else found) s
  end.

Definition LastIndex (s : string) (c : ascii) : option nat :=
  LastIndex_from c 0 None (String.list_ascii_of_string s).

(** [s[i:j]] on the bytes of [s]. *)
Definition slice (s : string) (i j : nat) : string :=
  String.string_of_list_ascii (drop i (take j (String.list_ascii_of_string s))).

(** service.go.  [method] is the bound method with its receiver: from the
    argument and the reply pointer to the reply pointer as the method leaves
    it and the error the method returns. *)
Record methodType := mkMethodType {
  method : any → any → any * option error;
  ArgType : reflect.Type_;
  ReplyType : reflect.Type_;
  numCalls : N                                  (* uint64 *)
}.

Definition NumCalls (mt : methodType) : N := numCalls mt.

Definition newArgv (mt : methodType) : any :=
  match ArgType mt with
  | reflect.TPointer e => reflect.New e
  | t => reflect.Zero t
  end.

(** [None]: [ReplyType.Elem()] panics. *)
Definition newReplyv (mt : methodType) : option any :=
  match reflect.Elem (ReplyType mt) with
  | None => None
  | Some e =>
      Some (match reflect.Kind_of e with
            | reflect.KMap => reflect.Ref (reflect.MapOf [])
            | reflect.KSlice => reflect.Ref (reflect.SliceOf [])
            | _ => reflect.New e
            end)
  end.

(** The field [method] of [service] is [methods] here. *)
Record service := mkService {
  name : string;
  methods : gmap string methodType
}.

Record Server := mkServer {
  serviceMap : gmap string service
}.

Definition NewServer : Server := mkServer ∅.

(** [Register], on the service that [newService] builds from the receiver. *)
Definition Register (svc : service) (s : Server) : option error * Server :=
  match serviceMap s !! name svc with
  | Some _ => (Some ("rcp server: duplicated service " +:+ name svc), s)
  | None => (None, mkServer (<[name svc := svc]> (serviceMap s)))
  end.

(** [findService]: the service and the method are pointers into the
    registry, here the keys under which they are found. *)
Definition findService (s : Server) (name : string)
  : option string * option string * option error :=
  match LastIndex name "."%char with
  | None =>
      (None, None,
       Some ("rpc server: service name must be like " +:+ dquote +:+ "Service.Method" +:+ dquote))
  | Some dot =>
      let sName := slice name 0 dot in
      let mName := slice name (dot + 1) (String.length name) in
      match serviceMap s !! sName with
      | None => (None, None, Some ("rpc server: cannot find service " +:+ sName))
      | Some svc =>
          match methods svc !! mName with
          | None =>
              (Some sName, None,
               Some ("rpc server: cannot find method " +:+ mName +:+ " on service " +:+ sName))
          | Some _ => (Some sName, Some mName, None)
          end
      end
  end.

Record request := mkRequest {
  h : codec.Header;
  svc : string;
  mType : string;
  argv : any;
  replyv : any
}.

(** [var invalidRequest = struct{}{}] *)
Definition invalidRequest : any := reflect.Struct [].

(** A connection being served: the registry, the codec, the mutex and the
    wait group that [serveCodec] makes, and the ghost trace. *)
Record Serving (C : Type) := mkServing {
  server : Server;
  scc : C;
  smu : bool;
  wg : nat;
  strace : list (event unit)
}.
Arguments mkServing {C}.
Arguments server {C}.
Arguments scc {C}.
Arguments smu {C}.
Arguments wg {C}.
Arguments strace {C}.

Section server.
Context {C : Type} `{!codec.Codec C}.

Definition semit (e : event unit) : M (Serving C) unit :=
  modify (λ w, mkServing (server w) (scc w) (smu w) (wg w) (strace w ++ [e])).

Definition set_scc (x : C) : M (Serving C) unit :=
  modify (λ w, mkServing (server w) x (smu w) (wg w) (strace w)).

Definition mu_Lock : M (Serving C) unit :=
  w ← get;
  if smu w then stuck
  else modify (λ w, mkServing (server w) (scc w) true (wg w) (strace w));; semit (EvLock ()).

Definition mu_Unlock : M (Serving C) unit :=
  w ← get;
  if smu w
  then semit (EvUnlock ());; modify (λ w, mkServing (server w) (scc w) false (wg w) (strace w))
  else stuck.

Definition wg_Add (n : nat) : M (Serving C) unit :=
  modify (λ w, mkServing (server w) (scc w) (smu w) (wg w + n) (strace w)).

(** A negative counter panics. *)
Definition wg_Done : M (Serving C) unit :=
  w ← get;
  match wg w with
  | O => stuck
  | S n => modify (λ w, mkServing (server w) (scc w) (smu w) n (strace w))
  end.

(** [wg.Wait()] returns when the counter is zero. *)
Definition wg_Wait : M (Serving C) unit :=
  w ← get;
  match wg w with
  | O => mret tt
  | S _ => stuck
  end.

(** [go f]: the goroutine runs to its end where it is started.  This is
    one of the schedules of the connection; [serveCodec_prog] below gives
    the goroutines their steps one by one, in any order. *)
Definition go (f : M (Serving C) unit) : M (Serving C) unit := f.

Definition scc_ReadHeader : M (Serving C) (error + codec.Header) :=
  w ← get;
  let '(r, cc') := codec.ReadHeader (scc w) in
  set_scc cc';; semit (EvReadHeader r);; mret r.

Definition scc_ReadBody (target : any) : M (Serving C) (option error * any) :=
  w ← get;
  let '(r, cc') := codec.ReadBody target (scc w) in
  set_scc cc';; semit (EvReadBody target r);; mret r.

Definition scc_Write (h : codec.Header) (body : any) : M (Serving C) (option error) :=
  w ← get;
  let '(r, cc') := codec.Write h body (scc w) in
  set_scc cc';; semit (EvWrite h body r);; mret r.

Definition scc_Close : M (Serving C) (option error) :=
  w ← get;
  let '(r, cc') := codec.Close (scc w) in
  set_scc cc';; semit EvClose;; mret r.

(** [func (s *service) call]: count the call, invoke the method. *)
Definition call (sName mName : string) (argv replyv : any)
  : M (Serving C) (any * option error) :=
  w ← get;
  match serviceMap (server w) !! sName with
  | None => stuck
  | Some sv =>
      match methods sv !! mName with
      | None => stuck
      | Some m =>
          let m' := mkMethodType (method m) (ArgType m) (ReplyType m) (uint64 (numCalls m + 1)) in
          let sv' := mkService (name sv) (<[mName := m']> (methods sv)) in
          modify (λ w, mkServing (mkServer (<[sName := sv']> (serviceMap (server w))))
                         (scc w) (smu w) (wg w) (strace w));;
          mret (method m argv replyv)
      end
  end.

Definition readRequestHeader : M (Serving C) (option codec.Header * option error) :=
  r ← scc_ReadHeader;
  match r with
  | inl err => mret (None, Some err)
  | inr h => mret (Some h, None)
  end.

(** The method that the pointers of [findService] lead to. *)
Definition deref_method (s : Server) (sName mName : string) : option methodType :=
  match serviceMap s !! sName with
  | None => None
  | Some sv => methods sv !! mName
  end.

Definition readRequest : M (Serving C) (option request * option error) :=
  '(h, err) ← readRequestHeader;
  match err, h with
  | Some e, _ => mret (@None request, Some e)
  | None, None => stuck
  | None, Some h =>
      w ← get;
      let '(sName, mName, err) := findService (server w) (codec.Name h) in
      match err, sName, mName with
      | Some e, _, _ => mret (@None request, Some e)
      | None, Some sName, Some mName =>
          match deref_method (server w) sName mName with
          | None => stuck
          | Some mt =>
              let argv := newArgv mt in
              match newReplyv mt with
              | None => stuck
              | Some replyv =>
                  let pointer := bool_decide (reflect.Kind_of (ArgType mt) = reflect.KPointer) in
                  let iargv := if pointer then argv else reflect.Ref argv in
                  '(_, iargv) ← scc_ReadBody iargv;
                  let argv :=
                    if pointer then iargv
                    else match iargv with reflect.Ref v => v | _ => argv end in
                  mret (Some (mkRequest h sName mName argv replyv), @None error)
              end
          end
      | None, _, _ => stuck
      end
  end.

Definition writeResponse (h : codec.Header) (body : any) : M (Serving C) unit :=
  mu_Lock;;
  scc_Write h body;;
  mu_Unlock.

Definition set_Error (e : string) (h : codec.Header) : codec.Header :=
  codec.mkHeader (codec.Seq h) (codec.Name h) e.

Definition handleRequest (req : request) : M (Serving C) unit :=
  '(replyv, err) ← call (svc req) (mType req) (argv req) (replyv req);
  h ← match err with
      | Some e =>
          let h := set_Error e (h req) in
          writeResponse h invalidRequest;;
          mret h
      | None => mret (h req)
      end;
  writeResponse h replyv;;
  wg_Done.

(** The [for] loop of [serveCodec]. *)
Fixpoint serveCodec_loop (fuel : nat) : M (Serving C) unit :=
  match fuel with
  | O => stuck
  | S fuel =>
      '(req, err) ← readRequest;
      match err, req with
      | Some _, None => mret tt
      | Some e, Some req =>
          go (writeResponse (set_Error e (h req)) invalidRequest);;
          serveCodec_loop fuel
      | None, Some req =>
          wg_Add 1;;
          go (handleRequest req);;
          serveCodec_loop fuel
      | None, None => stuck
      end
  end.

Definition serveCodec (fuel : nat) : M (Serving C) unit :=
  serveCodec_loop fuel;;
  wg_Wait;;
  scc_Close;;
  mret tt.

End server.

(** What became of an accepted connection. *)
Inductive served (C : Type) :=
| Dropped (conn : net.Conn)                   (* no codec was made *)
| Served (w : option (unit * Serving C)).     (* [serveCodec] ran on the codec *)
Arguments Dropped {C}.
Arguments Served {C}.

(** [ServeConn].  On the path that serves, the deferred [conn.Close()] is a
    second close of the connection that the codec has closed. *)
Definition ServeConn {C} `{!codec.Codec C} (NewCodecFuncMap : gmap N (net.Conn → C))
    (fuel : nat) (s : Server) (conn : net.Conn) : served C :=
  match net.ReadFull 8 conn with
  | (inl _, conn) => Dropped (snd (net.Close conn))
  | (inr buf, conn) =>
      match binary.Uint32 (take 4 buf), binary.Uint32 (drop 4 buf) with
      | Some num, Some codecType =>
          if decide (num ≠ Magic) then Dropped (snd (net.Close conn))
          else match NewCodecFuncMap !! codecType with
               | None => Dropped (snd (net.Close conn))
               | Some ncf => Served (serveCodec fuel (mkServing s (ncf conn) false 0 []))
               end
      | _, _ => Dropped (snd (net.Close conn))
      end
  end.

(** ** package mrpc: Dial, and the life of a client *)

(** [Dial]; [net_Dial] is [net.Dial].  The second component is the
    connection that was opened, if one was, as [Dial] leaves it. *)
Definition Dial {C} (NewCodecFuncMap : gmap N (net.Conn → C))
    (net_Dial : string → string → error + net.Conn)
    (network address : string) (codecType : list N)
  : (error + Client C) * option net.Conn :=
  match codecType with
  | _ :: _ :: _ =>
      (inl ("use case: Dial(" +:+ dquote +:+ "tcp" +:+ dquote +:+ ", " +:+ dquote
            +:+ "127.0.0.1:1234" +:+ dquote +:+ ", [codecType]"), None)
  | _ =>
      let ccType := match codecType with [t] => t | _ => codec.GobType end in
      match net_Dial network address with
      | inl err => (inl err, None)
      | inr conn =>
          match NewClient NewCodecFuncMap conn ccType with
          | (inl err, conn) => (inl err, Some (snd (net.Close conn)))
          | (inr client, conn) => (inr client, Some conn)
          end
      end
  end.

(** What happens to a client, one step at a time: a goroutine calls [Go], or
    [Close], or the goroutine of [receive] makes one turn of its loop.  The
    turn that ends the loop goes on to [terminateCalls]; after that the
    goroutine is gone (the client is shut down) and its step does nothing. *)
Inductive step :=
| StepGo (name : string) (args reply : any) (done : chan)
| StepClose
| StepReceive.

Definition run_step {C} `{!codec.Codec C} (s : step) : M (World C) unit :=
  match s with
  | StepGo name args reply done => Go name args reply done;; mret tt
  | StepClose => Close;; mret tt
  | StepReceive =>
      c ← getC;
      if shutdown c then mret tt
      else
        err ← receive_turn;
        match err with
        | Some e => terminateCalls e
        | None => mret tt
        end
  end.

Definition run_steps {C} `{!codec.Codec C} (ss : list step) : M (World C) unit :=
  forEach run_step ss.

(** The calls that have been signalled, in the order of the signals. *)
Definition signalled (tr : list (event mutex)) : list ptr :=
  omap (λ e, match e with EvDone _ p => Some p | _ => None end) tr.

(** A client as [NewClient] makes it, before any call. *)
Definition world_of_client {C} (c : Client C) : World C := mkWorld c ∅ [].

(** The pending table [pend], the counter, the shutdown flag, the set of
    calls that exist and the list of signals fit together. *)
Definition settled_inv (pend : gmap N ptr) (sq : N) (sh : bool) (A : gset ptr)
    (sig : list ptr) : Prop :=
  (∀ s p, pend !! s = Some p → p ∈ A)
  ∧ (∀ s1 s2 p, pend !! s1 = Some p → pend !! s2 = Some p → s1 = s2)
  ∧ (∀ s p, pend !! s = Some p → (s < sq)%N)
  ∧ NoDup sig
  ∧ (∀ p, p ∈ sig → p ∈ A)
  ∧ (∀ p, p ∈ A → if sh then p ∈ sig else (p ∈ sig ↔ ∀ s, pend !! s ≠ Some p)).

(** The invariant of a client between two steps: both locks free, and the
    pending table, the counter, the calls and the signals fit together. *)
Definition client_inv {C} (w : World C) : Prop :=
  mu (client w) = false
  ∧ sending (client w) = false
  ∧ settled_inv (pending (client w)) (seq (client w)) (shutdown (client w))
                (dom (calls w)) (signalled (trace w)).

(** ** service.go: a service built by reflection *)

(** What [reflect] says of a type: its name, the import path of its
    package (empty for a predeclared or an unnamed type), whether it is the
    interface type [error], and its shape. *)
Record rtype := mkRtype {
  rtype_Name : string;
  PkgPath : string;
  is_error : bool;
  shape : reflect.Type_
}.

(** A method as [typ.Method(i)] gives it: its name, the types of its
    arguments (the receiver first) and of its results, and its function,
    here with the receiver bound. *)
Record Method := mkMethod {
  Method_Name : string;
  In : list rtype;
  Out : list rtype;
  Func : any → any → any * option error
}.

(** The receiver handed to [newService], as far as reflection looks at it:
    the name of its type (behind the pointer) and the methods of its type,
    in the order of [typ.Method(i)]. *)
Record receiver := mkReceiver {
  rcvr_Name : string;
  rcvr_methods : list Method
}.

Section newService.
(* go/ast.IsExported *)
Variable IsExported : string → bool.

Definition isExportedOrBuiltin (t : rtype) : bool :=
  IsExported (rtype_Name t) || bool_decide (PkgPath t = "").

(** One turn of the loop of [registerMethods], on the map [s.method]. *)
Definition registerMethod (methods : gmap string methodType) (m : Method)
  : gmap string methodType :=
  if negb (length (In m) =? 3)%nat || negb (length (Out m) =? 1)%nat then methods
  else
    match Out m !! 0%nat, In m !! 1%nat, In m !! 2%nat with
    | Some out0, Some argType, Some replyType =>
        if negb (is_error out0) then methods
        else if negb (isExportedOrBuiltin argType) || negb (isExportedOrBuiltin replyType)
        then methods
        else <[Method_Name m := mkMethodType (Func m) (shape argType) (shape replyType) 0]>
               methods
    | _, _, _ => methods
    end.

Definition registerMethods (ms : list Method) : gmap string methodType :=
  foldl registerMethod ∅ ms.

(** [None]: [log.Fatalf] ends the process. *)
Definition newService (rcvr : receiver) : option service :=
  if IsExported (rcvr_Name rcvr)
  then Some (mkService (rcvr_Name rcvr) (registerMethods (rcvr_methods rcvr)))
  else None.

(** A method that can be called remotely, and its entry in the map: it
    takes the receiver and two arguments whose types are exported or
    builtin, and returns one result, of type [error]. *)
Definition rpc_method (m : Method) (mt : methodType) : Prop :=
  ∃ recv a r out,
    In m = [recv; a; r] ∧ Out m = [out] ∧ is_error out = true
    ∧ isExportedOrBuiltin a = true ∧ isExportedOrBuiltin r = true
    ∧ mt = mkMethodType (Func m) (shape a) (shape r) 0.

End newService.

(** ** What a server answers *)

(** The responses that [handleRequest] writes for the request with header
    [hd] whose body has been decoded to [a], on the registry [s]. *)
Definition answer (s : Server) (hd : codec.Header) (a : any) : list (codec.Header * any) :=
  match findService s (codec.Name hd) with
  | (Some sName, Some mName, None) =>
      match deref_method s sName mName with
      | Some mt =>
          match newReplyv mt with
          | Some replyv =>
              let argv :=
                if bool_decide (reflect.Kind_of (ArgType mt) = reflect.KPointer)
                then reflect.Ref a else a in
              match method mt argv replyv with
              | (reply, None) => [(hd, reply)]
              | (reply, Some e) =>
                  [(set_Error e hd, invalidRequest); (set_Error e hd, reply)]
              end
          | None => []
          end
      | None => []
      end
  | _ => []
  end.

(** The name in [hd] leads to a method whose reply can be allocated. *)
Definition resolves (s : Server) (hd : codec.Header) : Prop :=
  ∃ sName mName mt replyv,
    findService s (codec.Name hd) = (Some sName, Some mName, None)
    ∧ deref_method s sName mName = Some mt
    ∧ newReplyv mt = Some replyv.

(** Two registries with the same services and methods, up to the counters
    of calls. *)
Definition same_method (m m' : methodType) : Prop :=
  method m = method m' ∧ ArgType m = ArgType m' ∧ ReplyType m = ReplyType m'.

Definition same_registry (s s' : Server) : Prop :=
  (∀ sn, is_Some (serviceMap s !! sn) ↔ is_Some (serviceMap s' !! sn))
  ∧ (∀ sn mn, option_Forall2 same_method (deref_method s sn mn) (deref_method s' sn mn)).

(** ** Goroutines, step by step

    The functions above run a goroutine from its start to its end, and a
    goroutine started by [go] where it is started.  To let goroutines take
    turns, a goroutine is written here as a program of actions.  An action
    runs as a whole; an action that cannot run in the present state (a
    [Lock] of a held mutex, [wg.Wait()] on a counter that is not zero)
    leaves its goroutine waiting until another goroutine has changed the
    state. *)
Inductive prog (S : Type) : Type :=
| Stop                                          (* the goroutine has returned *)
| Act {A : Type} (a : M S A) (k : A → prog S)   (* [x := a; k x] *)
| Spawn (child : prog S) (k : prog S).          (* [go child; k] *)
Arguments Stop {S}.
Arguments Act {S A}.
Arguments Spawn {S}.

Definition is_Stop {S} (p : prog S) : bool :=
  match p with Stop => true | _ => false end.

(** The program run by one goroutine after the other: a goroutine that is
    started runs to its end where it is started. *)
Fixpoint run_prog {S} (p : prog S) : M S unit :=
  match p with
  | Stop => mret tt
  | Act a k => x ← a; run_prog (k x)
  | Spawn child k => run_prog child;; run_prog k
  end.

(** One step of the goroutine at [i] in the pool [ps]: its next action, if
    that can run.  A goroutine that is started joins the pool at its end. *)
Definition step_at {S} (i : nat) (ps : list (prog S)) (s : S) : option (list (prog S) * S) :=
  match ps !! i with
  | Some (Act a k) =>
      match a s with
      | Some (x, s') => Some (<[i := k x]> ps, s')
      | None => None
      end
  | Some (Spawn child k) => Some (<[i := k]> ps ++ [child], s)
  | Some Stop | None => None
  end.

(** The goroutines take their steps in the order [sched]; [None] when the
    goroutine whose turn it is cannot take a step. *)
Fixpoint run_sched {S} (sched : list nat) (ps : list (prog S)) (s : S)
  : option (list (prog S) * S) :=
  match sched with
  | [] => Some (ps, s)
  | i :: sched =>
      match step_at i ps s with
      | Some (ps', s') => run_sched sched ps' s'
      | None => None
      end
  end.

(** Every goroutine of the pool has returned. *)
Definition finished {S} (ps : list (prog S)) : bool := forallb is_Stop ps.

Section client_steps.
Context {C : Type} `{!codec.Codec C}.

(** [send], action by action: the send lock, [addCall] (which takes the
    state lock first), the write under the send lock, [removeCall] (the
    state lock again) when the write has failed. *)
Definition send_prog (call : ptr) : prog (World C) :=
  Act (Lock Sending) (λ _,
  Act (addCall call) (λ '(seq, err),
    match err with
    | Some e =>
        Act (store call (Call_set_Error e);; done call) (λ _,
        Act (Unlock Sending) (λ _, Stop))
    | None =>
        Act (store call (Call_set_Seq seq);;
             k ← load call;
             modifyC (set_header (codec.mkHeader seq (Name k) ""));;
             c ← getC;
             cc_Write (header c) (Args k)) (λ r,
          match r with
          | Some e =>
              Act (removeCall seq) (λ call,
              Act (match call with
                   | Some call => store call (Call_set_Error e);; done call
                   | None => mret tt
                   end) (λ _,
              Act (Unlock Sending) (λ _, Stop)))
          | None => Act (Unlock Sending) (λ _, Stop)
          end)
    end)).

(** [terminateCalls], action by action: the state lock, the send lock, the
    loop over the pending table under both, and the two deferred unlocks. *)
Definition terminateCalls_prog (err : error) : prog (World C) :=
  Act (Lock Mu) (λ _,
  Act (Lock Sending) (λ _,
  Act (modifyC (set_shutdown true);;
       c ← getC;
       forEach (λ call, store call (Call_set_Error err);; done call)
               (map snd (map_to_list (pending c)))) (λ _,
  Act (Unlock Sending) (λ _,
  Act (Unlock Mu) (λ _, Stop))))).

End client_steps.

Section server_steps.
Context {C : Type} `{!codec.Codec C}.

(** [writeResponse h body], then [k]: the lock, the write and the unlock
    are three actions, so that other goroutines can take steps while the
    mutex is held. *)
Definition writeResponse_prog (h : codec.Header) (body : any) (k : prog (Serving C))
  : prog (Serving C) :=
  Act mu_Lock (λ _, Act (scc_Write h body) (λ _, Act mu_Unlock (λ _, k))).

Definition handleRequest_prog (req : request) : prog (Serving C) :=
  Act (call (svc req) (mType req) (argv req) (replyv req)) (λ '(replyv, err),
    match err with
    | Some e =>
        writeResponse_prog (set_Error e (h req)) invalidRequest
          (writeResponse_prog (set_Error e (h req)) replyv (Act wg_Done (λ _, Stop)))
    | None => writeResponse_prog (h req) replyv (Act wg_Done (λ _, Stop))
    end).

(** [readRequest] from the header on: the method is looked up, the argument
    and the reply are made, the body is read. *)
Definition readRequest_body (h : codec.Header)
  : M (Serving C) (option request * option error) :=
  w ← get;
  let '(sName, mName, err) := findService (server w) (codec.Name h) in
  match err, sName, mName with
  | Some e, _, _ => mret (@None request, Some e)
  | None, Some sName, Some mName =>
      match deref_method (server w) sName mName with
      | None => stuck
      | Some mt =>
          let argv := newArgv mt in
          match newReplyv mt with
          | None => stuck
          | Some replyv =>
              let pointer := bool_decide (reflect.Kind_of (ArgType mt) = reflect.KPointer) in
              let iargv := if pointer then argv else reflect.Ref argv in
              '(_, iargv) ← scc_ReadBody iargv;
              let argv :=
                if pointer then iargv
                else match iargv with reflect.Ref v => v | _ => argv end in
              mret (Some (mkRequest h sName mName argv replyv), @None error)
          end
      end
  | None, _, _ => stuck
  end.

(** [readRequest], then [k] on its result: the header and the body are read
    by two actions. *)
Definition readRequest_prog (k : option request * option error → prog (Serving C))
  : prog (Serving C) :=
  Act readRequestHeader (λ '(h, err),
    match err, h with
    | Some e, _ => k (None, Some e)
    | None, None => Act (@stuck _ unit) (λ _, Stop)
    | None, Some h => Act (readRequest_body h) k
    end).

(** The body of the loop of [serveCodec] once [readRequest] has returned;
    [next] is the next turn of the loop and [after] what follows the loop. *)
Definition serveCodec_dispatch (next after : prog (Serving C))
    (r : option request * option error) : prog (Serving C) :=
  let '(req, err) := r in
  match err, req with
  | Some _, None => after
  | Some e, Some req =>
      Spawn (writeResponse_prog (set_Error e (h req)) invalidRequest Stop) next
  | None, Some req =>
      Act (wg_Add 1) (λ _, Spawn (handleRequest_prog req) next)
  | None, None => Act (@stuck _ unit) (λ _, Stop)
  end.

Fixpoint serveCodec_loop_prog (fuel : nat) (after : prog (Serving C)) : prog (Serving C) :=
  match fuel with
  | O => Act (@stuck _ unit) (λ _, Stop)
  | S fuel =>
      readRequest_prog (serveCodec_dispatch (serveCodec_loop_prog fuel after) after)
  end.

(** [serveCodec]: the loop, [wg.Wait()], and the deferred [cc.Close()]. *)
Definition serveCodec_prog (fuel : nat) : prog (Serving C) :=
  serveCodec_loop_prog fuel (Act wg_Wait (λ _, Act scc_Close (λ _, Stop))).

End server_steps.

(** ** Codecs to run the model on *)

(** A codec that plays a script: what the peer sends, read by read, and the
    results of the writes, write by write (a write past the end of the list
    succeeds). *)
Module script.

Inductive item :=
| Hdr (h : codec.Header)
| Body (v : any)
| Broken (e : error).

Record Codec := mk {
  incoming : list item;
  wresults : list (option error);
  closed : bool
}.

Definition ReadHeader (c : Codec) : (error + codec.Header) * Codec :=
  match incoming c with
  | [] => (inl "EOF", c)
  | Hdr h :: rest => (inr h, mk rest (wresults c) (closed c))
  | Body _ :: rest => (inl "gob: type mismatch", mk rest (wresults c) (closed c))
  | Broken e :: rest => (inl e, mk rest (wresults c) (closed c))
  end.

Definition ReadBody (target : any) (c : Codec) : (option error * any) * Codec :=
  match incoming c with
  | [] => ((Some "EOF", target), c)
  | Body v :: rest =>
      match target with
      | reflect.Nil => ((None, target), mk rest (wresults c) (closed c))
      | reflect.Ref _ => ((None, reflect.Ref v), mk rest (wresults c) (closed c))
      | _ => ((Some "gob: attempt to decode into a non-pointer", target),
              mk rest (wresults c) (closed c))
      end
  | Hdr _ :: rest => ((Some "gob: type mismatch", target), mk rest (wresults c) (closed c))
  | Broken e :: rest => ((Some e, target), mk rest (wresults c) (closed c))
  end.

Definition Write (h : codec.Header) (body : any) (c : Codec) : option error * Codec :=
  match wresults c with
  | [] => (None, c)
  | r :: rest => (r, mk (incoming c) rest (closed c))
  end.

Definition Close (c : Codec) : option error * Codec :=
  (None, mk (incoming c) (wresults c) true).

#[global] Instance Codec_Codec : codec.Codec Codec := {
  codec.ReadHeader := ReadHeader;
  codec.ReadBody := ReadBody;
  codec.Write := Write;
  codec.Close := Close
}.

End script.

(** A wire format for running gob.go: one byte for a header, two for a body,
    and a decoder that reads them back without looking inside. *)
Definition Gob_sample : codec.Gob := {|
  codec.Encoder := unit;
  codec.Decoder := unit;
  codec.NewEncoder := tt;
  codec.NewDecoder := tt;
  codec.encode := λ v _,
    (inr (match v with inl _ => ["001"%byte] | inr _ => ["002"%byte; "002"%byte] end), tt);
  codec.decodeHeader := λ _ bs,
    match bs with
    | [] => (inl "EOF", (tt, []))
    | _ :: rest => (inr (codec.mkHeader 0 "" ""), (tt, rest))
    end;
  codec.decodeBody := λ target _ bs,
    match bs with
    | _ :: _ :: rest => ((None, target), (tt, rest))
    | _ => ((Some "EOF", target), (tt, []))
    end
|}.

(** [n] calls enqueued one after the other: [addCall] runs under the state
    lock, so enqueues from several goroutines happen in some such order. *)
Fixpoint addCalls {C} `{!codec.Codec C} (ps : list ptr) : M (World C) (list (N * option error)) :=
  match ps with
  | [] => mret []
  | p :: ps => r ← addCall p; rs ← addCalls ps; mret (r :: rs)
  end.

(** The number given to the [i]-th call enqueued from counter [s]. *)
Definition seq_at (s : N) (i : nat) : N := uint64 (s + N.of_nat i).

(** ** Worlds to run the client on *)

Definition call_Add (done : chan) : Call :=
  mkCall "Arith.Add" (reflect.Struct [reflect.Int 1; reflect.Int 2]) 0 None
         (reflect.Ref (reflect.Int 0)) done.

(** A client as [NewClient] leaves it, on a codec that plays [incoming],
    and three calls that [Go] has built and not sent yet. *)
Definition world_fresh (incoming : list script.item) : World script.Codec :=
  mkWorld
    (mkClient (script.mk incoming [] false) [] false (codec.mkHeader 0 "" "") false 1 ∅
              false false)
    (<[1%positive := call_Add 11]> (<[2%positive := call_Add 12]>
       (<[3%positive := call_Add 13]> ∅)))
    [].

(** The same client with the first two calls enqueued. *)
Definition world_pending (incoming : list script.item) : World script.Codec :=
  mkWorld
    (mkClient (script.mk incoming [] false) [] false (codec.mkHeader 0 "" "") false 3
              (<[1%N := 1%positive]> (<[2%N := 2%positive]> ∅)) false false)
    (<[1%positive := Call_set_Seq 1 (call_Add 11)]>
       (<[2%positive := Call_set_Seq 2 (call_Add 12)]>
          (<[3%positive := call_Add 13]> ∅)))
    [].


(** The messages of a peer that sends the requests [reqs], each a header
    followed by its body. *)
Definition request_stream (reqs : list (codec.Header * any)) : list script.item :=
  reqs ≫= λ r, [script.Hdr r.1; script.Body r.2].

(** ** A server to run the model on *)

(** The method [Add] of the test service [Arith], which puts the sum of the
    two numbers of its argument into its reply, and a method that can fail:
    [Div] returns an error when the divisor is zero. *)
Definition Arith_Add : methodType :=
  mkMethodType
    (λ argv replyv,
       match argv with
       | reflect.Ref (reflect.Struct [reflect.Int a; reflect.Int b]) =>
           (reflect.Ref (reflect.Int (a + b)), None)
       | _ => (replyv, Some "bad arguments")
       end)
    (reflect.TPointer (reflect.TStruct [reflect.TInt; reflect.TInt]))
    (reflect.TPointer reflect.TInt) 0.

Definition Arith_Div : methodType :=
  mkMethodType
    (λ argv replyv,
       match argv with
       | reflect.Ref (reflect.Struct [reflect.Int a; reflect.Int b]) =>
           if decide (b = 0%Z) then (replyv, Some "divide by zero")
           else (reflect.Ref (reflect.Int (a / b)), None)
       | _ => (replyv, Some "bad arguments")
       end)
    (reflect.TPointer (reflect.TStruct [reflect.TInt; reflect.TInt]))
    (reflect.TPointer reflect.TInt) 0.

Definition Arith : service :=
  mkService "Arith" (<["Add" := Arith_Add]> (<["Div" := Arith_Div]> ∅)).

Definition server_Arith : Server := snd (Register Arith NewServer).

Definition mkArgs (a b : Z) : any := reflect.Struct [reflect.Int a; reflect.Int b].

(** A connection of [server_Arith] whose peer sends [incoming]. *)
Definition serving (incoming : list script.item) : Serving script.Codec :=
  mkServing server_Arith (script.mk incoming [] false) false 0 [].

(** ** Notions used in the statements *)

(** The four bytes of a [uint32], the most significant first. *)
Definition be32 (v : N) : list byte :=
  [binary.byte_of (N.shiftr v 24); binary.byte_of (N.shiftr v 16);
   binary.byte_of (N.shiftr v 8); binary.byte_of v].

(** The eight bytes that open a connection. *)
Definition preamble (codecType : N) : list byte := be32 Magic ++ be32 codecType.


(** The world after [m.Lock()] and after [m.Unlock()]. *)
Definition lock_world {C} (m : mutex) (w : World C) : World C :=
  mkWorld (set_held m true (client w)) (calls w) (trace w ++ [EvLock m]).

Definition unlock_world {C} (m : mutex) (w : World C) : World C :=
  mkWorld (set_held m false (client w)) (calls w) (trace w ++ [EvUnlock m]).

(** The event of [call.done()], for the call at [p] in the store [ks]. *)
Definition signal (ks : gmap ptr Call) (p : ptr) : list (event mutex) :=
  match ks !! p with
  | Some k => [EvDone (Done k) p]
  | None => []
  end.

(** Every call in the pending table is a call: no nil, no dangling pointer. *)
Definition pending_allocated {C} (w : World C) : Prop :=
  ∀ s p, pending (client w) !! s = Some p → is_Some (calls w !! p).

(** The responses in a trace: the header and the body of every write. *)
Definition responses {L} (tr : list (event L)) : list (codec.Header * any) :=
  omap (λ e, match e with EvWrite h body _ => Some (h, body) | _ => None end) tr.

(** ** More to run the model on *)

(** A wire format that refuses a header without a name and a nil body. *)
Definition Gob_strict : codec.Gob := {|
  codec.Encoder := unit;
  codec.Decoder := unit;
  codec.NewEncoder := tt;
  codec.NewDecoder := tt;
  codec.encode := λ v _,
    (match v with
     | inl hd => if decide (codec.Name hd = "") then inl "gob: header without a name"
                 else inr ["001"%byte]
     | inr reflect.Nil => inl "gob: cannot encode nil pointer"
     | inr _ => inr ["002"%byte; "002"%byte]
     end, tt);
  codec.decodeHeader := λ _ bs,
    match bs with
    | [] => (inl "EOF", (tt, []))
    | _ :: rest => (inr (codec.mkHeader 0 "" ""), (tt, rest))
    end;
  codec.decodeBody := λ target _ bs,
    match bs with
    | _ :: _ :: rest => ((None, target), (tt, rest))
    | _ => ((Some "EOF", target), (tt, []))
    end
|}.


(** The client of [world_fresh] while a sender holds the send lock. *)
Definition world_sending : World script.Codec :=
  mkWorld
    (mkClient (script.mk [] [] false) [] true (codec.mkHeader 0 "" "") false 1 ∅ false false)
    (<[1%positive := call_Add 11]> ∅)
    [].

(** A client as [NewClient] leaves it, whose peer answers the second call
    and then hangs up. *)
Definition client_sample : Client script.Codec :=
  mkClient (script.mk [script.Hdr (codec.mkHeader 2 "Arith.Add" "");
                       script.Body (reflect.Int 3)] [] false)
           (preamble codec.GobType) false (codec.mkHeader 0 "" "") false 1 ∅ false false.

Definition steps_sample : list step :=
  [StepGo "Arith.Add" (mkArgs 1 2) (reflect.Ref (reflect.Int 0)) 11;
   StepGo "Arith.Add" (mkArgs 1 2) (reflect.Ref (reflect.Int 0)) 12;
   StepReceive; StepReceive;
   StepGo "Arith.Add" (mkArgs 1 2) (reflect.Ref (reflect.Int 0)) 13].

(** [ast.IsExported] on names that start with an ASCII letter. *)
Definition IsExported_sample (s : string) : bool :=
  match s with
  | String a _ => (65 <=? Ascii.nat_of_ascii a)%nat && (Ascii.nat_of_ascii a <=? 90)%nat
  | EmptyString => false
  end.

(** The receiver of the test: type [Arith] with the methods [Add] and
    [Div], and a method that is not of the form for a remote call. *)
Definition Arith_receiver : receiver :=
  let int := mkRtype "int" "" false reflect.TInt in
  let pint := mkRtype "" "" false (reflect.TPointer reflect.TInt) in
  let pArgs := mkRtype "" "" false
                 (reflect.TPointer (reflect.TStruct [reflect.TInt; reflect.TInt])) in
  let pArith := mkRtype "" "" false (reflect.TPointer reflect.TInt) in
  let err := mkRtype "error" "" true reflect.TString in
  mkReceiver "Arith"
    [mkMethod "Add" [pArith; pArgs; pint] [err] (method Arith_Add);
     mkMethod "Div" [pArith; pArgs; pint] [err] (method Arith_Div);
     mkMethod "Reset" [pArith] [] (λ _ replyv, (replyv, None))].

(** ** Notions used for goroutines that take turns *)

(** [out] is woven from the lists [ls]: it holds the elements of each list
    in the order of that list, the lists interleaved in any way. *)
Inductive woven {A : Type} : list (list A) → list A → Prop :=
| woven_nil ls : Forall (λ l, l = []) ls → woven ls []
| woven_snoc l1 l l2 out x :
    woven (l1 ++ l :: l2) out → woven (l1 ++ (l ++ [x]) :: l2) (out ++ [x]).

(** A response, or a request, as it travels: the header and the body. *)
Abbreviation resp := (codec.Header * any)%type.

(** Where the goroutine of [serveCodec] is: about to read the header of
    the next request ([rs] are the requests still in the stream), about to
    read the body of the request whose header it has read, about to add
    one to the wait group, about to start the handler, about to wait for
    the handlers, about to close the codec, or returned. *)
Inductive loop_place :=
| MHeader (rs : list resp)
| MBody (hd : codec.Header) (a : any) (rs : list resp)
| MAdd (req : request) (r : resp) (rs : list resp)
| MSpawn (req : request) (r : resp) (rs : list resp)
| MWait
| MClose
| MStop.

(** Where a goroutine of [handleRequest] is: about to call the method;
    about to lock the mutex for the first of the responses [outs] that are
    left to write (about to call [wg.Done()] when none is left); holding
    the mutex, about to write [o]; holding the mutex, about to unlock;
    or returned. *)
Inductive handler_place :=
| HCall (req : request)
| HLock (outs : list resp)
| HWrite (o : resp) (outs : list resp)
| HUnlock (outs : list resp)
| HStop.

(** The program that is left to run at each place. *)
Definition after_loop : prog (Serving script.Codec) :=
  Act wg_Wait (λ _, Act scc_Close (λ _, Stop)).

Definition loop_at (rs : list resp) : prog (Serving script.Codec) :=
  serveCodec_loop_prog (S (length rs)) after_loop.

Definition loop_prog (ms : loop_place) : prog (Serving script.Codec) :=
  match ms with
  | MHeader rs => loop_at rs
  | MBody hd a rs => Act (readRequest_body hd) (serveCodec_dispatch (loop_at rs) after_loop)
  | MAdd req r rs => Act (wg_Add 1) (λ _, Spawn (handleRequest_prog req) (loop_at rs))
  | MSpawn req r rs => Spawn (handleRequest_prog req) (loop_at rs)
  | MWait => after_loop
  | MClose => Act scc_Close (λ _, Stop)
  | MStop => Stop
  end.

Fixpoint writes_prog (outs : list resp) : prog (Serving script.Codec) :=
  match outs with
  | [] => Act wg_Done (λ _, Stop)
  | o :: outs => writeResponse_prog o.1 o.2 (writes_prog outs)
  end.

Definition handler_prog (hs : handler_place) : prog (Serving script.Codec) :=
  match hs with
  | HCall req => handleRequest_prog req
  | HLock outs => writes_prog outs
  | HWrite o outs => Act (scc_Write o.1 o.2) (λ _, Act mu_Unlock (λ _, writes_prog outs))
  | HUnlock outs => Act mu_Unlock (λ _, writes_prog outs)
  | HStop => Stop
  end.

(** What the place of the loop says of the state: the requests that have no
    handler yet, what is left of the stream, whether the codec is closed,
    whether the wait group counts a handler that is not started yet, and
    whether [wg.Wait()] has returned. *)
Definition pend (ms : loop_place) : list resp :=
  match ms with
  | MHeader rs => rs
  | MBody hd a rs => (hd, a) :: rs
  | MAdd _ r rs | MSpawn _ r rs => r :: rs
  | _ => []
  end.

Definition stream (ms : loop_place) : list script.item :=
  match ms with
  | MHeader rs | MAdd _ _ rs | MSpawn _ _ rs => request_stream rs
  | MBody hd a rs => script.Body a :: request_stream rs
  | _ => []
  end.

Definition closed_of (ms : loop_place) : bool :=
  match ms with MStop => true | _ => false end.

Definition spawning (ms : loop_place) : nat :=
  match ms with MSpawn _ _ _ => 1 | _ => 0 end.

Definition joined (ms : loop_place) : bool :=
  match ms with MClose | MStop => true | _ => false end.

(** A handler with the responses it has written and the request it serves:
    whether it has yet to return, and whether it holds the mutex. *)
Definition live (e : handler_place * list resp * resp) : nat :=
  match e.1.1 with HStop => 0 | _ => 1 end.

Definition holding (e : handler_place * list resp * resp) : nat :=
  match e.1.1 with HWrite _ _ | HUnlock _ => 1 | _ => 0 end.

(** The responses that [handleRequest] writes after a call with result
    [res] for a request with header [hd]. *)
Definition outs_of (hd : codec.Header) (res : any * option error) : list resp :=
  match res with
  | (reply, None) => [(hd, reply)]
  | (reply, Some e) => [(set_Error e hd, invalidRequest); (set_Error e hd, reply)]
  end.

(** The request [req] that [readRequest] has made of [r] leads to the
    answer to [r]. *)
Definition req_ok (srv : Server) (r : resp) (req : request) : Prop :=
  ∃ m, deref_method srv (svc req) (mType req) = Some m
       ∧ outs_of (h req) (method m (argv req) (replyv req)) = answer srv r.1 r.2.

(** What a handler has written and what it has left to write make up the
    answer to its request. *)
Definition hok (srv : Server) (e : handler_place * list resp * resp) : Prop :=
  match e.1.1 with
  | HCall req => e.1.2 = [] ∧ req_ok srv e.2 req
  | HLock outs => e.1.2 ++ outs = answer srv e.2.1 e.2.2
  | HWrite o outs => e.1.2 ++ o :: outs = answer srv e.2.1 e.2.2
  | HUnlock outs => e.1.2 ++ outs = answer srv e.2.1 e.2.2
  | HStop => e.1.2 = answer srv e.2.1 e.2.2
  end.

Definition mok (srv : Server) (ms : loop_place) : Prop :=
  match ms with
  | MAdd req r _ | MSpawn req r _ => req_ok srv r req
  | _ => True
  end.

(** A bound on the steps that are left to take. *)
Definition msteps (ms : loop_place) : nat :=
  match ms with
  | MHeader rs => 12 * length rs + 3
  | MBody _ _ rs => 12 * length rs + 14
  | MAdd _ _ rs => 12 * length rs + 13
  | MSpawn _ _ rs => 12 * length rs + 12
  | MWait => 2
  | MClose => 1
  | MStop => 0
  end.

Definition hsteps (e : handler_place * list resp * resp) : nat :=
  match e.1.1 with
  | HCall _ => 8
  | HLock outs => 3 * length outs + 1
  | HWrite _ outs => 3 * length outs + 3
  | HUnlock outs => 3 * length outs + 2
  | HStop => 0
  end.

Definition steps_left (ms : loop_place) (hl : list (handler_place * list resp * resp)) : nat :=
  msteps ms + sum_list_with hsteps hl.

(** The invariant of a connection that serves the stream [reqs]: the pool
    is the loop at [ms] and one handler for each request read so far, in the
    order of the stream; the responses written so far are woven from what
    each handler has written; the mutex is held by at most one handler and
    the wait group counts the handlers that have not returned. *)
Record inv_at (srv : Server) (reqs : list resp) (ms : loop_place)
    (hl : list (handler_place * list resp * resp))
    (ps : list (prog (Serving script.Codec))) (w : Serving script.Codec) : Prop := {
  inv_pool : ps = loop_prog ms :: ((λ e, handler_prog e.1.1) <$> hl);
  inv_reqs : reqs = hl.*2 ++ pend ms;
  inv_hok : Forall (hok srv) hl;
  inv_mok : mok srv ms;
  inv_woven : woven (hl.*1.*2) (responses (strace w));
  inv_registry : same_registry srv (server w);
  inv_incoming : script.incoming (scc w) = stream ms;
  inv_closed : script.closed (scc w) = closed_of ms;
  inv_mutex : sum_list_with holding hl = (if smu w then 1 else 0)%nat;
  inv_wg : wg w = (sum_list_with live hl + spawning ms)%nat;
  inv_joined : joined ms = true → wg w = 0%nat;
  inv_last : closed_of ms = true → ∃ tr, strace w = tr ++ [EvClose]
}.

(** A schedule for two requests: the loop reads both and starts their
    handlers; the second handler writes its first response; the first
    handler runs to its end; the second handler writes its second response;
    the loop waits and closes. *)
Definition sched_sample : list nat :=
  [0; 0; 0; 0; 0; 0; 0; 0; 0; 2; 2; 2; 2; 1; 1; 1; 1; 1; 2; 2; 2; 2; 0; 0]%nat.

(** * Properties *)

(** ** The gob codec *)

Section gob.
Context `{codec.Gob}.

Lemma Encode_conn v c r c' :
  codec.Encode v c = (r, c') → codec.conn c' = codec.conn c.
Proof.
  unfold codec.Encode. destruct (codec.encode v (codec.enc c)) as [[e|bs] enc'].
  - intros [= <- <-]. reflexivity.
  - destruct (bufio.Write bs (codec.buf c)) as [r' buf']. intros [= <- <-]. reflexivity.
Qed.

Lemma Flush_closed b c :
  net.closed (snd (snd (bufio.Flush b c))) = net.closed c.
Proof.
  unfold bufio.Flush. destruct (bufio.err b); [reflexivity|].
  destruct (bufio.buf b); [reflexivity|].
  unfold net.Write. destruct (net.closed c) eqn:Hc; [exact Hc|].
  destruct (net.wfail c); simpl; auto.
Qed.

Lemma Flush_failed_wr b c e :
  fst (bufio.Flush b c) = Some e → net.wr (snd (snd (bufio.Flush b c))) = net.wr c.
Proof.
  unfold bufio.Flush. destruct (bufio.err b); [reflexivity|].
  destruct (bufio.buf b); [reflexivity|].
  unfold net.Write. destruct (net.closed c); [reflexivity|].
  destruct (net.wfail c); simpl; [reflexivity|discriminate].
Qed.

(** C10.  When the header and the body are both encoded and the flush of
    the buffer to the connection fails, [Write] returns nil and does not
    close the connection; the bytes of the message have not reached it. *)
Theorem GobCodec_Write_drops_flush_error h body c c1 c2 e :
  codec.Encode (inl h) c = (None, c1) →
  codec.Encode (inr body) c1 = (None, c2) →
  fst (bufio.Flush (codec.buf c2) (codec.conn c2)) = Some e →
  fst (codec.GobCodec_Write h body c) = None
  ∧ net.closed (codec.conn (snd (codec.GobCodec_Write h body c))) = net.closed (codec.conn c)
  ∧ net.wr (codec.conn (snd (codec.GobCodec_Write h body c))) = net.wr (codec.conn c).
Proof.
  intros H1 H2 Hf. unfold codec.GobCodec_Write. rewrite H1, H2.
  assert (Hc : codec.conn c2 = codec.conn c).
  { rewrite (Encode_conn _ _ _ _ H2). exact (Encode_conn _ _ _ _ H1). }
  unfold codec.GobCodec_Write_deferred.
  pose proof (Flush_closed (codec.buf c2) (codec.conn c2)) as Hcl.
  pose proof (Flush_failed_wr _ _ _ Hf) as Hwr.
  destruct (bufio.Flush (codec.buf c2) (codec.conn c2)) as [r [b' conn']].
  simpl in *. rewrite Hcl, Hwr, Hc. auto.
Qed.

(** The other side of C10: an encoding that fails closes the connection
    and is returned. *)
Lemma GobCodec_Write_encode_error_closes h body c :
  fst (codec.GobCodec_Write h body c) ≠ None →
  net.closed (codec.conn (snd (codec.GobCodec_Write h body c))) = true.
Proof.
  unfold codec.GobCodec_Write.
  assert (Hd : ∀ e c0, net.closed (codec.conn (codec.GobCodec_Write_deferred (Some e) c0)) = true).
  { intros e c0. unfold codec.GobCodec_Write_deferred.
    destruct (bufio.Flush (codec.buf c0) (codec.conn c0)) as [r [b' conn']].
    unfold codec.GobCodec_Close, net.Close. simpl.
    destruct (net.closed conn') eqn:Hc; simpl; auto. }
  destruct (codec.Encode (inl h) c) as [[e|] c1]; [intros _; apply Hd|].
  destruct (codec.Encode (inr body) c1) as [[e|] c2]; [intros _; apply Hd|].
  simpl. congruence.
Qed.

End gob.

Lemma GobCodec_Write_drops_flush_error_witness :
  let _ := Gob_sample in
  let c := codec.NewGobCodec (net.mkConn [] [] (Some "broken pipe") false) in
  fst (codec.GobCodec_Write (codec.mkHeader 1 "Arith.Add" "") (reflect.Int 3) c) = None
  ∧ net.closed (codec.conn (snd (codec.GobCodec_Write (codec.mkHeader 1 "Arith.Add" "") (reflect.Int 3) c))) = false
  ∧ net.wr (codec.conn (snd (codec.GobCodec_Write (codec.mkHeader 1 "Arith.Add" "") (reflect.Int 3) c))) = [].
Proof.
  intros G c.
  eapply (@GobCodec_Write_drops_flush_error Gob_sample
            (codec.mkHeader 1 "Arith.Add" "") (reflect.Int 3) c _ _ "broken pipe");
    reflexivity.
Defined.

(** ** The client *)

Ltac unfold_M :=
  unfold withLock, Lock, Unlock, store, done, load, getC, modifyC, emit, get, modify, stuck,
    mbind, M_bind, mret, M_ret in *.

Section client_facts.
Context {C : Type} `{!codec.Codec C}.
Implicit Types (w : World C) (c : Client C) (p : ptr) (k : Call).

Lemma removeCall_run w s :
  mu (client w) = false →
  removeCall s w =
    Some (pending (client w) !! s,
          mkWorld (set_pending (delete s (pending (client w))) (client w)) (calls w)
                  (trace w ++ [EvLock Mu; EvUnlock Mu])).
Proof.
  destruct w as [[] ks tr]; simpl. intros ->.
  unfold removeCall. unfold_M. simpl. rewrite <- app_assoc. reflexivity.
Qed.

Lemma addCall_down_run w p :
  mu (client w) = false →
  closing (client w) || shutdown (client w) = true →
  addCall p w =
    Some ((0%N, Some ErrShutDown),
          mkWorld (client w) (calls w) (trace w ++ [EvLock Mu; EvUnlock Mu])).
Proof.
  destruct w as [[] ks tr]; simpl. intros -> Hd.
  unfold addCall. unfold_M. simpl. rewrite Hd. simpl. rewrite <- app_assoc. reflexivity.
Qed.

Lemma addCall_up_run w p k :
  mu (client w) = false →
  closing (client w) = false →
  shutdown (client w) = false →
  calls w !! p = Some k →
  addCall p w =
    Some ((seq (client w), None),
          mkWorld (set_seq (uint64 (seq (client w) + 1))
                     (set_pending (<[seq (client w) := p]> (pending (client w))) (client w)))
                  (<[p := Call_set_Seq (seq (client w)) k]> (calls w))
                  (trace w ++ [EvLock Mu; EvUnlock Mu])).
Proof.
  destruct w as [[] ks tr]; simpl. intros -> -> -> Hk.
  unfold addCall. unfold_M. simpl. rewrite Hk. simpl.
  rewrite lookup_insert_eq. simpl. rewrite <- app_assoc. reflexivity.
Qed.

(** C9.  [removeCall] returns the entry under the sequence number, nil when
    there is none, and deletes it; on a number that is absent the table is
    left as it is, so a second removal returns nil and changes nothing.  The
    calls themselves, the counter and the flags are not touched. *)
Theorem removeCall_idempotent w s :
  mu (client w) = false →
  ∃ w1 w2,
    removeCall s w = Some (pending (client w) !! s, w1)
    ∧ pending (client w1) = delete s (pending (client w))
    ∧ pending (client w1) !! s = None
    ∧ (∀ s', s' ≠ s → pending (client w1) !! s' = pending (client w) !! s')
    ∧ (pending (client w) !! s = None → pending (client w1) = pending (client w))
    ∧ removeCall s w1 = Some (None, w2)
    ∧ pending (client w2) = pending (client w1)
    ∧ calls w2 = calls w ∧ calls w1 = calls w
    ∧ seq (client w1) = seq (client w)
    ∧ closing (client w1) = closing (client w)
    ∧ shutdown (client w1) = shutdown (client w).
Proof.
  intros Hmu. eexists _, _. split; [apply removeCall_run, Hmu|]. simpl.
  split; [reflexivity|]. split; [apply lookup_delete_eq|].
  split; [intros s' Hs; by apply lookup_delete_ne|].
  split; [apply delete_id|].
  split.
  { rewrite removeCall_run by (destruct w as [[] ? ?]; exact Hmu).
    simpl. rewrite lookup_delete_eq. reflexivity. }
  simpl. split; [apply delete_id, lookup_delete_eq|].
  destruct w as [[] ? ?]; simpl; auto.
Qed.


End client_facts.


Lemma uint64_mod v : uint64 v = (v mod 2 ^ 64)%N.
Proof. unfold uint64. apply N.land_ones. Qed.

Lemma seq_at_0 s : (s < 2 ^ 64)%N → seq_at s 0 = s.
Proof. intros Hs. unfold seq_at. rewrite uint64_mod, N.add_0_r. by apply N.mod_small. Qed.

Lemma seq_at_S s i : seq_at (uint64 (s + 1)) i = seq_at s (S i).
Proof.
  unfold seq_at. rewrite !uint64_mod, N.Div0.add_mod_idemp_l. f_equal. lia.
Qed.

Lemma seq_at_lt s i : (seq_at s i < 2 ^ 64)%N.
Proof. unfold seq_at. rewrite uint64_mod. by apply N.mod_lt. Qed.

Lemma seq_at_ne s i j :
  (i < j)%nat → (N.of_nat j - N.of_nat i < 2 ^ 64)%N → seq_at s i ≠ seq_at s j.
Proof.
  intros Hij Hw. unfold seq_at. rewrite !uint64_mod. intros Heq.
  pose proof (N.div_mod (s + N.of_nat i) (2 ^ 64)) as H1.
  pose proof (N.div_mod (s + N.of_nat j) (2 ^ 64)) as H2.
  rewrite Heq in H1.
  set (m := (2 ^ 64)%N) in *.
  assert (Hm : (0 < m)%N) by (subst m; lia).
  specialize (H1 ltac:(lia)). specialize (H2 ltac:(lia)).
  set (qa := ((s + N.of_nat i) / m)%N) in *.
  set (qb := ((s + N.of_nat j) / m)%N) in *.
  set (r := ((s + N.of_nat j) mod m)%N) in *.
  assert (qa < qb)%N by nia.
  nia.
Qed.

Section client_enqueue.
Context {C : Type} `{!codec.Codec C}.
Implicit Types (w : World C) (c : Client C) (p : ptr) (k : Call).

Lemma addCalls_run ps : ∀ w,
  mu (client w) = false →
  closing (client w) = false →
  shutdown (client w) = false →
  (∀ p, p ∈ ps → is_Some (calls w !! p)) →
  (seq (client w) < 2 ^ 64)%N →
  (N.of_nat (length ps) ≤ 2 ^ 64)%N →
  ∃ w',
    addCalls ps w = Some (imap (λ i _, (seq_at (seq (client w)) i, None)) ps, w')
    ∧ seq (client w') = seq_at (seq (client w)) (length ps)
    ∧ (∀ i p, ps !! i = Some p → pending (client w') !! seq_at (seq (client w)) i = Some p)
    ∧ (∀ s, (∀ i, (i < length ps)%nat → s ≠ seq_at (seq (client w)) i) →
            pending (client w') !! s = pending (client w) !! s)
    ∧ (∀ q, q ∉ ps → calls w' !! q = calls w !! q)
    ∧ (NoDup ps → ∀ i p, ps !! i = Some p →
         ∃ k, calls w !! p = Some k
              ∧ calls w' !! p = Some (Call_set_Seq (seq_at (seq (client w)) i) k))
    ∧ trace w' = trace w ++ concat (replicate (length ps) [EvLock Mu; EvUnlock Mu])
    ∧ cc (client w') = cc (client w)
    ∧ closing (client w') = false ∧ shutdown (client w') = false
    ∧ mu (client w') = false ∧ sending (client w') = sending (client w).
Proof.
  induction ps as [|p ps IH]; intros w Hmu Hcl Hsh Hal Hs Hlen.
  - exists w. simpl. rewrite seq_at_0 by done. rewrite app_nil_r.
    split; [reflexivity|]. repeat split; try done.
  - destruct (Hal p) as [k Hk]; [left|].
    pose proof (addCall_up_run w p k Hmu Hcl Hsh Hk) as Hrun.
    set (w1 := mkWorld _ _ _) in Hrun.
    assert (Hs1 : seq (client w1) = uint64 (seq (client w) + 1)).
    { subst w1. by destruct w as [[] ? ?]. }
    assert (Hp1 : pending (client w1) = <[seq (client w) := p]> (pending (client w))).
    { subst w1. by destruct w as [[] ? ?]. }
    destruct (IH w1) as (w' & Hrun' & Hseq' & Hin' & Hout' & Hcalls' & Hnd' & Htr' & Hcc' & Hcl' & Hsh' & Hmu' & Hsd').
    { subst w1. by destruct w as [[] ? ?]. }
    { subst w1. by destruct w as [[] ? ?]. }
    { subst w1. by destruct w as [[] ? ?]. }
    { intros q Hq. subst w1; simpl. apply lookup_insert_is_Some'. right. apply Hal. by right. }
    { rewrite Hs1. rewrite uint64_mod. by apply N.mod_lt. }
    { simpl in Hlen. lia. }
    assert (Hwin : ∀ i, (i < length ps)%nat → seq (client w) ≠ seq_at (seq (client w)) (S i)).
    { intros i Hi. rewrite <- (seq_at_0 (seq (client w))) at 1 by done.
      apply seq_at_ne; [lia|]. simpl in Hlen. lia. }
    exists w'. simpl. unfold mbind, M_bind. rewrite Hrun, Hrun'. simpl.
    rewrite Hs1 in *. split.
    { unfold mret, M_ret. do 2 f_equal. f_equal; [by rewrite seq_at_0|].
      apply imap_ext. intros i x _. simpl. by rewrite seq_at_S. }
    split; [by rewrite Hseq', seq_at_S|].
    split.
    { intros [|i] q Hq; simpl in Hq.
      - injection Hq as <-. rewrite seq_at_0 by done. rewrite Hout'.
        + rewrite Hp1. apply lookup_insert_eq.
        + intros i Hi. rewrite seq_at_S. by apply Hwin.
      - rewrite <- seq_at_S. by apply Hin'. }
    split.
    { intros s Hout. rewrite Hout'.
      - rewrite Hp1. apply lookup_insert_ne. specialize (Hout 0%nat ltac:(lia)).
        rewrite seq_at_0 in Hout by done. done.
      - intros i Hi. rewrite seq_at_S. apply Hout. lia. }
    split.
    { intros q Hq. rewrite not_elem_of_cons in Hq. destruct Hq as [Hqp Hq].
      rewrite Hcalls' by done. subst w1; simpl. by apply lookup_insert_ne. }
    split.
    { intros Hnd [|i] q Hq; simpl in Hq; apply NoDup_cons in Hnd as [Hp Hnd].
      - injection Hq as <-. exists k. split; [done|]. rewrite Hcalls' by done.
        subst w1; simpl. rewrite seq_at_0 by done. apply lookup_insert_eq.
      - destruct (Hnd' Hnd i q Hq) as (k' & Hk' & Hk'').
        assert (q ≠ p). { intros ->. apply Hp. by eapply list_elem_of_lookup_2. }
        subst w1; simpl in Hk'. rewrite lookup_insert_ne in Hk' by done.
        exists k'. by rewrite <- seq_at_S. }
    split.
    { rewrite Htr'. subst w1; simpl. by rewrite <- !app_assoc. }
    split; [rewrite Hcc'; subst w1; by destruct w as [[] ? ?]|].
    split; [done|]. split; [done|]. split; [done|].
    rewrite Hsd'. subst w1; by destruct w as [[] ? ?].
Qed.

Lemma seq_window_NoDup (s : N) (ps : list ptr) :
  (N.of_nat (length ps) ≤ 2 ^ 64)%N →
  NoDup (imap (λ i _, seq_at s i) ps).
Proof.
  intros Hlen. apply NoDup_alt. intros i j x Hi Hj.
  rewrite list_lookup_imap in Hi, Hj.
  destruct (ps !! i) as [pi|] eqn:Hpi; [|done].
  destruct (ps !! j) as [pj|] eqn:Hpj; [|done].
  simpl in *. injection Hi as Hi. injection Hj as Hj.
  apply lookup_lt_Some in Hpi, Hpj.
  destruct (decide (i = j)) as [|Hne]; [done|exfalso].
  destruct (decide (i < j)%nat).
  - apply (seq_at_ne s i j); [done|lia|congruence].
  - apply (seq_at_ne s j i); [lia|lia|congruence].
Qed.

(** C8.  Calls enqueued one after the other on a client that is up, fewer
    than 2^64 of them: the i-th is given the counter plus i (modulo 2^64),
    all these numbers differ, each call sits in the pending table under its
    number, and when the numbers were free before, the table has grown by
    the number of calls.  Every enqueue takes and releases the state lock. *)
Theorem addCall_sequence_numbers_distinct w ps :
  mu (client w) = false →
  closing (client w) = false →
  shutdown (client w) = false →
  (∀ p, p ∈ ps → is_Some (calls w !! p)) →
  (seq (client w) < 2 ^ 64)%N →
  (N.of_nat (length ps) ≤ 2 ^ 64)%N →
  ∃ w',
    addCalls ps w = Some (imap (λ i _, (seq_at (seq (client w)) i, None)) ps, w')
    ∧ NoDup (imap (λ i _, seq_at (seq (client w)) i) ps)
    ∧ (∀ i p, ps !! i = Some p → pending (client w') !! seq_at (seq (client w)) i = Some p)
    ∧ (NoDup ps → ∀ i p, ps !! i = Some p →
         ∃ k, calls w !! p = Some k
              ∧ calls w' !! p = Some (Call_set_Seq (seq_at (seq (client w)) i) k))
    ∧ ((∀ i, (i < length ps)%nat → pending (client w) !! seq_at (seq (client w)) i = None) →
       size (pending (client w')) = (size (pending (client w)) + length ps)%nat)
    ∧ seq (client w') = seq_at (seq (client w)) (length ps)
    ∧ trace w' = trace w ++ concat (replicate (length ps) [EvLock Mu; EvUnlock Mu]).
Proof.
  intros Hmu Hcl Hsh Hal Hs Hlen.
  destruct (addCalls_run ps w Hmu Hcl Hsh Hal Hs Hlen)
    as (w' & Hrun & Hseq & Hin & Hout & Hcalls & Hnd & Htr & _).
  pose proof (seq_window_NoDup (seq (client w)) ps Hlen) as Hwin.
  exists w'. repeat split; try done.
  intros Hfree.
  set (win := imap (λ i _, seq_at (seq (client w)) i) ps) in *.
  assert (Hdom : dom (pending (client w')) = dom (pending (client w)) ∪ list_to_set win).
  { apply set_eq. intros s. rewrite elem_of_union, elem_of_list_to_set, !elem_of_dom.
    destruct (decide (s ∈ win)) as [Hsw|Hsw].
    - split; [by right|intros _].
      apply elem_of_lookup_imap in Hsw as (i & p & -> & Hp). rewrite (Hin _ _ Hp). eauto.
    - rewrite Hout; [split; [by left|by intros [|]]|].
      intros i Hi ->. apply Hsw. apply elem_of_lookup_imap.
      destruct (lookup_lt_is_Some_2 ps i Hi) as [p Hp]. eauto. }
  rewrite <- !size_dom, Hdom, size_union.
  - rewrite size_list_to_set by done. subst win. by rewrite length_imap.
  - intros s Hs1 Hs2. apply elem_of_list_to_set, elem_of_lookup_imap in Hs2 as (i & p & -> & Hp).
    apply elem_of_dom in Hs1 as [q Hq]. apply lookup_lt_Some in Hp.
    rewrite Hfree in Hq by done. done.
Qed.

End client_enqueue.

Section client_receive.
Context {C : Type} `{!codec.Codec C}.
Implicit Types (w : World C) (c : Client C) (p : ptr) (k : Call).

Lemma receive_turn_header_error w e cc1 :
  codec.ReadHeader (cc (client w)) = (inl e, cc1) →
  receive_turn w =
    Some (Some e, mkWorld (set_cc cc1 (client w)) (calls w) (trace w ++ [EvReadHeader (inl e)])).
Proof.
  destruct w as [[] ks tr]; simpl. intros Hh.
  unfold receive_turn, cc_ReadHeader. unfold_M. simpl. rewrite Hh. reflexivity.
Qed.

Lemma receive_turn_unmatched w h cc1 r cc2 :
  mu (client w) = false →
  codec.ReadHeader (cc (client w)) = (inr h, cc1) →
  pending (client w) !! codec.Seq h = None →
  codec.ReadBody reflect.Nil cc1 = (r, cc2) →
  receive_turn w =
    Some (fst r,
          mkWorld (set_cc cc2 (client w)) (calls w)
                  (trace w ++ [EvReadHeader (inr h); EvLock Mu; EvUnlock Mu;
                               EvReadBody reflect.Nil r])).
Proof.
  destruct w as [[] ks tr]; simpl. intros -> Hh Hp Hb.
  unfold receive_turn, removeCall, cc_ReadHeader, cc_ReadBody. unfold_M. simpl.
  rewrite Hh. simpl. rewrite Hp. cbn. rewrite Hb. destruct r as [e v]. simpl.
  rewrite delete_id by done. rewrite <- !app_assoc. reflexivity.
Qed.

Lemma receive_turn_error_response w h cc1 p k r cc2 :
  mu (client w) = false →
  codec.ReadHeader (cc (client w)) = (inr h, cc1) →
  pending (client w) !! codec.Seq h = Some p →
  calls w !! p = Some k →
  codec.Error h ≠ "" →
  codec.ReadBody reflect.Nil cc1 = (r, cc2) →
  receive_turn w =
    Some (fst r,
          mkWorld (set_cc cc2 (set_pending (delete (codec.Seq h) (pending (client w))) (client w)))
                  (<[p := Call_set_Error (codec.Error h) k]> (calls w))
                  (trace w ++ [EvReadHeader (inr h); EvLock Mu; EvUnlock Mu;
                               EvReadBody reflect.Nil r; EvDone (Done k) p])).
Proof.
  destruct w as [[] ks tr]; simpl. intros -> Hh Hp Hk He Hb.
  unfold receive_turn, removeCall, cc_ReadHeader, cc_ReadBody. unfold_M. simpl.
  rewrite Hh. simpl. rewrite Hp. rewrite decide_True by done. simpl.
  rewrite Hk. cbn. rewrite Hb. destruct r as [e v]. simpl.
  rewrite lookup_insert_eq. simpl. rewrite <- !app_assoc. reflexivity.
Qed.

Lemma receive_turn_reply w h cc1 p k r cc2 :
  mu (client w) = false →
  codec.ReadHeader (cc (client w)) = (inr h, cc1) →
  pending (client w) !! codec.Seq h = Some p →
  calls w !! p = Some k →
  codec.Error h = "" →
  codec.ReadBody (Reply k) cc1 = (r, cc2) →
  receive_turn w =
    Some (fst r,
          mkWorld (set_cc cc2 (set_pending (delete (codec.Seq h) (pending (client w))) (client w)))
                  (<[p := match fst r with
                          | Some e => Call_set_Error ("reading body error: " +:+ e)
                                        (Call_set_Reply (snd r) k)
                          | None => Call_set_Reply (snd r) k
                          end]> (calls w))
                  (trace w ++ [EvReadHeader (inr h); EvLock Mu; EvUnlock Mu;
                               EvReadBody (Reply k) r; EvDone (Done k) p])).
Proof.
  destruct w as [[] ks tr]; simpl. intros -> Hh Hp Hk He Hb.
  unfold receive_turn, removeCall, cc_ReadHeader, cc_ReadBody. unfold_M. simpl.
  rewrite Hh. simpl. rewrite Hp. rewrite decide_False by (rewrite He; auto). simpl.
  rewrite Hk. cbn. rewrite Hb. destruct r as [[e|] v]; simpl.
  - do 4 (rewrite ?Hk, ?lookup_insert_eq; cbn).
    rewrite !insert_insert_eq, <- !app_assoc. reflexivity.
  - do 4 (rewrite ?Hk, ?lookup_insert_eq; cbn).
    rewrite <- !app_assoc. reflexivity.
Qed.

(** C5.  What one turn of the receive loop does with a header it has read.
    No pending call under the number: the body is read with a nil target,
    no call changes and nothing is signalled.  A call under the number and
    an error text in the header: the text becomes the error of the call, the
    body is read with a nil target, the call is signalled.  A call and no
    error text: the body is read into the reply of the call, a failure to
    read it becomes the error of the call (after "reading body error: "),
    and the call is signalled in both cases.  The call found is taken out of
    the table; the turn returns the result of reading the body.  The call
    is given field by field: only [Error] and [Reply] change, and [Error]
    keeps its value when the body is read without a failure. *)
Theorem receive_turn_dispatch w h cc1 :
  mu (client w) = false →
  codec.ReadHeader (cc (client w)) = (inr h, cc1) →
  (pending (client w) !! codec.Seq h = None →
   ∀ r cc2, codec.ReadBody reflect.Nil cc1 = (r, cc2) →
   ∃ w', receive_turn w = Some (fst r, w')
     ∧ calls w' = calls w
     ∧ pending (client w') = pending (client w)
     ∧ cc (client w') = cc2
     ∧ trace w' = trace w ++ [EvReadHeader (inr h); EvLock Mu; EvUnlock Mu;
                              EvReadBody reflect.Nil r])
  ∧ (∀ p k, pending (client w) !! codec.Seq h = Some p → calls w !! p = Some k →
     (codec.Error h ≠ "" →
      ∀ r cc2, codec.ReadBody reflect.Nil cc1 = (r, cc2) →
      ∃ w', receive_turn w = Some (fst r, w')
        ∧ calls w' = <[p := mkCall (Name k) (Args k) (Seq k) (Some (codec.Error h))
                                   (Reply k) (Done k)]> (calls w)
        ∧ pending (client w') = delete (codec.Seq h) (pending (client w))
        ∧ cc (client w') = cc2
        ∧ trace w' = trace w ++ [EvReadHeader (inr h); EvLock Mu; EvUnlock Mu;
                                 EvReadBody reflect.Nil r; EvDone (Done k) p])
     ∧ (codec.Error h = "" →
        ∀ r cc2, codec.ReadBody (Reply k) cc1 = (r, cc2) →
        ∃ w', receive_turn w = Some (fst r, w')
          ∧ calls w' = <[p := mkCall (Name k) (Args k) (Seq k)
                                   (match fst r with
                                    | Some e => Some ("reading body error: " +:+ e)
                                    | None => Error k
                                    end)
                                   (snd r) (Done k)]> (calls w)
          ∧ pending (client w') = delete (codec.Seq h) (pending (client w))
          ∧ cc (client w') = cc2
          ∧ trace w' = trace w ++ [EvReadHeader (inr h); EvLock Mu; EvUnlock Mu;
                                   EvReadBody (Reply k) r; EvDone (Done k) p])).
Proof.
  intros Hmu Hh. split; [|intros p k Hp Hk; split].
  - intros Hp r cc2 Hb. eexists. split; [by eapply receive_turn_unmatched|].
    by destruct w as [[] ? ?].
  - intros He r cc2 Hb. eexists. split; [by eapply receive_turn_error_response|].
    by destruct w as [[] ? ?].
  - intros He r cc2 Hb. eexists. split; [by eapply receive_turn_reply|].
    destruct w as [[] ? ?]. by destruct r as [[e|] v].
Qed.

Lemma pending_allocated_delete w c' ks' tr' s :
  pending_allocated w →
  pending c' = delete s (pending (client w)) →
  (∀ q, is_Some (calls w !! q) → is_Some (ks' !! q)) →
  pending_allocated (mkWorld c' ks' tr').
Proof.
  intros Hwf Hp Hks s' p. simpl. rewrite Hp. intros Hl.
  apply lookup_delete_Some in Hl as [_ Hl]. eauto.
Qed.

(** A turn of the loop always comes to its end, with the locks released and
    the pending table still pointing at calls. *)
Lemma receive_turn_total w :
  mu (client w) = false →
  pending_allocated w →
  ∃ r w', receive_turn w = Some (r, w')
    ∧ mu (client w') = false
    ∧ sending (client w') = sending (client w)
    ∧ pending_allocated w'.
Proof.
  intros Hmu Hwf.
  destruct (codec.ReadHeader (cc (client w))) as [[e|h] cc1] eqn:Hh.
  { eexists _, _. split; [by eapply receive_turn_header_error|].
    destruct w as [[] ? ?]; simpl in *. repeat split; try done. }
  destruct (pending (client w) !! codec.Seq h) as [p|] eqn:Hp.
  - destruct (Hwf _ _ Hp) as [k Hk].
    destruct (decide (codec.Error h = "")) as [He|He].
    + destruct (codec.ReadBody (Reply k) cc1) as [r cc2] eqn:Hb.
      eexists _, _. split; [by eapply receive_turn_reply|].
      split; [by destruct w as [[] ? ?]|]. split; [by destruct w as [[] ? ?]|].
      eapply pending_allocated_delete; [done|by destruct w as [[] ? ?]|].
      intros q Hq. apply lookup_insert_is_Some'. by right.
    + destruct (codec.ReadBody reflect.Nil cc1) as [r cc2] eqn:Hb.
      eexists _, _. split; [by eapply receive_turn_error_response|].
      split; [by destruct w as [[] ? ?]|]. split; [by destruct w as [[] ? ?]|].
      eapply pending_allocated_delete; [done|by destruct w as [[] ? ?]|].
      intros q Hq. apply lookup_insert_is_Some'. by right.
  - destruct (codec.ReadBody reflect.Nil cc1) as [r cc2] eqn:Hb.
    eexists _, _. split; [by eapply receive_turn_unmatched|].
    split; [by destruct w as [[] ? ?]|]. split; [by destruct w as [[] ? ?]|].
    intros s p. destruct w as [[] ? ?]; simpl in *. apply Hwf.
Qed.


End client_receive.

Section client_terminate.
Context {C : Type} `{!codec.Codec C}.
Implicit Types (w : World C) (c : Client C) (p : ptr) (k : Call).

Lemma withLock_run {A} m (body : M (World C) A) w a w1 :
  held m (client w) = false →
  body (lock_world m w) = Some (a, w1) →
  held m (client w1) = true →
  withLock m body w = Some (a, unlock_world m w1).
Proof.
  intros Hfree Hbody Hheld. unfold withLock, Lock, Unlock. unfold_M.
  cbn. rewrite Hfree. cbn. fold (lock_world m w). rewrite Hbody. cbn.
  rewrite Hheld. reflexivity.
Qed.

Lemma bind_run {S A B} (m : M S A) (f : A → M S B) s a s' :
  m s = Some (a, s') → (m ≫= f) s = f a s'.
Proof. intros Hm. unfold mbind, M_bind. by rewrite Hm. Qed.

Lemma forEach_cons_run {S A} (body : A → M S unit) x xs s s1 r :
  body x s = Some (tt, s1) → forEach body xs s1 = r → forEach body (x :: xs) s = r.
Proof. intros Hx Hxs. cbn [forEach]. by rewrite (bind_run _ _ _ _ _ Hx). Qed.

Lemma signal_insert ks p k f q :
  ks !! p = Some k → Done (f k) = Done k →
  signal (<[p := f k]> ks) q = signal ks q.
Proof.
  intros Hk Hd. unfold signal. destruct (decide (p = q)) as [<-|Hne].
  - by rewrite lookup_insert_eq, Hk, Hd.
  - by rewrite lookup_insert_ne.
Qed.

Lemma settle_all_run err ps : ∀ w,
  (∀ p, p ∈ ps → is_Some (calls w !! p)) →
  ∃ w',
    forEach (λ call, store call (Call_set_Error err);; done call) ps w = Some (tt, w')
    ∧ client w' = client w
    ∧ (∀ p k, p ∈ ps → calls w !! p = Some k → calls w' !! p = Some (Call_set_Error err k))
    ∧ (∀ q, q ∉ ps → calls w' !! q = calls w !! q)
    ∧ trace w' = trace w ++ (ps ≫= signal (calls w)).
Proof.
  induction ps as [|p ps IH]; intros w Hal.
  - exists w. simpl. rewrite app_nil_r. repeat split; try done.
    intros p k Hp. by apply elem_of_nil in Hp.
  - destruct (Hal p) as [k Hk]; [left|].
    set (w1 := mkWorld (client w) (<[p := Call_set_Error err k]> (calls w))
                       (trace w ++ [EvDone (Done k) p])).
    assert (Hstep : (store p (Call_set_Error err);; done p) w = Some (tt, w1)).
    { unfold_M. rewrite Hk. cbn. rewrite lookup_insert_eq. reflexivity. }
    destruct (IH w1) as (w' & Hrun & Hc & Hin & Hout & Htr).
    { intros q Hq. subst w1; cbn. apply lookup_insert_is_Some'. right. apply Hal. by right. }
    exists w'. split.
    { eapply forEach_cons_run; [exact Hstep|exact Hrun]. }
    split; [by rewrite Hc|]. split; [|split].
    + intros q kq Hq Hkq. destruct (decide (q ∈ ps)) as [Hqps|Hqps].
      * destruct (decide (q = p)) as [->|Hne].
        -- assert (kq = k) as -> by congruence.
           rewrite (Hin p (Call_set_Error err k)); [done|done|].
           subst w1; cbn. apply lookup_insert_eq.
        -- apply Hin; [done|]. subst w1; cbn. by rewrite lookup_insert_ne.
      * apply elem_of_cons in Hq as [->|]; [|done].
        assert (kq = k) as -> by congruence.
        rewrite Hout by done. subst w1; cbn. apply lookup_insert_eq.
    + intros q Hq. apply not_elem_of_cons in Hq as [Hne Hq].
      rewrite Hout by done. subst w1; cbn. by rewrite lookup_insert_ne.
    + rewrite Htr. subst w1; cbn [trace calls]. rewrite <- app_assoc. f_equal.
      cbn. unfold signal at 2. rewrite Hk. cbn. f_equal.
      apply list_bind_ext; [|done]. intros q. by apply signal_insert.
Qed.

Lemma terminateCalls_run w err :
  mu (client w) = false →
  sending (client w) = false →
  pending_allocated w →
  ∃ w',
    terminateCalls err w = Some (tt, w')
    ∧ client w' = set_shutdown true (client w)
    ∧ (∀ s p, pending (client w) !! s = Some p →
         ∃ k, calls w !! p = Some k ∧ calls w' !! p = Some (Call_set_Error err k))
    ∧ (∀ q, (∀ s, pending (client w) !! s ≠ Some q) → calls w' !! q = calls w !! q)
    ∧ trace w' = trace w ++ [EvLock Mu; EvLock Sending]
                   ++ ((map_to_list (pending (client w))).*2 ≫= signal (calls w))
                   ++ [EvUnlock Sending; EvUnlock Mu].
Proof.
  intros Hmu Hsd Hwf.
  set (ps := (map_to_list (pending (client w))).*2).
  assert (Hps : ∀ p, p ∈ ps ↔ ∃ s, pending (client w) !! s = Some p).
  { intros p. subst ps. rewrite list_elem_of_fmap. split.
    - intros ([s q] & -> & Hin). exists s. by apply elem_of_map_to_list.
    - intros [s Hs]. exists (s, p). split; [done|]. by apply elem_of_map_to_list. }
  set (w0 := mkWorld (set_shutdown true (set_held Sending true (set_held Mu true (client w))))
                     (calls w) (trace w ++ [EvLock Mu; EvLock Sending])).
  destruct (settle_all_run err ps w0) as (w1 & Hrun & Hc & Hin & Hout & Htr).
  { intros p [s Hs]%Hps. subst w0; cbn. by eapply Hwf. }
  exists (unlock_world Mu (unlock_world Sending w1)). split.
  { unfold terminateCalls. apply withLock_run; [done| |].
    - apply withLock_run.
      + by destruct w as [[] ? ?].
      + unfold mbind, M_bind, modifyC, modify, getC. cbn.
        replace (pending (client w)) with (pending (set_held Sending true (set_held Mu true (client w))))
          in ps, Hrun by (by destruct w as [[] ? ?]).
        rewrite <- Hrun. f_equal. subst w0. unfold lock_world. cbn.
        by rewrite <- app_assoc.
      + rewrite Hc. subst w0. by destruct w as [[] ? ?].
    - cbn. rewrite Hc. subst w0. by destruct w as [[] ? ?]. }
  split.
  { cbn. rewrite Hc. subst w0. destruct w as [[] ? ?]; cbn in *. by subst. }
  split.
  { intros s p Hs. destruct (Hwf _ _ Hs) as [k Hk]. exists k. split; [done|].
    cbn. apply Hin; [apply Hps; eauto|done]. }
  split.
  { intros q Hq. cbn. rewrite Hout; [done|]. intros [s Hs]%Hps. by eapply Hq. }
  cbn. rewrite Htr. subst w0. cbn. by rewrite <- !app_assoc.
Qed.



End client_terminate.


(** ** The client, run on the script codec *)

Lemma script_ReadHeader_consumes c hd c1 :
  script.ReadHeader c = (inr hd, c1) →
  (length (script.incoming c1) < length (script.incoming c))%nat.
Proof.
  unfold script.ReadHeader. destruct c as [[|[]] ws cl]; cbn; intros [= _ <-]; cbn; lia.
Qed.

Lemma script_ReadBody_consumes target c r c1 :
  script.ReadBody target c = (r, c1) →
  (length (script.incoming c1) ≤ length (script.incoming c))%nat.
Proof.
  unfold script.ReadBody. destruct c as [[|[]] ws cl]; cbn; try destruct target;
    intros [= _ <-]; cbn; lia.
Qed.

(** A turn that goes on to the next has taken a message off the script. *)
Lemma receive_turn_script_consumes (w w' : World script.Codec) :
  mu (client w) = false →
  pending_allocated w →
  receive_turn w = Some (None, w') →
  (length (script.incoming (cc (client w'))) < length (script.incoming (cc (client w))))%nat.
Proof.
  intros Hmu Hwf.
  destruct (codec.ReadHeader (cc (client w))) as [[e|hd] cc1] eqn:Hh.
  { by rewrite (receive_turn_header_error _ _ _ Hh). }
  pose proof (script_ReadHeader_consumes _ _ _ Hh) as Hlt.
  destruct (pending (client w) !! codec.Seq hd) as [p|] eqn:Hp.
  - destruct (Hwf _ _ Hp) as [k Hk].
    destruct (decide (codec.Error hd = "")) as [He|He].
    + destruct (codec.ReadBody (Reply k) cc1) as [r cc2] eqn:Hb.
      rewrite (receive_turn_reply _ _ _ _ _ _ _ Hmu Hh Hp Hk He Hb).
      intros [= _ <-]. apply script_ReadBody_consumes in Hb.
      destruct w as [[] ? ?]; cbn in *. lia.
    + destruct (codec.ReadBody reflect.Nil cc1) as [r cc2] eqn:Hb.
      rewrite (receive_turn_error_response _ _ _ _ _ _ _ Hmu Hh Hp Hk He Hb).
      intros [= _ <-]. apply script_ReadBody_consumes in Hb.
      destruct w as [[] ? ?]; cbn in *. lia.
  - destruct (codec.ReadBody reflect.Nil cc1) as [r cc2] eqn:Hb.
    rewrite (receive_turn_unmatched _ _ _ _ _ Hmu Hh Hp Hb).
    intros [= _ <-]. apply script_ReadBody_consumes in Hb.
    destruct w as [[] ? ?]; cbn in *. lia.
Qed.

(** On a stream that ends, the receive loop ends: one turn more than there
    are messages is fuel enough. *)
Lemma receive_loop_script_exits n : ∀ w : World script.Codec,
  (length (script.incoming (cc (client w))) ≤ n)%nat →
  mu (client w) = false →
  pending_allocated w →
  ∃ err w1, receive_loop (S n) w = Some (err, w1).
Proof.
  induction n as [|n IH]; intros w Hlen Hmu Hwf;
    destruct (receive_turn_total w Hmu Hwf) as (r & w' & Hturn & Hmu' & _ & Hwf');
    cbn [receive_loop]; rewrite (bind_run _ _ _ _ _ Hturn);
    destruct r as [e|]; try by eauto.
  - apply receive_turn_script_consumes in Hturn; [lia|done|done].
  - apply IH; [|done|done].
    apply receive_turn_script_consumes in Hturn; [lia|done|done].
Qed.


Lemma removeCall_idempotent_witness :
  ∃ w1 w2,
    removeCall 1%N (world_pending []) = Some (Some 1%positive, w1)
    ∧ pending (client w1) !! 1%N = None
    ∧ pending (client w1) !! 2%N = Some 2%positive
    ∧ removeCall 1%N w1 = Some (None, w2)
    ∧ pending (client w2) = pending (client w1)
    ∧ calls w2 = calls (world_pending []).
Proof.
  destruct (removeCall_idempotent (world_pending []) 1%N eq_refl)
    as (w1 & w2 & H1 & _ & H3 & H4 & _ & H6 & H7 & H8 & _).
  exists w1, w2. split; [exact H1|]. split; [exact H3|].
  split; [rewrite H4 by done; reflexivity|]. split; [exact H6|]. split; [exact H7|exact H8].
Defined.


Lemma addCall_sequence_numbers_distinct_witness :
  ∃ w',
    addCalls [1; 2; 3]%positive (world_fresh [])
      = Some ([(1%N, None); (2%N, None); (3%N, None)], w')
    ∧ NoDup [1%N; 2%N; 3%N]
    ∧ pending (client w') !! 2%N = Some 2%positive
    ∧ size (pending (client w')) = 3%nat
    ∧ seq (client w') = 4%N.
Proof.
  destruct (addCall_sequence_numbers_distinct (world_fresh []) [1; 2; 3]%positive)
    as (w' & Hrun & Hnd & Hin & _ & Hsize & Hseq & _).
  - reflexivity.
  - reflexivity.
  - reflexivity.
  - intros p Hp. apply list_elem_of_In in Hp. simpl in Hp.
    destruct Hp as [<-|[<-|[<-|[]]]]; eexists; vm_compute; reflexivity.
  - reflexivity.
  - discriminate.
  - exists w'. split; [exact Hrun|]. split; [exact Hnd|].
    split; [exact (Hin 1%nat 2%positive eq_refl)|].
    split; [apply Hsize; intros i _; reflexivity|exact Hseq].
Defined.

Lemma receive_turn_dispatch_witness :
  let unmatched := world_pending [script.Hdr (codec.mkHeader 9 "Arith.Add" "");
                                  script.Body (reflect.Int 3)] in
  let failed := world_pending [script.Hdr (codec.mkHeader 1 "Arith.Add" "boom");
                               script.Body invalidRequest] in
  let replied := world_pending [script.Hdr (codec.mkHeader 2 "Arith.Add" "");
                                script.Body (reflect.Int 3)] in
  let garbled := world_pending [script.Hdr (codec.mkHeader 2 "Arith.Add" "");
                                script.Broken "unexpected EOF"] in
  (∃ w', receive_turn unmatched = Some (None, w')
     ∧ calls w' = calls unmatched
     ∧ trace w' = [EvReadHeader (inr (codec.mkHeader 9 "Arith.Add" "")); EvLock Mu; EvUnlock Mu;
                   EvReadBody reflect.Nil (None, reflect.Nil)])
  ∧ (∃ w', receive_turn failed = Some (None, w')
       ∧ calls w' !! 1%positive
         = Some (mkCall "Arith.Add" (mkArgs 1 2) 1 (Some "boom")
                        (reflect.Ref (reflect.Int 0)) 11)
       ∧ trace w' = [EvReadHeader (inr (codec.mkHeader 1 "Arith.Add" "boom"));
                     EvLock Mu; EvUnlock Mu;
                     EvReadBody reflect.Nil (None, reflect.Nil); EvDone 11 1])
  ∧ (∃ w', receive_turn replied = Some (None, w')
       ∧ calls w' !! 2%positive
         = Some (mkCall "Arith.Add" (mkArgs 1 2) 2 None (reflect.Ref (reflect.Int 3)) 12)
       ∧ trace w' = [EvReadHeader (inr (codec.mkHeader 2 "Arith.Add" ""));
                     EvLock Mu; EvUnlock Mu;
                     EvReadBody (reflect.Ref (reflect.Int 0)) (None, reflect.Ref (reflect.Int 3));
                     EvDone 12 2])
  ∧ (∃ w', receive_turn garbled = Some (Some "unexpected EOF", w')
       ∧ calls w' !! 2%positive
         = Some (mkCall "Arith.Add" (mkArgs 1 2) 2 (Some "reading body error: unexpected EOF")
                        (reflect.Ref (reflect.Int 0)) 12)
       ∧ trace w' = [EvReadHeader (inr (codec.mkHeader 2 "Arith.Add" ""));
                     EvLock Mu; EvUnlock Mu;
                     EvReadBody (reflect.Ref (reflect.Int 0))
                                (Some "unexpected EOF", reflect.Ref (reflect.Int 0));
                     EvDone 12 2]).
Proof.
  intros unmatched failed replied garbled. split; [|split; [|split]].
  4: { destruct (receive_turn_dispatch garbled (codec.mkHeader 2 "Arith.Add" "")
                   (script.mk [script.Broken "unexpected EOF"] [] false)) as [_ H];
         [reflexivity|reflexivity|].
       destruct (H 2%positive (Call_set_Seq 2 (call_Add 12))) as [_ Hr];
         [reflexivity|reflexivity|].
       destruct (Hr eq_refl (Some "unexpected EOF", reflect.Ref (reflect.Int 0))
                   (script.mk [] [] false))
         as (w' & Hrun & Hcalls & _ & _ & Htr); [reflexivity|].
       exists w'. split; [exact Hrun|]. split; [rewrite Hcalls; reflexivity|exact Htr]. }
  - destruct (receive_turn_dispatch unmatched (codec.mkHeader 9 "Arith.Add" "")
                (script.mk [script.Body (reflect.Int 3)] [] false)) as [H _];
      [reflexivity|reflexivity|].
    destruct (H eq_refl (None, reflect.Nil) (script.mk [] [] false))
      as (w' & Hrun & Hcalls & _ & _ & Htr); [reflexivity|].
    exists w'. split; [exact Hrun|]. split; [exact Hcalls|exact Htr].
  - destruct (receive_turn_dispatch failed (codec.mkHeader 1 "Arith.Add" "boom")
                (script.mk [script.Body invalidRequest] [] false)) as [_ H];
      [reflexivity|reflexivity|].
    destruct (H 1%positive (Call_set_Seq 1 (call_Add 11))) as [He _];
      [reflexivity|reflexivity|].
    destruct (He ltac:(discriminate) (None, reflect.Nil) (script.mk [] [] false))
      as (w' & Hrun & Hcalls & _ & _ & Htr); [reflexivity|].
    exists w'. split; [exact Hrun|]. split; [rewrite Hcalls; reflexivity|exact Htr].
  - destruct (receive_turn_dispatch replied (codec.mkHeader 2 "Arith.Add" "")
                (script.mk [script.Body (reflect.Int 3)] [] false)) as [_ H];
      [reflexivity|reflexivity|].
    destruct (H 2%positive (Call_set_Seq 2 (call_Add 12))) as [_ Hr];
      [reflexivity|reflexivity|].
    destruct (Hr eq_refl (None, reflect.Ref (reflect.Int 3)) (script.mk [] [] false))
      as (w' & Hrun & Hcalls & _ & _ & Htr); [reflexivity|].
    exists w'. split; [exact Hrun|]. split; [rewrite Hcalls; reflexivity|exact Htr].
Defined.



(** ** The handshake *)

Lemma to_N_byte_of v : Byte.to_N (binary.byte_of v) = N.land v 255.
Proof.
  unfold binary.byte_of.
  destruct (Byte.of_N (N.land v 255)) as [b|] eqn:E; simpl.
  - by apply Byte.to_of_N.
  - apply Byte.of_N_None_iff in E.
    assert (Hland : N.land v 255 = (v mod 256)%N) by apply (N.land_ones v 8).
    assert (v mod 256 < 256)%N by (apply N.mod_lt; lia). lia.
Qed.

Lemma byte_of_to_N b : binary.byte_of (Byte.to_N b) = b.
Proof.
  unfold binary.byte_of. change 255%N with (N.ones 8). rewrite N.land_ones.
  rewrite N.mod_small.
  - by rewrite Byte.of_to_N.
  - pose proof (Byte.to_N_bounded b). change (2 ^ 8)%N with 256%N. lia.
Qed.

Lemma to_N_high b n : (8 ≤ n)%N → N.testbit (Byte.to_N b) n = false.
Proof.
  intros Hn. rewrite <- (byte_of_to_N b), to_N_byte_of.
  change 255%N with (N.ones 8). rewrite N.land_spec, N.ones_spec_high by done.
  apply andb_false_r.
Qed.

Ltac bits n :=
  apply N.bits_inj; intros n;
  repeat first
    [ rewrite N.lor_spec | rewrite N.land_spec | rewrite N.shiftr_spec' ].

Lemma be32_decode (b0 b1 b2 b3 : byte) n :
  N.testbit (N.lor (N.lor (N.lor (Byte.to_N b3) (N.shiftl (Byte.to_N b2) 8))
                         (N.shiftl (Byte.to_N b1) 16))
                  (N.shiftl (Byte.to_N b0) 24)) n =
  if (n <? 8)%N then N.testbit (Byte.to_N b3) n
  else if (n <? 16)%N then N.testbit (Byte.to_N b2) (n - 8)
  else if (n <? 24)%N then N.testbit (Byte.to_N b1) (n - 16)
  else N.testbit (Byte.to_N b0) (n - 24).
Proof.
  rewrite !N.lor_spec.
  destruct (N.ltb_spec n 8).
  { rewrite !N.shiftl_spec_low by lia. by rewrite !orb_false_r. }
  rewrite (to_N_high b3) by done.
  destruct (N.ltb_spec n 16).
  { rewrite N.shiftl_spec_high' by done. rewrite !N.shiftl_spec_low by lia.
    by rewrite !orb_false_r. }
  rewrite (N.shiftl_spec_high' _ 8) by lia. rewrite (to_N_high b2) by lia.
  destruct (N.ltb_spec n 24).
  { rewrite N.shiftl_spec_high' by done. rewrite !N.shiftl_spec_low by lia.
    by rewrite !orb_false_r. }
  rewrite (N.shiftl_spec_high' _ 16) by lia. rewrite (to_N_high b1) by lia.
  rewrite N.shiftl_spec_high' by done. done.
Qed.

Lemma Uint32_PutUint32 v (b : list byte) :
  length b = 4%nat → binary.Uint32 (binary.PutUint32 0 v b) = Some (binary.uint32 v).
Proof.
  destruct b as [|x0 [|x1 [|x2 [|x3 [|]]]]]; try done. intros _.
  cbn. f_equal. apply N.bits_inj. intros n. rewrite be32_decode.
  rewrite !to_N_byte_of. unfold binary.uint32. change 255%N with (N.ones 8).
  rewrite !N.land_spec, !N.shiftr_spec'.
  destruct (N.ltb_spec n 8).
  { rewrite !N.ones_spec_low by lia. done. }
  destruct (N.ltb_spec n 16).
  { rewrite !N.ones_spec_low by lia. rewrite N.sub_add by done. done. }
  destruct (N.ltb_spec n 24).
  { rewrite !N.ones_spec_low by lia. rewrite N.sub_add by lia. done. }
  rewrite N.sub_add by lia.
  destruct (decide (n < 32)%N).
  - rewrite !N.ones_spec_low by lia. done.
  - rewrite !N.ones_spec_high by lia. done.
Qed.

Lemma be32_decode_byte (b0 b1 b2 b3 : byte) n :
  (n < 8)%N →
  let v := N.lor (N.lor (N.lor (Byte.to_N b3) (N.shiftl (Byte.to_N b2) 8))
                        (N.shiftl (Byte.to_N b1) 16))
                 (N.shiftl (Byte.to_N b0) 24) in
  N.testbit v (n + 24) = N.testbit (Byte.to_N b0) n
  ∧ N.testbit v (n + 16) = N.testbit (Byte.to_N b1) n
  ∧ N.testbit v (n + 8) = N.testbit (Byte.to_N b2) n
  ∧ N.testbit v n = N.testbit (Byte.to_N b3) n.
Proof.
  intros Hn v. subst v. rewrite !be32_decode.
  repeat match goal with
         | |- context [(?a <? ?b)%N] => destruct (N.ltb_spec a b); try lia
         end.
  by rewrite !N.add_sub.
Qed.

Lemma byte_ext (x y : byte) :
  (∀ n, (n < 8)%N → N.testbit (Byte.to_N x) n = N.testbit (Byte.to_N y) n) → x = y.
Proof.
  intros Hxy. rewrite <- (byte_of_to_N x), <- (byte_of_to_N y). f_equal.
  apply N.bits_inj. intros n. destruct (decide (n < 8)%N); [by apply Hxy|].
  rewrite !to_N_high by lia. done.
Qed.

Lemma Uint32_inj (b0 b1 b2 b3 c0 c1 c2 c3 : byte) rest rest' :
  binary.Uint32 (b0 :: b1 :: b2 :: b3 :: rest) = binary.Uint32 (c0 :: c1 :: c2 :: c3 :: rest') →
  b0 = c0 ∧ b1 = c1 ∧ b2 = c2 ∧ b3 = c3.
Proof.
  cbn. intros [= Heq].
  repeat split; apply byte_ext; intros n Hn;
    destruct (be32_decode_byte b0 b1 b2 b3 n Hn) as (B0 & B1 & B2 & B3);
    destruct (be32_decode_byte c0 c1 c2 c3 n Hn) as (C0 & C1 & C2 & C3);
    cbn zeta in *; rewrite Heq in *; congruence.
Qed.

Lemma Uint32_be32 v rest : binary.Uint32 (be32 v ++ rest) = Some (binary.uint32 v).
Proof. exact (Uint32_PutUint32 v (replicate 4 "000"%byte) eq_refl). Qed.

Lemma be32_Magic : be32 Magic = ["Z"; "+"; "q"; "195"]%byte.
Proof. reflexivity. Qed.

Lemma NewClient_buf codecType :
  binary.PutUint32 4 codecType (binary.PutUint32 0 Magic (replicate 8 "000"%byte))
  = preamble codecType.
Proof. reflexivity. Qed.

(** C6.  [NewClient] with a tag that the registry does not know returns the
    invalid-codec error and leaves the connection untouched.  With a known
    tag it writes the preamble, eight bytes: the magic number and then the
    tag, each as four bytes, most significant first; when that write
    succeeds the client holds the codec made on the connection, counter 1
    and an empty pending table; when it fails the connection is closed and
    the error of the write is returned. *)
Theorem NewClient_handshake {C} (reg : gmap N (net.Conn → C)) conn codecType :
  length (preamble codecType) = 8%nat
  ∧ take 4 (preamble codecType) = ["Z"; "+"; "q"; "195"]%byte
  ∧ binary.Uint32 (take 4 (preamble codecType)) = Some 0x5a2b71c3%N
  ∧ binary.Uint32 (drop 4 (preamble codecType)) = Some (binary.uint32 codecType)
  ∧ (reg !! codecType = None →
     NewClient reg conn codecType
       = (inl ("invalid codec type " +:+ pretty codecType), conn))
  ∧ (∀ ncf, reg !! codecType = Some ncf →
     (∀ conn1, net.Write (preamble codecType) conn = (None, conn1) →
        net.wr conn1 = net.wr conn ++ preamble codecType
        ∧ NewClient reg conn codecType
            = (inr (mkClient (ncf conn1) (preamble codecType) false (codec.mkHeader 0 "" "")
                             false 1 ∅ false false), conn1))
     ∧ (∀ e conn1, net.Write (preamble codecType) conn = (Some e, conn1) →
          NewClient reg conn codecType = (inl e, snd (net.Close conn1))
          ∧ net.closed (snd (net.Close conn1)) = true
          ∧ net.wr (snd (net.Close conn1)) = net.wr conn)).
Proof.
  split; [reflexivity|]. split; [reflexivity|]. split; [reflexivity|].
  split; [exact (Uint32_be32 codecType [])|].
  split.
  { intros Hreg. unfold NewClient. by rewrite Hreg. }
  intros ncf Hreg. split.
  - intros conn1 Hw. split.
    + unfold net.Write in Hw. destruct (net.closed conn); [done|].
      destruct (net.wfail conn); [done|]. by injection Hw as <-.
    + unfold NewClient. rewrite Hreg, NewClient_buf, Hw. reflexivity.
  - intros e conn1 Hw. split.
    + unfold NewClient. rewrite Hreg, NewClient_buf, Hw. reflexivity.
    + unfold net.Write in Hw. unfold net.Close.
      destruct (net.closed conn) eqn:Hc.
      * injection Hw as _ <-. rewrite Hc. cbn. done.
      * destruct (net.wfail conn); [|done]. injection Hw as _ <-. rewrite Hc. cbn. done.
Qed.

Lemma NewClient_handshake_witness :
  let _ := Gob_sample in
  let up := net.mkConn [] [] None false in
  let broken := net.mkConn [] [] (Some "broken pipe") false in
  NewClient codec.NewCodecFuncMap_init up codec.JSONType = (inl "invalid codec type 1", up)
  ∧ (∃ client conn1,
       NewClient codec.NewCodecFuncMap_init up codec.GobType = (inr client, conn1)
       ∧ net.wr conn1 = ["Z"; "+"; "q"; "195"; "000"; "000"; "000"; "000"]%byte
       ∧ seq client = 1%N ∧ pending client = ∅)
  ∧ (∃ conn1,
       NewClient codec.NewCodecFuncMap_init broken codec.GobType = (inl "broken pipe", conn1)
       ∧ net.closed conn1 = true ∧ net.wr conn1 = []).
Proof.
  intros G up broken. split; [|split].
  - destruct (NewClient_handshake codec.NewCodecFuncMap_init up codec.JSONType)
      as (_ & _ & _ & _ & H & _).
    apply H. reflexivity.
  - destruct (NewClient_handshake codec.NewCodecFuncMap_init up codec.GobType)
      as (_ & _ & _ & _ & _ & H).
    destruct (H codec.NewGobCodec eq_refl) as [Hok _].
    destruct (Hok (net.mkConn [] (preamble codec.GobType) None false) eq_refl) as [Hwr Hrun].
    eexists _, _. split; [exact Hrun|]. split; [exact Hwr|]. split; reflexivity.
  - destruct (NewClient_handshake codec.NewCodecFuncMap_init broken codec.GobType)
      as (_ & _ & _ & _ & _ & H).
    destruct (H codec.NewGobCodec eq_refl) as [_ Hfail].
    destruct (Hfail "broken pipe" broken eq_refl) as (Hrun & Hcl & Hwr).
    eexists. split; [exact Hrun|]. split; [exact Hcl|exact Hwr].
Defined.

Section serve_conn.
Context {C : Type} `{!codec.Codec C}.

Lemma ReadFull_short conn :
  net.closed conn = false →
  (length (net.rd conn) < 8)%nat →
  ∃ e, net.ReadFull 8 conn
       = (inl e, net.mkConn [] (net.wr conn) (net.wfail conn) false).
Proof.
  intros Hc Hlen. unfold net.ReadFull. rewrite Hc.
  rewrite decide_False by lia. eauto.
Qed.

Lemma ReadFull_whole conn :
  net.closed conn = false →
  (8 ≤ length (net.rd conn))%nat →
  net.ReadFull 8 conn
  = (inr (take 8 (net.rd conn)),
     net.mkConn (drop 8 (net.rd conn)) (net.wr conn) (net.wfail conn) false).
Proof.
  intros Hc Hlen. unfold net.ReadFull. rewrite Hc.
  by rewrite decide_True by lia.
Qed.

Lemma eight_bytes (bs : list byte) :
  (8 ≤ length bs)%nat →
  ∃ b0 b1 b2 b3 b4 b5 b6 b7 rest, bs = b0 :: b1 :: b2 :: b3 :: b4 :: b5 :: b6 :: b7 :: rest.
Proof.
  do 8 (destruct bs as [|? bs]; [simpl; lia|]). intros _. by repeat eexists.
Qed.

Lemma Uint32_Magic_iff (bs : list byte) :
  (4 ≤ length bs)%nat →
  binary.Uint32 bs = Some Magic ↔ take 4 bs = be32 Magic.
Proof.
  do 4 (destruct bs as [|? bs]; [simpl; lia|]). intros _.
  assert (HM : binary.Uint32 (be32 Magic) = Some Magic) by reflexivity.
  rewrite <- HM. split.
  - intros Heq. unfold be32 in Heq.
    apply Uint32_inj in Heq as (-> & -> & -> & ->). reflexivity.
  - cbn [take]. unfold be32. intros [= -> -> -> ->]. reflexivity.
Qed.

(** C7.  [ServeConn] reads eight bytes.  When fewer arrive, when the first
    four are not the magic number, or when the registry has no constructor
    for the tag in the next four, the connection is closed and nothing has
    been written on it.  Otherwise exactly the eight bytes have been
    consumed, the codec is made on the connection and [serveCodec] runs. *)
Theorem ServeConn_handshake (reg : gmap N (net.Conn → C)) fuel s conn :
  net.closed conn = false →
  let dropped :=
    ∃ conn', ServeConn reg fuel s conn = Dropped conn'
             ∧ net.closed conn' = true ∧ net.wr conn' = net.wr conn in
  ((length (net.rd conn) < 8)%nat → dropped)
  ∧ ((8 ≤ length (net.rd conn))%nat →
     (take 4 (net.rd conn) ≠ be32 Magic → dropped)
     ∧ (∀ tag, binary.Uint32 (drop 4 (take 8 (net.rd conn))) = Some tag →
          reg !! tag = None → dropped)
     ∧ (∀ tag ncf, take 4 (net.rd conn) = be32 Magic →
          binary.Uint32 (drop 4 (take 8 (net.rd conn))) = Some tag →
          reg !! tag = Some ncf →
          ServeConn reg fuel s conn
          = Served (serveCodec fuel
                      (mkServing s (ncf (net.mkConn (drop 8 (net.rd conn)) (net.wr conn)
                                                    (net.wfail conn) false))
                                 false 0 [])))).
Proof.
  intros Hc dropped. split.
  - intros Hlen. destruct (ReadFull_short conn Hc Hlen) as [e Hr].
    unfold dropped, ServeConn. rewrite Hr. eexists. split; [reflexivity|]. done.
  - intros Hlen. pose proof (ReadFull_whole conn Hc Hlen) as Hr.
    destruct (eight_bytes _ Hlen) as (b0 & b1 & b2 & b3 & b4 & b5 & b6 & b7 & rest & Hrd).
    assert (Hmagic : binary.Uint32 (take 4 (take 8 (net.rd conn))) = Some Magic
                     ↔ take 4 (net.rd conn) = be32 Magic).
    { rewrite <- Uint32_Magic_iff by (rewrite Hrd; simpl; lia). by rewrite Hrd. }
    assert (Hdrop : ∀ conn0, net.closed conn0 = false → net.wr conn0 = net.wr conn →
              ∃ conn', @Dropped C (snd (net.Close conn0)) = Dropped conn'
                       ∧ net.closed conn' = true ∧ net.wr conn' = net.wr conn).
    { intros conn0 Hc0 Hw0. eexists. split; [reflexivity|].
      unfold net.Close. rewrite Hc0. done. }
    unfold dropped, ServeConn. rewrite Hr.
    destruct (binary.Uint32 (take 4 (take 8 (net.rd conn)))) as [num|] eqn:Hnum;
      [|by rewrite Hrd in Hnum].
    destruct (binary.Uint32 (drop 4 (take 8 (net.rd conn)))) as [codecType|] eqn:Htag;
      [|by rewrite Hrd in Htag].
    split; [|split].
    + intros Hne. rewrite decide_True; [by apply Hdrop|].
      intros ->. by apply Hne, Hmagic.
    + intros tag [= <-] Hreg. destruct (decide (num ≠ Magic)); [by apply Hdrop|].
      rewrite Hreg. by apply Hdrop.
    + intros tag ncf Hm [= <-] Hreg. rewrite decide_False, Hreg; [done|].
      intros Hne. apply Hne. apply Hmagic in Hm. congruence.
Qed.

End serve_conn.

(** ** The server *)

Ltac unfold_S :=
  unfold writeResponse, mu_Lock, mu_Unlock, wg_Add, wg_Done, wg_Wait, go,
    scc_ReadHeader, scc_ReadBody, scc_Write, scc_Close, set_scc, semit,
    get, modify, stuck, mbind, M_bind, mret, M_ret in *.

Section server_facts.
Context {C : Type} `{!codec.Codec C}.
Implicit Types (w : Serving C) (req : request).

Lemma call_run w sName mName m argv replyv :
  deref_method (server w) sName mName = Some m →
  ∃ srv',
    call sName mName argv replyv w
    = Some (method m argv replyv, mkServing srv' (scc w) (smu w) (wg w) (strace w)).
Proof.
  unfold deref_method, call. unfold_S.
  destruct (serviceMap (server w) !! sName) as [sv|]; [|done].
  intros ->. eauto.
Qed.

Lemma writeResponse_run w h body :
  smu w = false →
  writeResponse h body w
  = Some (tt, mkServing (server w) (snd (codec.Write h body (scc w))) false (wg w)
                (strace w ++ [EvLock (); EvWrite h body (fst (codec.Write h body (scc w)));
                              EvUnlock ()])).
Proof.
  destruct w as [srv cc0 m n tr]; cbn. intros ->. unfold_S. cbn.
  destruct (codec.Write h body cc0) as [r cc1]. cbn. by rewrite <- !app_assoc.
Qed.

(** The half of C2 that holds: a method that returns no error is answered
    by one response, the header of the request with the reply. *)
Lemma handleRequest_success w req m replyv' n :
  smu w = false →
  wg w = S n →
  deref_method (server w) (svc req) (mType req) = Some m →
  method m (argv req) (replyv req) = (replyv', None) →
  ∃ w', handleRequest req w = Some (tt, w')
    ∧ responses (strace w') = responses (strace w) ++ [(h req, replyv')]
    ∧ wg w' = n ∧ smu w' = false.
Proof.
  intros Hmu Hwg Hm Hcall. destruct (call_run w _ _ _ (argv req) (replyv req) Hm) as [srv' Hrun].
  unfold handleRequest. rewrite (bind_run _ _ _ _ _ Hrun), Hcall.
  set (w1 := mkServing srv' _ _ _ _).
  change ((mret (h req) ≫= λ h0, writeResponse h0 replyv' ≫= λ _, wg_Done) w1)
    with ((writeResponse (h req) replyv' ≫= λ _, wg_Done) w1).
  rewrite (bind_run _ _ _ _ _ (writeResponse_run w1 _ _ Hmu)).
  unfold wg_Done. unfold_S. cbn. rewrite Hwg. eexists. split; [reflexivity|].
  cbn. unfold responses. rewrite omap_app. done.
Qed.

(** The half of C2 that fails, for every request: a method that returns an
    error is answered by two responses, the error with the placeholder and
    then the error again with the reply. *)
Lemma handleRequest_error w req m replyv' e n :
  smu w = false →
  wg w = S n →
  deref_method (server w) (svc req) (mType req) = Some m →
  method m (argv req) (replyv req) = (replyv', Some e) →
  ∃ w', handleRequest req w = Some (tt, w')
    ∧ responses (strace w')
      = responses (strace w) ++ [(set_Error e (h req), invalidRequest);
                                 (set_Error e (h req), replyv')]
    ∧ wg w' = n ∧ smu w' = false.
Proof.
  intros Hmu Hwg Hm Hcall. destruct (call_run w _ _ _ (argv req) (replyv req) Hm) as [srv' Hrun].
  unfold handleRequest. rewrite (bind_run _ _ _ _ _ Hrun), Hcall.
  set (w1 := mkServing srv' _ _ _ _).
  pose proof (writeResponse_run w1 (set_Error e (h req)) invalidRequest Hmu) as Hw1.
  set (w2 := mkServing _ _ _ _ _) in Hw1.
  rewrite (bind_run _ _ _ _ _ (bind_run _ _ _ _ _ Hw1)).
  change ((mret (set_Error e (h req)) ≫= λ h0, writeResponse h0 replyv' ≫= λ _, wg_Done) w2)
    with ((writeResponse (set_Error e (h req)) replyv' ≫= λ _, wg_Done) w2).
  rewrite (bind_run _ _ _ _ _ (writeResponse_run w2 _ _ eq_refl)).
  unfold wg_Done. unfold_S. cbn. rewrite Hwg. eexists. split; [reflexivity|].
  cbn. unfold responses. rewrite !omap_app, <- app_assoc. done.
Qed.

(** [readRequest] never returns a request together with an error, so the
    branch of [serveCodec] that answers such a request is never taken. *)
Lemma readRequest_request_or_error w r w' :
  readRequest w = Some (r, w') → r.1 = None ∨ r.2 = None.
Proof.
  unfold readRequest, readRequestHeader. unfold_S.
  destruct (codec.ReadHeader (scc w)) as [[e|hd] cc1]; cbn.
  { intros [= <- _]. by left. }
  destruct (findService _ _) as [[sName mName] [e|]].
  { intros [= <- _]. by left. }
  destruct sName as [sName|], mName as [mName|]; try done.
  destruct (deref_method _ _ _) as [mt|]; [|done].
  destruct (newReplyv mt) as [rv|]; [|done]. cbn.
  destruct (codec.ReadBody _ _) as [[eb ia] cc2]. cbn.
  intros [= <- _]. by right.
Qed.

(** The part of C1 about names, for every codec: a header whose name does
    not resolve ends the loop; the body is left unread, no response is
    written and the codec is closed. *)
Lemma serveCodec_unresolved_name fuel w hd cc1 sName mName e :
  wg w = 0%nat →
  codec.ReadHeader (scc w) = (inr hd, cc1) →
  findService (server w) (codec.Name hd) = (sName, mName, Some e) →
  serveCodec (S fuel) w
  = Some (tt, mkServing (server w) (snd (codec.Close cc1)) (smu w) 0
                (strace w ++ [EvReadHeader (inr hd); EvClose])).
Proof.
  destruct w as [srv cc0 m n tr]; cbn. intros -> Hh Hf.
  unfold serveCodec. cbn [serveCodec_loop]. unfold readRequest, readRequestHeader.
  unfold_S. cbn. rewrite Hh. cbn. rewrite Hf. cbn.
  destruct (codec.Close cc1) as [r cc2]. cbn. by rewrite <- !app_assoc.
Qed.

(** The part of C1 about bodies, for every codec: a body that fails to
    decode is logged, and the request is returned without an error, to be
    dispatched like any other. *)
Lemma readRequest_body_error w hd cc1 sName mName mt replyv eb iargv cc2 :
  codec.ReadHeader (scc w) = (inr hd, cc1) →
  findService (server w) (codec.Name hd) = (Some sName, Some mName, None) →
  deref_method (server w) sName mName = Some mt →
  newReplyv mt = Some replyv →
  codec.ReadBody (if bool_decide (reflect.Kind_of (ArgType mt) = reflect.KPointer)
                  then newArgv mt else reflect.Ref (newArgv mt)) cc1
    = ((Some eb, iargv), cc2) →
  ∃ req w', readRequest w = Some ((Some req, None), w')
    ∧ h req = hd ∧ responses (strace w') = responses (strace w).
Proof.
  destruct w as [srv cc0 m n tr]; cbn. intros Hh Hf Hm Hr Hb.
  unfold readRequest, readRequestHeader. unfold_S. cbn. rewrite Hh. cbn.
  rewrite Hf, Hm, Hr. cbn. rewrite Hb. cbn. eexists _, _. split; [reflexivity|].
  split; [reflexivity|]. cbn. unfold responses. rewrite !omap_app. cbn.
  by rewrite !app_nil_r.
Qed.

End server_facts.

(** C1 on the code.  The server of [Arith] reads a request for
    "Arith.Missing" followed by a valid request: it writes no response,
    closes the codec and leaves the valid request unread.  It reads a
    request for "Arith.Add" whose body does not decode, followed by a valid
    request: the first is dispatched with the zero argument and answered
    with an empty error text and the reply 0. *)
Theorem serveCodec_failed_request :
  (∃ w',
     serveCodec 3 (serving [script.Hdr (codec.mkHeader 1 "Arith.Missing" "");
                            script.Body (mkArgs 1 2);
                            script.Hdr (codec.mkHeader 2 "Arith.Add" "");
                            script.Body (mkArgs 1 2)])
       = Some (tt, w')
     ∧ strace w' = [EvReadHeader (inr (codec.mkHeader 1 "Arith.Missing" "")); EvClose]
     ∧ responses (strace w') = []
     ∧ script.closed (scc w') = true
     ∧ script.incoming (scc w') = [script.Body (mkArgs 1 2);
                                   script.Hdr (codec.mkHeader 2 "Arith.Add" "");
                                   script.Body (mkArgs 1 2)])
  ∧ (∃ w',
       serveCodec 3 (serving [script.Hdr (codec.mkHeader 1 "Arith.Add" "");
                              script.Broken "gob: bad data";
                              script.Hdr (codec.mkHeader 2 "Arith.Add" "");
                              script.Body (mkArgs 1 2)])
         = Some (tt, w')
       ∧ responses (strace w')
         = [(codec.mkHeader 1 "Arith.Add" "", reflect.Ref (reflect.Int 0));
            (codec.mkHeader 2 "Arith.Add" "", reflect.Ref (reflect.Int 3))]).
Proof.
  split.
  - eexists. split; [vm_compute; reflexivity|]. repeat split.
  - eexists. split; [vm_compute; reflexivity|]. reflexivity.
Qed.

(** C2 on the code.  The request "Arith.Div" with a zero divisor is
    dispatched; the method returns an error, and two responses are written
    for the one request: the error with the placeholder, then the error
    again with the reply. *)
Theorem handleRequest_error_two_responses :
  ∃ w',
    handleRequest
      (mkRequest (codec.mkHeader 1 "Arith.Div" "") "Arith" "Div"
                 (reflect.Ref (mkArgs 1 0)) (reflect.Ref (reflect.Int 0)))
      (mkServing server_Arith (script.mk [] [] false) false 1 [])
    = Some (tt, w')
    ∧ strace w'
      = [EvLock ();
         EvWrite (codec.mkHeader 1 "Arith.Div" "divide by zero") invalidRequest None;
         EvUnlock ();
         EvLock ();
         EvWrite (codec.mkHeader 1 "Arith.Div" "divide by zero")
                 (reflect.Ref (reflect.Int 0)) None;
         EvUnlock ()]
    ∧ length (responses (strace w')) = 2%nat.
Proof.
  eexists. split; [vm_compute; reflexivity|]. split; reflexivity.
Qed.

Lemma ServeConn_handshake_witness :
  let _ := Gob_sample in
  let reg := codec.NewCodecFuncMap_init in
  let conn (rd : list byte) := net.mkConn rd [] None false in
  let dropped (rd : list byte) :=
    ∃ conn', ServeConn reg 1 NewServer (conn rd) = Dropped conn'
             ∧ net.closed conn' = true ∧ net.wr conn' = [] in
  dropped ["Z"; "+"; "q"]%byte
  ∧ dropped ["G"; "E"; "T"; " "; "/"; " "; "H"; "T"; "T"; "P"]%byte
  ∧ dropped (preamble codec.JSONType)
  ∧ ServeConn reg 1 NewServer (conn (preamble codec.GobType ++ ["001"]%byte))
    = Served (serveCodec 1 (mkServing NewServer (codec.NewGobCodec (conn ["001"]%byte))
                                      false 0 [])).
Proof.
  intros G reg conn dropped. split; [|split; [|split]].
  - destruct (ServeConn_handshake reg 1 NewServer (conn ["Z"; "+"; "q"]%byte) eq_refl)
      as [H _].
    apply H. simpl. lia.
  - destruct (ServeConn_handshake reg 1 NewServer
                (conn ["G"; "E"; "T"; " "; "/"; " "; "H"; "T"; "T"; "P"]%byte) eq_refl)
      as [_ H].
    destruct H as [H _]; [simpl; lia|]. apply H. discriminate.
  - destruct (ServeConn_handshake reg 1 NewServer (conn (preamble codec.JSONType)) eq_refl)
      as [_ H].
    destruct H as (_ & H & _); [simpl; lia|]. apply (H 1%N); reflexivity.
  - destruct (ServeConn_handshake reg 1 NewServer
                (conn (preamble codec.GobType ++ ["001"]%byte)) eq_refl) as [_ H].
    destruct H as (_ & _ & H); [simpl; lia|].
    apply (H 0%N codec.NewGobCodec); reflexivity.
Defined.


(** * Further properties of the code *)

(** ** gob.go *)

Section gob_more.
Context `{codec.Gob}.

(** X1.  [Write] on a codec in working order: the header and then the body are
    encoded, and before [Write] returns everything that was buffered, then
    the bytes of the header, then the bytes of the body are on the
    connection, in that order; the buffer is empty and the connection
    stays open. *)
Theorem GobCodec_Write_sends_header_then_body h body c bh enc1 bb enc2 :
  codec.encode (inl h) (codec.enc c) = (inr bh, enc1) →
  codec.encode (inr body) enc1 = (inr bb, enc2) →
  bufio.err (codec.buf c) = None →
  net.closed (codec.conn c) = false →
  net.wfail (codec.conn c) = None →
  codec.GobCodec_Write h body c
  = (None,
     codec.mkGobCodec _
       (net.mkConn (net.rd (codec.conn c))
                   (net.wr (codec.conn c) ++ bufio.buf (codec.buf c) ++ bh ++ bb)
                   None false)
       (bufio.mkWriter [] None) (codec.dec c) enc2).
Proof.
  intros Hh Hb Herr Hcl Hwf. destruct c as [[rd wr wf cl] [bf er] d e]; cbn in *. subst.
  unfold codec.GobCodec_Write, codec.Encode. cbn. rewrite Hh. cbn. rewrite Hb. cbn.
  unfold codec.GobCodec_Write_deferred, bufio.Flush. cbn.
  rewrite <- !app_assoc.
  destruct (bf ++ bh ++ bb) as [|x l] eqn:Hl; cbn.
  - by rewrite app_nil_r.
  - reflexivity.
Qed.

(** X2.  A header that cannot be encoded: [Write] returns the error, the body is
    never handed to the encoder, and the connection is closed. *)
Theorem GobCodec_Write_header_error h body c e enc1 :
  codec.encode (inl h) (codec.enc c) = (inl e, enc1) →
  fst (codec.GobCodec_Write h body c) = Some e
  ∧ codec.enc (snd (codec.GobCodec_Write h body c)) = enc1
  ∧ net.closed (codec.conn (snd (codec.GobCodec_Write h body c))) = true.
Proof.
  intros Hh. unfold codec.GobCodec_Write, codec.Encode. rewrite Hh. cbn.
  unfold codec.GobCodec_Write_deferred. cbn.
  destruct (bufio.Flush _ _) as [r [b' conn']]. cbn.
  unfold codec.GobCodec_Close, net.Close. cbn.
  destruct (net.closed conn') eqn:Hc; cbn; done.
Qed.

(** X3.  A body that cannot be encoded, on a codec in working order: the header
    is already encoded and is flushed to the connection, without its body,
    before the connection is closed and the error returned. *)
Theorem GobCodec_Write_body_error h body c bh enc1 e enc2 :
  codec.encode (inl h) (codec.enc c) = (inr bh, enc1) →
  codec.encode (inr body) enc1 = (inl e, enc2) →
  bufio.err (codec.buf c) = None →
  net.closed (codec.conn c) = false →
  net.wfail (codec.conn c) = None →
  fst (codec.GobCodec_Write h body c) = Some e
  ∧ codec.conn (snd (codec.GobCodec_Write h body c))
    = net.mkConn (net.rd (codec.conn c))
                 (net.wr (codec.conn c) ++ bufio.buf (codec.buf c) ++ bh) None true.
Proof.
  intros Hh Hb Herr Hcl Hwf. destruct c as [[rd wr wf cl] [bf er] d en]; cbn in *. subst.
  unfold codec.GobCodec_Write, codec.Encode. cbn. rewrite Hh. cbn. rewrite Hb. cbn.
  split; [done|].
  unfold codec.GobCodec_Write_deferred, bufio.Flush. cbn.
  destruct (bf ++ bh) as [|x l] eqn:Hl; cbn.
  - by rewrite app_nil_r.
  - reflexivity.
Qed.

(** X4.  The flush error that one [Write] drops comes back: when the flush of a
    [Write] has failed, the next [Write] returns an error and closes the
    connection, whatever it is asked to write. *)
Theorem GobCodec_Write_after_failed_flush h body c c1 c2 e h' body' :
  codec.Encode (inl h) c = (None, c1) →
  codec.Encode (inr body) c1 = (None, c2) →
  fst (bufio.Flush (codec.buf c2) (codec.conn c2)) = Some e →
  let c' := snd (codec.GobCodec_Write h body c) in
  fst (codec.GobCodec_Write h body c) = None
  ∧ fst (codec.GobCodec_Write h' body' c') ≠ None
  ∧ net.closed (codec.conn (snd (codec.GobCodec_Write h' body' c'))) = true.
Proof.
  intros H1 H2 Hf c'.
  assert (Hret : fst (codec.GobCodec_Write h body c) = None).
  { unfold codec.GobCodec_Write. by rewrite H1, H2. }
  assert (Herr : is_Some (bufio.err (codec.buf c'))).
  { subst c'. unfold codec.GobCodec_Write. rewrite H1, H2. cbn.
    unfold codec.GobCodec_Write_deferred. unfold bufio.Flush in *.
    destruct (bufio.err (codec.buf c2)) as [e0|] eqn:He; cbn; [by rewrite He|].
    destruct (bufio.buf (codec.buf c2)) as [|x l]; [done|].
    destruct (net.Write _ _) as [[e1|] conn']; cbn; [eauto|done]. }
  assert (Hne : fst (codec.GobCodec_Write h' body' c') ≠ None).
  { destruct Herr as [e0 He0]. unfold codec.GobCodec_Write, codec.Encode.
    destruct (codec.encode (inl h') _) as [[e1|bs] enc1]; cbn; [done|].
    unfold bufio.Write. rewrite He0. cbn. done. }
  split; [done|]. split; [done|].
  by apply GobCodec_Write_encode_error_closes.
Qed.

End gob_more.

(** ** The client: Close, IsAvaliable, send *)

Section client_more.
Context {C : Type} `{!codec.Codec C}.
Implicit Types (w : World C) (c : Client C) (p : ptr) (k : Call).

Lemma Close_up_run w :
  mu (client w) = false →
  closing (client w) = false →
  shutdown (client w) = false →
  Close w
  = Some (fst (codec.Close (cc (client w))),
          mkWorld (set_cc (snd (codec.Close (cc (client w)))) (set_closing true (client w)))
                  (calls w) (trace w ++ [EvLock Mu; EvClose; EvUnlock Mu])).
Proof.
  destruct w as [[] ks tr]; cbn. intros -> -> ->.
  unfold Close, cc_Close. unfold_M. cbn.
  destruct (codec.Close cc0) as [r cc1]. cbn. by rewrite <- !app_assoc.
Qed.

Lemma Close_down_run w :
  mu (client w) = false →
  shutdown (client w) || closing (client w) = true →
  Close w
  = Some (Some ErrShutDown,
          mkWorld (client w) (calls w) (trace w ++ [EvLock Mu; EvUnlock Mu])).
Proof.
  destruct w as [[] ks tr]; cbn. intros -> Hd.
  unfold Close. unfold_M. cbn. rewrite Hd. cbn. by rewrite <- !app_assoc.
Qed.

Lemma IsAvaliable_run w :
  mu (client w) = false →
  IsAvaliable w
  = Some (negb (shutdown (client w)) && negb (closing (client w)),
          mkWorld (client w) (calls w) (trace w ++ [EvLock Mu; EvUnlock Mu])).
Proof.
  destruct w as [[] ks tr]; cbn. intros ->.
  unfold IsAvaliable. unfold_M. cbn. by rewrite <- !app_assoc.
Qed.

(** X5.  [Close] is a latch.  The first [Close] of a client that is up closes
    the codec and returns what the codec returns; from then on the client
    reports itself unavailable, and a second [Close] returns the shutdown
    error without calling the codec again. *)
Theorem Close_is_a_latch w :
  mu (client w) = false →
  closing (client w) = false →
  shutdown (client w) = false →
  ∃ w1 w2 w3,
    Close w = Some (fst (codec.Close (cc (client w))), w1)
    ∧ cc (client w1) = snd (codec.Close (cc (client w)))
    ∧ IsAvaliable w1 = Some (false, w2)
    ∧ Close w2 = Some (Some ErrShutDown, w3)
    ∧ cc (client w3) = cc (client w1)
    ∧ trace w3 = trace w ++ [EvLock Mu; EvClose; EvUnlock Mu; EvLock Mu; EvUnlock Mu;
                             EvLock Mu; EvUnlock Mu]
    ∧ pending (client w3) = pending (client w)
    ∧ seq (client w3) = seq (client w)
    ∧ calls w3 = calls w.
Proof.
  intros Hmu Hcl Hsh. eexists _, _, _.
  split; [by apply Close_up_run|]. split; [reflexivity|].
  split.
  { rewrite IsAvaliable_run by exact Hmu. cbn. rewrite Hsh. reflexivity. }
  split.
  { rewrite Close_down_run; [reflexivity|exact Hmu|]. cbn. apply orb_true_r. }
  cbn. rewrite <- !app_assoc. done.
Qed.

Lemma send_down_run w p k :
  sending (client w) = false →
  mu (client w) = false →
  closing (client w) || shutdown (client w) = true →
  calls w !! p = Some k →
  send p w
  = Some (tt, mkWorld (client w) (<[p := Call_set_Error ErrShutDown k]> (calls w))
                (trace w ++ [EvLock Sending; EvLock Mu; EvUnlock Mu;
                             EvDone (Done k) p; EvUnlock Sending])).
Proof.
  destruct w as [[] ks tr]; cbn. intros -> -> Hd Hk.
  unfold send, addCall. unfold_M. cbn. rewrite Hd. cbn. rewrite Hk. cbn.
  rewrite lookup_insert_eq. cbn. rewrite <- !app_assoc. reflexivity.
Qed.

Lemma send_ok_run w p k cc1 :
  sending (client w) = false →
  mu (client w) = false →
  closing (client w) = false →
  shutdown (client w) = false →
  calls w !! p = Some k →
  codec.Write (codec.mkHeader (seq (client w)) (Name k) "") (Args k) (cc (client w))
    = (None, cc1) →
  send p w
  = Some (tt,
          mkWorld
            (set_cc cc1
               (set_header (codec.mkHeader (seq (client w)) (Name k) "")
                  (set_seq (uint64 (seq (client w) + 1))
                     (set_pending (<[seq (client w) := p]> (pending (client w))) (client w)))))
            (<[p := Call_set_Seq (seq (client w)) k]> (calls w))
            (trace w ++ [EvLock Sending; EvLock Mu; EvUnlock Mu;
                         EvWrite (codec.mkHeader (seq (client w)) (Name k) "") (Args k) None;
                         EvUnlock Sending])).
Proof.
  destruct w as [[] ks tr]; cbn. intros -> -> -> -> Hk Hw.
  unfold send, addCall, cc_Write. unfold_M. cbn. rewrite Hk. cbn.
  do 3 (rewrite ?lookup_insert_eq; cbn). rewrite Hw. cbn.
  rewrite insert_insert_eq, <- !app_assoc. reflexivity.
Qed.

Lemma send_fail_run w p k e cc1 :
  sending (client w) = false →
  mu (client w) = false →
  closing (client w) = false →
  shutdown (client w) = false →
  calls w !! p = Some k →
  codec.Write (codec.mkHeader (seq (client w)) (Name k) "") (Args k) (cc (client w))
    = (Some e, cc1) →
  send p w
  = Some (tt,
          mkWorld
            (set_cc cc1
               (set_header (codec.mkHeader (seq (client w)) (Name k) "")
                  (set_seq (uint64 (seq (client w) + 1))
                     (set_pending (delete (seq (client w)) (pending (client w))) (client w)))))
            (<[p := Call_set_Error e (Call_set_Seq (seq (client w)) k)]> (calls w))
            (trace w ++ [EvLock Sending; EvLock Mu; EvUnlock Mu;
                         EvWrite (codec.mkHeader (seq (client w)) (Name k) "") (Args k) (Some e);
                         EvLock Mu; EvUnlock Mu; EvDone (Done k) p; EvUnlock Sending])).
Proof.
  destruct w as [[] ks tr]; cbn. intros -> -> -> -> Hk Hw.
  unfold send, addCall, removeCall, cc_Write. unfold_M. cbn. rewrite Hk. cbn.
  do 3 (rewrite ?lookup_insert_eq; cbn). rewrite Hw. cbn.
  do 4 (rewrite ?lookup_insert_eq; cbn).
  rewrite !insert_insert_eq, delete_insert_eq, <- !app_assoc. reflexivity.
Qed.

(** X6.  [send] on a client that is up, when the codec writes the request: the
    call gets the counter as its number and sits in the pending table under
    it, the counter moves on by one, and one message has been written, whose
    header carries that number, the name of the call and no error, with the
    arguments of the call as its body. *)
Theorem send_enqueues_then_writes w p k cc1 :
  sending (client w) = false →
  mu (client w) = false →
  closing (client w) = false →
  shutdown (client w) = false →
  calls w !! p = Some k →
  codec.Write (codec.mkHeader (seq (client w)) (Name k) "") (Args k) (cc (client w))
    = (None, cc1) →
  ∃ w',
    send p w = Some (tt, w')
    ∧ pending (client w') = <[seq (client w) := p]> (pending (client w))
    ∧ calls w' = <[p := Call_set_Seq (seq (client w)) k]> (calls w)
    ∧ seq (client w') = uint64 (seq (client w) + 1)
    ∧ header (client w') = codec.mkHeader (seq (client w)) (Name k) ""
    ∧ cc (client w') = cc1
    ∧ trace w' = trace w ++ [EvLock Sending; EvLock Mu; EvUnlock Mu;
                             EvWrite (codec.mkHeader (seq (client w)) (Name k) "") (Args k) None;
                             EvUnlock Sending]
    ∧ sending (client w') = false ∧ mu (client w') = false
    ∧ closing (client w') = false ∧ shutdown (client w') = false.
Proof.
  intros Hsd Hmu Hcl Hsh Hk Hw. eexists. split; [by apply send_ok_run|].
  by destruct w as [[] ? ?].
Qed.


(** X8.  [addCall] and then [removeCall] of the number it returned: the call
    comes back and the pending table is as it was, with the counter one
    further. *)
Theorem addCall_then_removeCall w p k :
  mu (client w) = false →
  closing (client w) = false →
  shutdown (client w) = false →
  calls w !! p = Some k →
  pending (client w) !! seq (client w) = None →
  ∃ w1 w2,
    addCall p w = Some ((seq (client w), None), w1)
    ∧ removeCall (seq (client w)) w1 = Some (Some p, w2)
    ∧ pending (client w2) = pending (client w)
    ∧ seq (client w2) = uint64 (seq (client w) + 1).
Proof.
  destruct w as [[] ks tr]; cbn. intros Hmu Hcl Hsh Hk Hfree. eexists _, _.
  split; [by eapply addCall_up_run|]. cbn. split.
  { rewrite removeCall_run by exact Hmu. cbn. by rewrite lookup_insert_eq. }
  cbn. split; [|done]. rewrite delete_insert_eq. by apply delete_id.
Qed.

Lemma send_prog_run p w : run_prog (send_prog p) w = send p w.
Proof.
  unfold send, send_prog, withLock. cbn [run_prog]. unfold mbind, M_bind.
  destruct (Lock Sending w) as [[[] w1]|]; [|reflexivity].
  destruct (addCall p w1) as [[[sq [e|]] w2]|]; [| |reflexivity];
    cbn [run_prog]; unfold mbind, M_bind.
  - destruct (store p (Call_set_Error e) w2) as [[[] w3]|]; [|reflexivity].
    destruct (done p w3) as [[[] w4]|]; [|reflexivity].
    destruct (Unlock Sending w4) as [[[] w5]|]; reflexivity.
  - destruct (store p (Call_set_Seq sq) w2) as [[[] w3]|]; [|reflexivity].
    destruct (load p w3) as [[k w4]|]; [|reflexivity].
    destruct (modifyC (set_header (codec.mkHeader sq (Name k) "")) w4) as [[[] w5]|];
      [|reflexivity].
    destruct (getC w5) as [[c w6]|]; [|reflexivity].
    destruct (cc_Write (header c) (Args k) w6) as [[[e|] w7]|]; [| |reflexivity];
      cbn [run_prog]; unfold mbind, M_bind.
    + destruct (removeCall sq w7) as [[[q|] w8]|]; [| |reflexivity];
        cbn [run_prog]; unfold mbind, M_bind.
      * destruct (store q (Call_set_Error e) w8) as [[[] w9]|]; [|reflexivity].
        destruct (done q w9) as [[[] w10]|]; [|reflexivity].
        destruct (Unlock Sending w10) as [[[] w11]|]; reflexivity.
      * cbn. destruct (Unlock Sending w8) as [[[] w9]|]; reflexivity.
    + cbn. destruct (Unlock Sending w7) as [[[] w8]|]; reflexivity.
Qed.

Lemma terminateCalls_prog_run err w :
  run_prog (terminateCalls_prog err) w = terminateCalls err w.
Proof.
  unfold terminateCalls, terminateCalls_prog, withLock. cbn [run_prog].
  unfold mbind, M_bind.
  destruct (Lock Mu w) as [[[] w1]|]; [|reflexivity].
  destruct (Lock Sending w1) as [[[] w2]|]; [|reflexivity].
  destruct (modifyC (set_shutdown true) w2) as [[[] w3]|]; [|reflexivity].
  destruct (getC w3) as [[c w4]|]; [|reflexivity].
  match goal with
  | |- context [forEach ?f ?l w4] => destruct (forEach f l w4) as [[[] w5]|]; [|reflexivity]
  end.
  destruct (Unlock Sending w5) as [[[] w6]|]; [|reflexivity]. cbn.
  destruct (Unlock Mu w6) as [[[] w7]|]; reflexivity.
Qed.

(** X9.  The two locks are taken in opposite orders, and the goroutines can
    wait for each other for ever.  [send] and [terminateCalls] are the
    programs [send_prog] and [terminateCalls_prog] run from start to end.
    Let a sender and the goroutine of [receive], which has reached
    [terminateCalls], take one step each on a client whose locks are free:
    the sender holds the send lock and is at [addCall], which asks for the
    state lock; [terminateCalls] holds the state lock and asks for the send
    lock.  Neither has returned, neither can take a step, and no call has
    been settled. *)
Theorem terminateCalls_send_lock_order w err p :
  sending (client w) = false →
  mu (client w) = false →
  (∀ w0, run_prog (send_prog p) w0 = send p w0)
  ∧ (∀ w0, run_prog (terminateCalls_prog err) w0 = terminateCalls err w0)
  ∧ ∃ next1 next2 w',
      let ps := [Act (addCall p) next1; Act (Lock Sending) next2] in
      run_sched [0; 1]%nat [send_prog p; terminateCalls_prog err] w = Some (ps, w')
      ∧ sending (client w') = true ∧ mu (client w') = true
      ∧ trace w' = trace w ++ [EvLock Sending; EvLock Mu]
      ∧ calls w' = calls w
      ∧ pending (client w') = pending (client w)
      ∧ shutdown (client w') = shutdown (client w)
      ∧ finished ps = false
      ∧ (∀ i, step_at i ps w' = None)
      ∧ (∀ i sched, run_sched (i :: sched) ps w' = None).
Proof.
  intros Hsd Hmu.
  split; [intros w0; apply send_prog_run|].
  split; [intros w0; apply terminateCalls_prog_run|].
  destruct w as [[] ks tr]; cbn in Hsd, Hmu; subst.
  eexists _, _, _. cbn zeta.
  split. { cbn. unfold_M. cbn. reflexivity. }
  cbn [client calls trace sending mu pending shutdown].
  do 6 (split; [by rewrite <- ?app_assoc|]). split; [reflexivity|].
  match goal with
  | |- (∀ i, step_at i ?ps ?w' = None) ∧ _ => assert (Hstuck : ∀ i, step_at i ps w' = None)
  end.
  { intros [|[|i]]; cbn; [|reflexivity|reflexivity].
    unfold addCall. unfold_M. reflexivity. }
  split; [exact Hstuck|]. intros i sched. cbn [run_sched]. by rewrite Hstuck.
Qed.


End client_more.

(** ** The server: services, findService, Register *)

Lemma list_ascii_of_string_app (s1 s2 : string) :
  String.list_ascii_of_string (s1 +:+ s2)
  = String.list_ascii_of_string s1 ++ String.list_ascii_of_string s2.
Proof. induction s1 as [|a s1 IH]; simpl; [done|]. by f_equal. Qed.

Lemma list_ascii_of_string_length (s : string) :
  length (String.list_ascii_of_string s) = String.length s.
Proof. induction s as [|a s IH]; simpl; [done|]. by f_equal. Qed.

Lemma LastIndex_from_absent c i found (l : list ascii) :
  c ∉ l → LastIndex_from c i found l = found.
Proof.
  revert i found. induction l as [|a l IH]; intros i found Hc; [done|].
  apply not_elem_of_cons in Hc as [Hne Hc]. cbn.
  rewrite decide_False by done. by apply IH.
Qed.

Lemma LastIndex_from_last c i found (l1 l2 : list ascii) :
  c ∉ l2 → LastIndex_from c i found (l1 ++ c :: l2) = Some (i + length l1)%nat.
Proof.
  revert i found. induction l1 as [|a l1 IH]; intros i found Hc; cbn.
  - rewrite decide_True by done. rewrite LastIndex_from_absent by done.
    f_equal. lia.
  - rewrite IH by done. f_equal. lia.
Qed.

Lemma slice_prefix (s1 s2 : string) :
  slice (s1 +:+ s2) 0 (String.length s1) = s1.
Proof.
  unfold slice. rewrite list_ascii_of_string_app, drop_0.
  rewrite take_app_length' by (symmetry; apply list_ascii_of_string_length).
  apply String.string_of_list_ascii_of_string.
Qed.

Lemma slice_suffix (s1 s2 : string) :
  slice (s1 +:+ s2) (String.length s1) (String.length (s1 +:+ s2)) = s2.
Proof.
  unfold slice. rewrite <- (list_ascii_of_string_length (s1 +:+ s2)), firstn_all.
  rewrite list_ascii_of_string_app.
  rewrite drop_app_length' by (symmetry; apply list_ascii_of_string_length).
  apply String.string_of_list_ascii_of_string.
Qed.

Lemma findService_run (s : Server) (sName mName : string) :
  "."%char ∉ String.list_ascii_of_string mName →
  findService s (sName +:+ "." +:+ mName)
  = match serviceMap s !! sName with
    | None => (None, None, Some ("rpc server: cannot find service " +:+ sName))
    | Some sv =>
        match methods sv !! mName with
        | None =>
            (Some sName, None,
             Some ("rpc server: cannot find method " +:+ mName +:+ " on service " +:+ sName))
        | Some _ => (Some sName, Some mName, None)
        end
    end.
Proof.
  intros Hdot.
  assert (Happ : ∀ a b c : string, a +:+ b +:+ c = (a +:+ b) +:+ c).
  { intros a b c. rewrite <- (String.string_of_list_ascii_of_string (a +:+ b +:+ c)).
    rewrite <- (String.string_of_list_ascii_of_string ((a +:+ b) +:+ c)).
    by rewrite !list_ascii_of_string_app, app_assoc. }
  assert (Hlen : ∀ a : string, String.length (a +:+ ".") = (String.length a + 1)%nat).
  { intros a. rewrite <- !list_ascii_of_string_length, list_ascii_of_string_app.
    by rewrite length_app. }
  unfold findService, LastIndex.
  rewrite list_ascii_of_string_app.
  change (String.list_ascii_of_string ("." +:+ mName))
    with ("."%char :: String.list_ascii_of_string mName).
  rewrite LastIndex_from_last by done. cbn [Nat.add].
  rewrite list_ascii_of_string_length, slice_prefix.
  rewrite <- Hlen, Happ, slice_suffix. reflexivity.
Qed.

(** X11.  [findService] cuts the name at its last dot: a name made of a service
    name, a dot and a method name without a dot resolves exactly when the
    service is registered and has the method, and each failure names what
    was not found.  The service name may itself contain dots. *)
Theorem findService_cuts_at_last_dot (s : Server) (sName mName : string) :
  "."%char ∉ String.list_ascii_of_string mName →
  findService s (sName +:+ "." +:+ mName)
  = match serviceMap s !! sName with
    | None => (None, None, Some ("rpc server: cannot find service " +:+ sName))
    | Some sv =>
        match methods sv !! mName with
        | None =>
            (Some sName, None,
             Some ("rpc server: cannot find method " +:+ mName +:+ " on service " +:+ sName))
        | Some _ => (Some sName, Some mName, None)
        end
    end.
Proof. apply findService_run. Qed.

(** X12.  A name without a dot is refused, whatever is registered. *)
Theorem findService_without_dot (s : Server) (name : string) :
  "."%char ∉ String.list_ascii_of_string name →
  findService s name
  = (None, None,
     Some ("rpc server: service name must be like " +:+ dquote +:+ "Service.Method" +:+ dquote)).
Proof.
  intros Hdot. unfold findService, LastIndex. by rewrite LastIndex_from_absent.
Qed.

(** X13.  [Register] of a service whose name is free adds it: its methods then
    resolve by "Service.Method", and the other services are as before.  A
    second [Register] of the same name is refused with the duplicate error
    and changes nothing. *)
Theorem Register_then_findService (sv : service) (s : Server) (mName : string) mt :
  serviceMap s !! name sv = None →
  methods sv !! mName = Some mt →
  "."%char ∉ String.list_ascii_of_string mName →
  let s' := snd (Register sv s) in
  fst (Register sv s) = None
  ∧ findService s' (name sv +:+ "." +:+ mName) = (Some (name sv), Some mName, None)
  ∧ deref_method s' (name sv) mName = Some mt
  ∧ (∀ n, n ≠ name sv → serviceMap s' !! n = serviceMap s !! n)
  ∧ Register sv s' = (Some ("rcp server: duplicated service " +:+ name sv), s').
Proof.
  intros Hfree Hm Hdot s'. subst s'. unfold Register. rewrite Hfree. cbn.
  split; [done|]. split.
  { rewrite findService_run by done. cbn.
    by rewrite lookup_insert_eq, Hm. }
  split.
  { unfold deref_method. cbn. by rewrite lookup_insert_eq. }
  split.
  { intros n Hn. by apply lookup_insert_ne. }
  by rewrite lookup_insert_eq.
Qed.

Section server_more.
Context {C : Type} `{!codec.Codec C}.
Implicit Types (w : Serving C) (req : request).

(** X14.  The call of a method through its service counts it: the counter of
    that method goes up by one (in a [uint64]), its function and types stay,
    no other method changes, and neither the codec nor the mutex nor the
    trace is touched.  The result is the result of the method. *)
Theorem call_counts_the_method w sName mName m argv replyv :
  deref_method (server w) sName mName = Some m →
  ∃ w' m',
    call sName mName argv replyv w = Some (method m argv replyv, w')
    ∧ deref_method (server w') sName mName = Some m'
    ∧ NumCalls m' = uint64 (NumCalls m + 1)
    ∧ method m' = method m ∧ ArgType m' = ArgType m ∧ ReplyType m' = ReplyType m
    ∧ (∀ sn mn, (sn, mn) ≠ (sName, mName) →
         deref_method (server w') sn mn = deref_method (server w) sn mn)
    ∧ scc w' = scc w ∧ smu w' = smu w ∧ wg w' = wg w ∧ strace w' = strace w.
Proof.
  unfold deref_method, call. unfold_S.
  destruct (serviceMap (server w) !! sName) as [sv|] eqn:Hsv; [|done].
  intros Hm. rewrite Hm. cbn. eexists _, _. split; [reflexivity|]. cbn.
  rewrite lookup_insert_eq. cbn. rewrite lookup_insert_eq.
  split; [reflexivity|]. repeat split; try done.
  intros sn mn Hne. destruct (decide (sn = sName)) as [->|Hsn].
  - rewrite lookup_insert_eq, Hsv. cbn. apply lookup_insert_ne. congruence.
  - by rewrite lookup_insert_ne.
Qed.

(** X15.  A header that cannot be read ends the serving of the connection,
    whether the stream has ended or is broken: no body is read, no response
    is written, and the codec is closed. *)
Theorem serveCodec_ends_on_header_error fuel w e cc1 :
  wg w = 0%nat →
  codec.ReadHeader (scc w) = (inl e, cc1) →
  serveCodec (S fuel) w
  = Some (tt, mkServing (server w) (snd (codec.Close cc1)) (smu w) 0
                (strace w ++ [EvReadHeader (inl e); EvClose])).
Proof.
  destruct w as [srv cc0 m n tr]; cbn. intros -> Hh.
  unfold serveCodec. cbn [serveCodec_loop]. unfold readRequest, readRequestHeader.
  unfold_S. cbn. rewrite Hh. cbn.
  destruct (codec.Close cc1) as [r cc2]. cbn. by rewrite <- !app_assoc.
Qed.

(** X16.  What [NewClient] writes, [ServeConn] accepts: a server whose registry
    knows the tag of the client finds, at the head of the bytes the client
    has written, the magic number and that tag, consumes exactly these and
    serves the rest with the codec of the tag. *)
Theorem ServeConn_accepts_NewClient {D : Type}
    (regC : gmap N (net.Conn → D)) (regS : gmap N (net.Conn → C))
    connC codecType ncfC ncfS fuel s connS rest :
  regC !! codecType = Some ncfC →
  regS !! codecType = Some ncfS →
  (codecType < 2 ^ 32)%N →
  net.closed connC = false →
  net.wfail connC = None →
  net.wr connC = [] →
  net.closed connS = false →
  net.rd connS = net.wr (snd (NewClient regC connC codecType)) ++ rest →
  (∃ client, fst (NewClient regC connC codecType) = inr client)
  ∧ ServeConn regS fuel s connS
    = Served (serveCodec fuel
                (mkServing s (ncfS (net.mkConn rest (net.wr connS) (net.wfail connS) false))
                           false 0 [])).
Proof.
  intros HrC HrS Hlt HcC HwC HwrC HcS Hrd.
  assert (Hnew : net.wr (snd (NewClient regC connC codecType)) = preamble codecType
                 ∧ ∃ client, fst (NewClient regC connC codecType) = inr client).
  { unfold NewClient. rewrite HrC, NewClient_buf. unfold net.Write. rewrite HcC, HwC. cbn.
    rewrite HwrC. eauto. }
  destruct Hnew as [Hwr Hcl]. split; [done|].
  rewrite Hwr in Hrd.
  unfold ServeConn. rewrite ReadFull_whole by (done || (rewrite Hrd; cbn; lia)).
  rewrite Hrd.
  change (take 4 (take 8 (preamble codecType ++ rest))) with (be32 Magic).
  change (drop 4 (take 8 (preamble codecType ++ rest))) with (be32 codecType).
  change (drop 8 (preamble codecType ++ rest)) with rest.
  assert (HM : binary.Uint32 (be32 Magic) = Some Magic) by reflexivity.
  rewrite HM, <- (app_nil_r (be32 codecType)), Uint32_be32.
  unfold binary.uint32. rewrite N.land_ones, N.mod_small by done.
  rewrite decide_False by (intros Hne; by apply Hne). by rewrite HrS.
Qed.

End server_more.

(** ** Every call is signalled once *)

Lemma pend_has (pend : gmap N ptr) (p : ptr) :
  (∃ s, pend !! s = Some p) ∨ ¬ (∃ s, pend !! s = Some p).
Proof.
  destruct (decide (p ∈ (map_to_list pend).*2)) as [Hin|Hn].
  - left. apply list_elem_of_fmap in Hin as ([s q] & -> & Hin).
    exists s. by apply elem_of_map_to_list.
  - right. intros [s Hs]. apply Hn. apply list_elem_of_fmap. exists (s, p).
    split; [done|]. by apply elem_of_map_to_list.
Qed.

Lemma settled_inv_new_pending pend sq A sig p :
  settled_inv pend sq false A sig → p ∉ A →
  settled_inv (<[sq := p]> pend) (sq + 1) false ({[p]} ∪ A) sig.
Proof.
  intros (Hal & Hinj & Hkey & Hnd & Hsig & Hcov) Hp.
  assert (Hfree : pend !! sq = None).
  { destruct (pend !! sq) as [q|] eqn:Hq; [|done]. apply Hkey in Hq. lia. }
  assert (Hnp : ∀ s, pend !! s ≠ Some p).
  { intros s Hs. apply Hp. by eapply Hal. }
  split; [|split; [|split; [|split; [|split]]]].
  - intros s q [[<- <-]|[_ Hq]]%lookup_insert_Some; apply elem_of_union.
    + left. by apply elem_of_singleton.
    + right. by eapply Hal.
  - intros s1 s2 q [[<- <-]|[? H1]]%lookup_insert_Some [[<- ?]|[? H2]]%lookup_insert_Some;
      try done; subst; try (by exfalso; eapply Hnp). by eapply Hinj.
  - intros s q [[<- <-]|[_ Hq]]%lookup_insert_Some; [lia|]. apply Hkey in Hq. lia.
  - done.
  - intros q Hq. apply elem_of_union. right. by apply Hsig.
  - intros q [->%elem_of_singleton|HA]%elem_of_union.
    + split.
      * intros Hq. exfalso. by apply Hp, Hsig.
      * intros Hq. exfalso. apply (Hq sq). apply lookup_insert_eq.
    + destruct (Hcov q HA) as [Hc1 Hc2]. split.
      * intros Hq s [[<- <-]|[_ Hs]]%lookup_insert_Some; [done|].
        by apply (Hc1 Hq s).
      * intros Hq. apply Hc2. intros s Hs. apply (Hq s).
        rewrite lookup_insert_ne; [done|]. intros <-. by rewrite Hfree in Hs.
Qed.

(** A call that is new and signalled at once. *)
Lemma settled_inv_new_signalled pend sq sq' sh A sig p :
  settled_inv pend sq sh A sig → p ∉ A → (sq ≤ sq')%N →
  settled_inv pend sq' sh ({[p]} ∪ A) (sig ++ [p]).
Proof.
  intros (Hal & Hinj & Hkey & Hnd & Hsig & Hcov) Hp Hle.
  assert (Hnp : ∀ s, pend !! s ≠ Some p).
  { intros s Hs. apply Hp. by eapply Hal. }
  split; [|split; [|split; [|split; [|split]]]].
  - intros s q Hq. apply elem_of_union. right. by eapply Hal.
  - done.
  - intros s q Hq. apply Hkey in Hq. lia.
  - apply NoDup_app. split; [done|]. split; [|apply NoDup_singleton].
    intros q Hq ->%list_elem_of_singleton. by apply Hp, Hsig.
  - intros q [Hq| ->%list_elem_of_singleton]%elem_of_app; apply elem_of_union.
    + right. by apply Hsig.
    + left. by apply elem_of_singleton.
  - intros q Hq. specialize (Hcov q).
    destruct sh; rewrite elem_of_app, list_elem_of_singleton;
      apply elem_of_union in Hq as [->%elem_of_singleton|HA].
    + by right.
    + left. by apply Hcov.
    + split; [done|]. intros _. by right.
    + destruct (Hcov HA) as [Hc1 Hc2]. split.
      * intros [Hq| ->]; [by apply Hc1|done].
      * intros Hq. left. by apply Hc2.
Qed.

(** A pending call that is answered: out of the table, signalled. *)
Lemma settled_inv_answered pend sq A sig s p :
  settled_inv pend sq false A sig → pend !! s = Some p →
  settled_inv (delete s pend) sq false A (sig ++ [p]).
Proof.
  intros (Hal & Hinj & Hkey & Hnd & Hsig & Hcov) Hs.
  assert (HpA : p ∈ A) by by eapply Hal.
  assert (Hpsig : p ∉ sig).
  { intros Hin. destruct (Hcov p HpA) as [Hc1 _]. by apply (Hc1 Hin s). }
  split; [|split; [|split; [|split; [|split]]]].
  - intros s' q [_ Hq]%lookup_delete_Some. by eapply Hal.
  - intros s1 s2 q [_ H1]%lookup_delete_Some [_ H2]%lookup_delete_Some. by eapply Hinj.
  - intros s' q [_ Hq]%lookup_delete_Some. by eapply Hkey.
  - apply NoDup_app. split; [done|]. split; [|apply NoDup_singleton].
    by intros q Hq ->%list_elem_of_singleton.
  - intros q [Hq| ->%list_elem_of_singleton]%elem_of_app; [by apply Hsig|done].
  - intros q HA. destruct (Hcov q HA) as [Hc1 Hc2].
    rewrite elem_of_app, list_elem_of_singleton. split.
    + intros [Hq| ->] s' [Hne Hs']%lookup_delete_Some.
      * by apply (Hc1 Hq s').
      * apply Hne. by eapply Hinj.
    + intros Hq. destruct (decide (q = p)) as [->|Hne]; [by right|left].
      apply Hc2. intros s' Hs'. apply (Hq s'). apply lookup_delete_Some. split; [|done].
      intros <-. congruence.
Qed.

(** The end of the receive loop: every pending call is signalled. *)
Lemma settled_inv_terminated pend sq A sig :
  settled_inv pend sq false A sig →
  settled_inv pend sq true A (sig ++ (map_to_list pend).*2).
Proof.
  intros (Hal & Hinj & Hkey & Hnd & Hsig & Hcov).
  assert (Hval : ∀ p, p ∈ (map_to_list pend).*2 ↔ ∃ s, pend !! s = Some p).
  { intros p. rewrite list_elem_of_fmap. split.
    - intros ([s q] & -> & Hin). exists s. by apply elem_of_map_to_list.
    - intros [s Hs]. exists (s, p). split; [done|]. by apply elem_of_map_to_list. }
  split; [|split; [|split; [|split; [|split]]]]; try done.
  - apply NoDup_app. split; [done|]. split.
    + intros p Hp [s Hs]%Hval. assert (HA : p ∈ A) by by eapply Hal.
      destruct (Hcov p HA) as [Hc1 _]. by apply (Hc1 Hp s).
    + apply NoDup_fmap_2_strong; [|apply NoDup_map_to_list].
      intros [s1 p1] [s2 p2] H1%elem_of_map_to_list H2%elem_of_map_to_list Heq.
      cbn in Heq. subst p2. f_equal. by eapply Hinj.
  - intros p [Hp|[s Hs]%Hval]%elem_of_app; [by apply Hsig|by eapply Hal].
  - intros p HA. destruct (Hcov p HA) as [Hc1 Hc2]. rewrite elem_of_app, Hval.
    destruct (decide (p ∈ sig)) as [|Hn]; [by left|right].
    destruct (pend_has pend p) as [|Hne]; [done|].
    exfalso. apply Hn, Hc2. intros s Hs. apply Hne. eauto.
Qed.

Section client_life.
Context {C : Type} `{!codec.Codec C}.
Implicit Types (w : World C) (c : Client C) (p : ptr) (k : Call).

Lemma signalled_app tr1 tr2 : signalled (tr1 ++ tr2) = signalled tr1 ++ signalled tr2.
Proof. apply omap_app. Qed.

Lemma signalled_signals (ks : gmap ptr Call) (ps : list ptr) :
  (∀ p, p ∈ ps → is_Some (ks !! p)) → signalled (ps ≫= signal ks) = ps.
Proof.
  induction ps as [|p ps IH]; intros Hal; [done|].
  destruct (Hal p) as [k Hk]; [left|]. cbn. unfold signal at 1. rewrite Hk. cbn.
  f_equal. apply IH. intros q Hq. apply Hal. by right.
Qed.

Lemma client_inv_allocated w : client_inv w → pending_allocated w.
Proof. intros (_ & _ & Hal & _) s p Hs. apply elem_of_dom. by eapply Hal. Qed.

Lemma uint64_succ sq : (sq + 1 < 2 ^ 64)%N → uint64 (sq + 1) = (sq + 1)%N.
Proof. intros Hlt. rewrite uint64_mod. by apply N.mod_small. Qed.

Lemma dom_insert_insert (ks : gmap ptr Call) p k1 k2 :
  dom (<[p := k1]> (<[p := k2]> ks)) = {[p]} ∪ dom ks.
Proof. rewrite insert_insert_eq. apply dom_insert_L. Qed.

Lemma client_inv_Go w name args reply done :
  client_inv w →
  (seq (client w) + 1 < 2 ^ 64)%N →
  ∃ p w', Go name args reply done w = Some (p, w')
    ∧ client_inv w' ∧ (seq (client w') ≤ seq (client w) + 1)%N.
Proof.
  intros (Hmu & Hsd & Hinv) Hlt.
  set (p := fresh (dom (calls w))).
  assert (Hp : p ∉ dom (calls w)) by apply is_fresh.
  set (k0 := mkCall name args 0 None reply done).
  set (w0 := mkWorld (client w) (<[p := k0]> (calls w)) (trace w)).
  assert (Hk0 : calls w0 !! p = Some k0) by apply lookup_insert_eq.
  assert (Hgo : ∀ w', send p w0 = Some (tt, w') → Go name args reply done w = Some (p, w')).
  { intros w' Hs. unfold Go. unfold get, modify, mbind, M_bind, mret, M_ret. cbn.
    fold p k0 w0. by rewrite Hs. }
  destruct (closing (client w) || shutdown (client w)) eqn:Hd.
  - pose proof (send_down_run w0 p k0 Hsd Hmu Hd Hk0) as Hs.
    eexists p, _. split; [by apply Hgo|]. split; [|cbn; lia].
    split; [done|]. split; [done|]. cbn. rewrite dom_insert_insert.
    unfold signalled; rewrite ?omap_app; cbn.
    eapply settled_inv_new_signalled; [exact Hinv|exact Hp|lia].
  - apply orb_false_elim in Hd as [Hcl Hsh].
    assert (Hfree : pending (client w) !! seq (client w) = None).
    { destruct Hinv as (_ & _ & Hkey & _).
      destruct (pending (client w) !! seq (client w)) as [q|] eqn:Hq; [|done].
      apply Hkey in Hq. lia. }
    destruct (codec.Write (codec.mkHeader (seq (client w0)) (Name k0) "") (Args k0)
                (cc (client w0))) as [[e|] cc1] eqn:Hw.
    + pose proof (send_fail_run w0 p k0 e cc1 Hsd Hmu Hcl Hsh Hk0 Hw) as Hs.
      eexists p, _. split; [by apply Hgo|].
      destruct w as [[] ks tr]; cbn in *. subst. rewrite uint64_succ by done.
      split; [|lia]. split; [done|]. split; [done|]. cbn.
      rewrite dom_insert_insert, delete_id by done. unfold signalled; rewrite ?omap_app; cbn.
      eapply settled_inv_new_signalled; [exact Hinv|exact Hp|lia].
    + pose proof (send_ok_run w0 p k0 cc1 Hsd Hmu Hcl Hsh Hk0 Hw) as Hs.
      eexists p, _. split; [by apply Hgo|].
      destruct w as [[] ks tr]; cbn in *. subst. rewrite uint64_succ by done.
      split; [|lia]. split; [done|]. split; [done|]. cbn.
      rewrite dom_insert_insert. unfold signalled; rewrite ?omap_app; cbn. rewrite app_nil_r.
      by apply settled_inv_new_pending.
Qed.

Lemma client_inv_Close w :
  client_inv w →
  ∃ r w', Close w = Some (r, w') ∧ client_inv w' ∧ seq (client w') = seq (client w).
Proof.
  intros (Hmu & Hsd & Hinv).
  destruct (shutdown (client w) || closing (client w)) eqn:Hd.
  - eexists _, _. split; [by apply Close_down_run|]. split; [|done].
    split; [done|]. split; [done|]. cbn. unfold signalled; rewrite ?omap_app; cbn. rewrite ?app_nil_r. exact Hinv.
  - apply orb_false_elim in Hd as [Hsh Hcl].
    eexists _, _. split; [by apply Close_up_run|].
    destruct w as [[] ks tr]; cbn in *. subst. split; [|done].
    split; [done|]. split; [done|]. cbn. unfold signalled; rewrite ?omap_app; cbn. rewrite ?app_nil_r. exact Hinv.
Qed.

Lemma client_inv_turn w :
  client_inv w →
  shutdown (client w) = false →
  ∃ r w1, receive_turn w = Some (r, w1)
    ∧ client_inv w1 ∧ shutdown (client w1) = false ∧ seq (client w1) = seq (client w).
Proof.
  intros Hinv Hsh. pose proof (client_inv_allocated w Hinv) as Hwf.
  destruct Hinv as (Hmu & Hsd & Hinv).
  destruct (codec.ReadHeader (cc (client w))) as [[e|hd] cc1] eqn:Hh.
  { eexists _, _. split; [by eapply receive_turn_header_error|].
    destruct w as [[] ks tr]; cbn in *. subst. split; [|done]. split; [done|]. split; [done|].
    cbn. unfold signalled; rewrite ?omap_app; cbn. rewrite ?app_nil_r. exact Hinv. }
  destruct (pending (client w) !! codec.Seq hd) as [p|] eqn:Hp.
  - destruct (Hwf _ _ Hp) as [k Hk].
    assert (Hdom : ∀ k', dom (<[p := k']> (calls w)) = dom (calls w)).
    { intros k'. rewrite dom_insert_L. apply elem_of_dom_2 in Hk.
      apply set_eq. intros q. rewrite elem_of_union, elem_of_singleton.
      split; [intros [->|]; done|by right]. }
    destruct (decide (codec.Error hd = "")) as [He|He].
    + destruct (codec.ReadBody (Reply k) cc1) as [r cc2] eqn:Hb.
      eexists _, _. split; [by eapply receive_turn_reply|].
      destruct w as [[] ks tr]; cbn in *. subst. split; [|done]. split; [done|]. split; [done|].
      cbn. rewrite Hdom. unfold signalled; rewrite ?omap_app; cbn. by apply settled_inv_answered.
    + destruct (codec.ReadBody reflect.Nil cc1) as [r cc2] eqn:Hb.
      eexists _, _. split; [by eapply receive_turn_error_response|].
      destruct w as [[] ks tr]; cbn in *. subst. split; [|done]. split; [done|]. split; [done|].
      cbn. rewrite Hdom. unfold signalled; rewrite ?omap_app; cbn. by apply settled_inv_answered.
  - destruct (codec.ReadBody reflect.Nil cc1) as [r cc2] eqn:Hb.
    eexists _, _. split; [by eapply receive_turn_unmatched|].
    destruct w as [[] ks tr]; cbn in *. subst. split; [|done]. split; [done|]. split; [done|].
    cbn. unfold signalled; rewrite ?omap_app; cbn. rewrite ?app_nil_r. exact Hinv.
Qed.

Lemma client_inv_terminate w e :
  client_inv w →
  shutdown (client w) = false →
  ∃ w', terminateCalls e w = Some (tt, w')
    ∧ client_inv w' ∧ seq (client w') = seq (client w).
Proof.
  intros Hinv Hsh. pose proof (client_inv_allocated w Hinv) as Hwf.
  destruct Hinv as (Hmu & Hsd & Hinv).
  destruct (terminateCalls_run w e Hmu Hsd Hwf) as (w' & Hrun & Hc & Hin & Hout & Htr).
  exists w'. split; [done|].
  assert (Hdom : dom (calls w') = dom (calls w)).
  { apply set_eq. intros q. rewrite !elem_of_dom.
    destruct (pend_has (pending (client w)) q) as [[s Hs]|Hn].
    - destruct (Hin s q Hs) as (k & Hk & Hk'). rewrite Hk, Hk'. by split.
    - rewrite Hout; [done|]. intros s Hs. apply Hn. eauto. }
  assert (Hsig : signalled (trace w')
                 = signalled (trace w) ++ (map_to_list (pending (client w))).*2).
  { rewrite Htr, !signalled_app. cbn. rewrite app_nil_r.
    rewrite signalled_signals; [done|].
    intros p ([s q] & -> & Hp%elem_of_map_to_list)%list_elem_of_fmap. by eapply Hwf. }
  unfold client_inv. rewrite Hc, Hdom, Hsig.
  destruct w as [[] ks tr]; cbn in *. subst. split; [|done].
  split; [done|]. split; [done|]. by apply settled_inv_terminated.
Qed.

Lemma client_inv_step w s :
  client_inv w →
  (seq (client w) + 1 < 2 ^ 64)%N →
  ∃ w', run_step s w = Some (tt, w')
    ∧ client_inv w' ∧ (seq (client w') ≤ seq (client w) + 1)%N.
Proof.
  intros Hinv Hlt. destruct s as [name args reply done| |].
  - destruct (client_inv_Go w name args reply done Hinv Hlt) as (p & w' & Hrun & Hinv' & Hle).
    exists w'. split; [|done]. cbn. by rewrite (bind_run _ _ _ _ _ Hrun).
  - destruct (client_inv_Close w Hinv) as (r & w' & Hrun & Hinv' & Hseq).
    exists w'. split; [|split; [done|lia]]. cbn. by rewrite (bind_run _ _ _ _ _ Hrun).
  - cbn. unfold getC. unfold mbind at 1, M_bind at 1.
    destruct (shutdown (client w)) eqn:Hsh.
    { exists w. split; [done|]. split; [done|lia]. }
    destruct (client_inv_turn w Hinv Hsh) as (r & w1 & Hturn & Hinv1 & Hsh1 & Hseq1).
    rewrite (bind_run _ _ _ _ _ Hturn). destruct r as [e|].
    + destruct (client_inv_terminate w1 e Hinv1 Hsh1) as (w' & Hrun & Hinv' & Hseq').
      exists w'. split; [done|]. split; [done|lia].
    + exists w1. split; [done|]. split; [done|lia].
Qed.

Lemma client_inv_steps ss : ∀ w,
  client_inv w →
  (seq (client w) + N.of_nat (length ss) < 2 ^ 64)%N →
  ∃ w', run_steps ss w = Some (tt, w') ∧ client_inv w'.
Proof.
  induction ss as [|s ss IH]; intros w Hinv Hlt; [by exists w|].
  destruct (client_inv_step w s Hinv) as (w1 & Hrun & Hinv1 & Hle); [cbn in Hlt; lia|].
  destruct (IH w1 Hinv1) as (w' & Hrun' & Hinv'); [cbn in Hlt; lia|].
  exists w'. split; [|done]. unfold run_steps. by eapply forEach_cons_run.
Qed.

(** X17.  Every call is signalled once.  Take a client with an empty pending
    table and no calls yet, and any sequence of steps, each a call of [Go],
    a call of [Close] or a turn of the receive loop, taken one after the
    other, short of wrapping the counter.  The steps all come to their end
    (no lock is left held, no nil call is touched), and afterwards: no call
    has been signalled twice; only calls that exist have been signalled;
    while the receive loop runs, a call has been signalled exactly when it
    is not in the pending table; and once the loop has ended, every call has
    been signalled. *)
Theorem calls_signalled_once c ss :
  mu c = false →
  sending c = false →
  shutdown c = false →
  pending c = ∅ →
  (seq c + N.of_nat (length ss) < 2 ^ 64)%N →
  ∃ w',
    run_steps ss (world_of_client c) = Some (tt, w')
    ∧ NoDup (signalled (trace w'))
    ∧ (∀ p, p ∈ signalled (trace w') → is_Some (calls w' !! p))
    ∧ (∀ p, is_Some (calls w' !! p) →
         if shutdown (client w') then p ∈ signalled (trace w')
         else (p ∈ signalled (trace w') ↔ ∀ s, pending (client w') !! s ≠ Some p)).
Proof.
  intros Hmu Hsd Hsh Hp Hlt.
  assert (Hinv : client_inv (world_of_client c)).
  { split; [done|]. split; [done|]. cbn. rewrite Hp, Hsh, dom_empty_L.
    split; [|split; [|split; [|split; [|split]]]]; try done.
    - apply NoDup_nil_2.
    - intros p Hin. by apply elem_of_nil in Hin. }
  destruct (client_inv_steps ss _ Hinv Hlt) as (w' & Hrun & _ & _ & Hinv').
  destruct Hinv' as (_ & _ & _ & Hnd & Hsig & Hcov).
  exists w'. split; [done|]. split; [done|]. split.
  - intros p Hin. apply elem_of_dom. by apply Hsig.
  - intros p Hin. apply Hcov. by apply elem_of_dom.
Qed.

End client_life.

(** ** Dial *)

(** X18.  [Dial] does not leave a connection open behind a failure: whenever it
    returns an error after the connection was opened, the connection is
    closed, whether the codec type was unknown or the preamble could not be
    written. *)
Theorem Dial_closes_on_error {C} (reg : gmap N (net.Conn → C)) net_Dial network address
    codecType e conn' :
  Dial reg net_Dial network address codecType = (inl e, Some conn') →
  net.closed conn' = true.
Proof.
  unfold Dial.
  assert (Hclose : ∀ conn0, net.closed (snd (net.Close conn0)) = true).
  { intros conn0. unfold net.Close. by destruct (net.closed conn0) eqn:Hc. }
  destruct codecType as [|t [|t' l]]; [| |done].
  - destruct (net_Dial network address) as [err|conn]; [done|].
    destruct (NewClient reg conn codec.GobType) as [[err|cl] conn1]; [|done].
    intros [= _ <-]. apply Hclose.
  - destruct (net_Dial network address) as [err|conn]; [done|].
    destruct (NewClient reg conn t) as [[err|cl] conn1]; [|done].
    intros [= _ <-]. apply Hclose.
Qed.

(** X19.  [Dial] takes at most one codec type: with none it is the gob codec, and
    with more than one it fails before dialling.  When it dials and the
    codec type is known and the preamble goes out, the client it returns
    holds the codec made on the connection that carries the preamble. *)
Theorem Dial_default_and_arity {C} (reg : gmap N (net.Conn → C)) net_Dial network address :
  Dial reg net_Dial network address [] = Dial reg net_Dial network address [codec.GobType]
  ∧ (∀ t t' l, ∃ e, Dial reg net_Dial network address (t :: t' :: l) = (inl e, None))
  ∧ (∀ t ncf conn,
       net_Dial network address = inr conn →
       reg !! t = Some ncf →
       net.closed conn = false →
       net.wfail conn = None →
       ∃ client conn1,
         Dial reg net_Dial network address [t] = (inr client, Some conn1)
         ∧ net.wr conn1 = net.wr conn ++ preamble t
         ∧ cc client = ncf conn1
         ∧ net.closed conn1 = false).
Proof.
  split; [reflexivity|]. split; [intros; eexists; reflexivity|].
  intros t ncf conn Hd Hreg Hc Hw. unfold Dial. rewrite Hd.
  unfold NewClient. rewrite Hreg, NewClient_buf. unfold net.Write. rewrite Hc, Hw.
  eexists _, _. split; [reflexivity|]. cbn. done.
Qed.


(** ** A stream of requests *)

Lemma responses_app {L} (tr1 tr2 : list (event L)) :
  responses (tr1 ++ tr2) = responses tr1 ++ responses tr2.
Proof. apply omap_app. Qed.

Lemma same_registry_refl s : same_registry s s.
Proof.
  split; [done|]. intros sn mn. destruct (deref_method s sn mn); constructor. done.
Qed.

Lemma same_registry_trans s1 s2 s3 :
  same_registry s1 s2 → same_registry s2 s3 → same_registry s1 s3.
Proof.
  intros [Ha1 Hb1] [Ha2 Hb2]. split.
  - intros sn. by rewrite Ha1.
  - intros sn mn. specialize (Hb1 sn mn). specialize (Hb2 sn mn).
    destruct Hb1 as [m1 m2 (?&?&?)|]; inversion Hb2 as [? m3 (?&?&?)|]; subst; constructor.
    split; [congruence|]. split; congruence.
Qed.

Lemma same_registry_findService s s' name :
  same_registry s s' → findService s name = findService s' name.
Proof.
  intros [Ha Hb]. unfold findService.
  destruct (LastIndex name ".") as [dot|]; [|done].
  set (sName := slice name 0 dot). set (mName := slice name (dot + 1) (String.length name)).
  specialize (Ha sName). specialize (Hb sName mName). unfold deref_method in Hb.
  destruct (serviceMap s !! sName) as [sv|], (serviceMap s' !! sName) as [sv'|];
    try done.
  - by inversion Hb.
  - destruct Ha as [Ha _]. by destruct Ha.
  - destruct Ha as [_ Ha]. by destruct Ha.
Qed.

Lemma same_registry_answer s s' hd a :
  same_registry s s' → answer s hd a = answer s' hd a.
Proof.
  intros Hs. unfold answer. rewrite <- (same_registry_findService s s') by done.
  destruct (findService s (codec.Name hd)) as [[[sn|] [mn|]] [e|]]; try done.
  destruct Hs as [_ Hb]. specialize (Hb sn mn).
  destruct Hb as [m m' (Hm & Ha & Hr)|]; [|done].
  unfold newReplyv. by rewrite Hm, Ha, Hr.
Qed.

Section server_stream.
Implicit Types (w : Serving script.Codec) (req : request).

Lemma call_same_registry w sName mName m argv replyv :
  deref_method (server w) sName mName = Some m →
  ∃ srv',
    call sName mName argv replyv w
    = Some (method m argv replyv, mkServing srv' (scc w) (smu w) (wg w) (strace w))
    ∧ same_registry (server w) srv'.
Proof.
  unfold deref_method, call. unfold_S.
  destruct (serviceMap (server w) !! sName) as [sv|] eqn:Hsv; [|done].
  intros Hm. rewrite Hm. cbn. eexists. split; [reflexivity|]. split.
  - intros sn. cbn. destruct (decide (sn = sName)) as [->|Hne].
    + rewrite lookup_insert_eq, Hsv. split; eauto.
    + by rewrite lookup_insert_ne.
  - intros sn mn. unfold deref_method. cbn.
    destruct (decide (sn = sName)) as [->|Hne].
    + rewrite lookup_insert_eq, Hsv. cbn.
      destruct (decide (mn = mName)) as [->|Hnm].
      * rewrite lookup_insert_eq, Hm. constructor. done.
      * rewrite lookup_insert_ne by done. destruct (methods sv !! mn); constructor. done.
    + rewrite lookup_insert_ne by done.
      destruct (serviceMap (server w) !! sn) as [sv0|]; [|constructor].
      destruct (methods sv0 !! mn); constructor. done.
Qed.

Lemma resolves_same_registry srv s hd :
  same_registry srv s → resolves srv hd → resolves s hd.
Proof.
  intros Hs (sn & mn & mt0 & rv & Hf & Hd & Hr).
  rewrite (same_registry_findService _ _ _ Hs) in Hf.
  destruct Hs as [_ Hb]. specialize (Hb sn mn). rewrite Hd in Hb.
  inversion Hb as [? mt (Hm & Ha & Hrt) Heq1 Heq2|]; subst.
  exists sn, mn, mt, rv. split; [done|]. split; [done|].
  unfold newReplyv in *. by rewrite <- Hrt.
Qed.

(** [readRequest] on a request of the stream that resolves. *)
Lemma readRequest_stream w hd a rest ws sn mn mt rv :
  findService (server w) (codec.Name hd) = (Some sn, Some mn, None) →
  deref_method (server w) sn mn = Some mt →
  newReplyv mt = Some rv →
  scc w = script.mk (script.Hdr hd :: script.Body a :: rest) ws false →
  ∃ tr,
    readRequest w
    = Some ((Some (mkRequest hd sn mn
                     (if bool_decide (reflect.Kind_of (ArgType mt) = reflect.KPointer)
                      then reflect.Ref a else a) rv), None),
            mkServing (server w) (script.mk rest ws false) (smu w) (wg w) (strace w ++ tr))
    ∧ responses tr = [].
Proof.
  destruct w as [srv cc0 m n tr0]; cbn. intros Hf Hd Hr ->.
  unfold readRequest, readRequestHeader. unfold_S. cbn. rewrite Hf, Hd, Hr. cbn.
  unfold newArgv.
  destruct (ArgType mt) as [| | | | |] eqn:Ha; cbn;
    rewrite ?bool_decide_eq_true_2 by done; rewrite ?bool_decide_eq_false_2 by done; cbn;
    (eexists; split; [rewrite <- !app_assoc; reflexivity|reflexivity]).
Qed.

(** [handleRequest] on the script codec: what is written, and what is left
    as it was. *)
Lemma handleRequest_stream w req m n :
  smu w = false →
  wg w = S n →
  deref_method (server w) (svc req) (mType req) = Some m →
  ∃ w', handleRequest req w = Some (tt, w')
    ∧ same_registry (server w) (server w')
    ∧ smu w' = false ∧ wg w' = n
    ∧ script.incoming (scc w') = script.incoming (scc w)
    ∧ script.closed (scc w') = script.closed (scc w)
    ∧ responses (strace w')
      = responses (strace w)
        ++ match method m (argv req) (replyv req) with
           | (reply, None) => [(h req, reply)]
           | (reply, Some e) =>
               [(set_Error e (h req), invalidRequest); (set_Error e (h req), reply)]
           end.
Proof.
  intros Hmu Hwg Hm.
  destruct (call_same_registry w _ _ _ (argv req) (replyv req) Hm) as (srv' & Hrun & Hsame).
  assert (Hwi : ∀ hd body (c : script.Codec),
            script.incoming (snd (codec.Write hd body c)) = script.incoming c).
  { intros hd body c. cbn. unfold script.Write. by destruct (script.wresults c). }
  assert (Hwc : ∀ hd body (c : script.Codec),
            script.closed (snd (codec.Write hd body c)) = script.closed c).
  { intros hd body c. cbn. unfold script.Write. by destruct (script.wresults c). }
  unfold handleRequest. rewrite (bind_run _ _ _ _ _ Hrun).
  set (w1 := mkServing srv' _ _ _ _).
  destruct (method m (argv req) (replyv req)) as [reply [e|]].
  - pose proof (writeResponse_run w1 (set_Error e (h req)) invalidRequest Hmu) as Hw1.
    set (w2 := mkServing _ _ _ _ _) in Hw1.
    rewrite (bind_run _ _ _ _ _ (bind_run _ _ _ _ _ Hw1)).
    change ((mret (set_Error e (h req)) ≫= λ h0, writeResponse h0 reply ≫= λ _, wg_Done) w2)
      with ((writeResponse (set_Error e (h req)) reply ≫= λ _, wg_Done) w2).
    rewrite (bind_run _ _ _ _ _ (writeResponse_run w2 _ _ eq_refl)).
    subst w2 w1. unfold wg_Done. unfold_S. cbn [server scc smu wg strace].
    rewrite Hwg. eexists. split; [reflexivity|]. cbn [server scc smu wg strace].
    split; [done|]. split; [done|]. split; [done|].
    split; [by rewrite !Hwi|]. split; [by rewrite !Hwc|].
    unfold responses. rewrite !omap_app, <- app_assoc. done.
  - change ((mret (h req) ≫= λ h0, writeResponse h0 reply ≫= λ _, wg_Done) w1)
      with ((writeResponse (h req) reply ≫= λ _, wg_Done) w1).
    rewrite (bind_run _ _ _ _ _ (writeResponse_run w1 _ _ Hmu)).
    subst w1. unfold wg_Done. unfold_S. cbn [server scc smu wg strace].
    rewrite Hwg. eexists. split; [reflexivity|]. cbn [server scc smu wg strace].
    split; [done|]. split; [done|]. split; [done|].
    split; [by rewrite !Hwi|]. split; [by rewrite !Hwc|].
    unfold responses. rewrite omap_app. done.
Qed.

Lemma serveCodec_loop_stream srv reqs : ∀ w ws,
  same_registry srv (server w) →
  (∀ r, r ∈ reqs → resolves srv r.1) →
  smu w = false →
  wg w = 0%nat →
  scc w = script.mk (request_stream reqs) ws false →
  ∃ w',
    serveCodec_loop (S (length reqs)) w = Some (tt, w')
    ∧ same_registry srv (server w')
    ∧ smu w' = false ∧ wg w' = 0%nat
    ∧ script.incoming (scc w') = []
    ∧ script.closed (scc w') = false
    ∧ responses (strace w') = responses (strace w) ++ (reqs ≫= λ r, answer srv r.1 r.2).
Proof.
  induction reqs as [|[hd a] reqs IH]; intros w ws Hsame Hres Hmu Hwg Hcc.
  - destruct w as [s0 cc0 m0 n0 tr0]; cbn in *. subst.
    eexists. split.
    { unfold readRequest, readRequestHeader. unfold_S. cbn. reflexivity. }
    cbn [server scc smu wg strace script.incoming script.closed request_stream mbind list_bind].
    split; [done|]. split; [done|]. split; [done|]. split; [done|]. split; [done|].
    unfold responses. rewrite omap_app. cbn. by rewrite !app_nil_r.
  - pose proof (resolves_same_registry _ _ _ Hsame (Hres (hd, a) ltac:(left)))
      as (sn & mn & mt & rv & Hf & Hd & Hr).
    destruct (readRequest_stream w hd a (request_stream reqs) ws sn mn mt rv Hf Hd Hr Hcc)
      as (tr & Hread & Htr).
    set (req := mkRequest _ _ _ _ _) in Hread.
    set (w1 := mkServing _ _ _ _ _) in Hread.
    set (w2 := mkServing (server w1) (scc w1) (smu w1) (wg w1 + 1) (strace w1)).
    destruct (handleRequest_stream w2 req mt 0) as (w3 & Hh & Hsame3 & Hmu3 & Hwg3 & Hi3 & Hc3 & Hresp3).
    { done. } { subst w2 w1. cbn. rewrite Hwg. done. } { done. }
    destruct (IH w3 (script.wresults (scc w3))) as (w' & Hloop & Hsame' & Hmu' & Hwg' & Hi' & Hc' & Hresp').
    { eapply same_registry_trans; [exact Hsame|exact Hsame3]. }
    { intros r Hr'. apply Hres. by right. }
    { done. } { done. }
    { destruct (scc w3) as [i3 ws3 c3]; cbn in *. by subst. }
    exists w'. split.
    { cbn [serveCodec_loop length]. rewrite (bind_run _ _ _ _ _ Hread). cbn beta iota.
      unfold wg_Add, go. unfold modify. unfold mbind at 1 2, M_bind at 1 2.
      fold w2. rewrite Hh. exact Hloop. }
    split; [done|]. split; [done|]. split; [done|]. split; [done|]. split; [done|].
    rewrite Hresp', Hresp3. subst w2 w1. cbn [strace].
    rewrite responses_app, Htr, app_nil_r, <- app_assoc. f_equal.
    cbn [mbind list_bind]. f_equal. cbn [fst snd] in *.
    rewrite (same_registry_answer _ _ hd a Hsame). unfold answer.
    rewrite Hf, Hd, Hr. subst req. cbn. by destruct (method mt _ rv) as [reply [e|]].
Qed.


(** With every handler run to its end where it is started, the requests
    are answered in the order of the stream. *)
Lemma serveCodec_inline_stream srv reqs ws :
  (∀ r, r ∈ reqs → resolves srv r.1) →
  ∃ w',
    serveCodec (S (length reqs))
      (mkServing srv (script.mk (request_stream reqs) ws false) false 0 [])
    = Some (tt, w')
    ∧ responses (strace w') = reqs ≫= (λ r, answer srv r.1 r.2)
    ∧ script.incoming (scc w') = []
    ∧ script.closed (scc w') = true
    ∧ same_registry srv (server w').
Proof.
  intros Hres.
  destruct (serveCodec_loop_stream srv reqs
              (mkServing srv (script.mk (request_stream reqs) ws false) false 0 []) ws)
    as (w1 & Hloop & Hsame & Hmu & Hwg & Hi & Hc & Hresp); try done.
  { apply same_registry_refl. }
  unfold serveCodec. rewrite (bind_run _ _ _ _ _ Hloop).
  destruct w1 as [s1 cc1 m1 n1 tr1]; cbn in *. subst.
  unfold wg_Wait, scc_Close. unfold_S. cbn. eexists. split; [reflexivity|]. cbn.
  split; [|done]. unfold responses in *. rewrite omap_app, Hresp. cbn. by rewrite app_nil_r.
Qed.

End server_stream.

(** ** Goroutines that take turns *)

Lemma run_sched_app {St} sched1 sched2 (ps : list (prog St)) s ps1 s1 :
  run_sched sched1 ps s = Some (ps1, s1) →
  run_sched (sched1 ++ sched2) ps s = run_sched sched2 ps1 s1.
Proof.
  revert ps s. induction sched1 as [|i sched1 IH]; intros ps s; cbn.
  - by intros [= -> ->].
  - destruct (step_at i ps s) as [[ps' s']|]; [|done]. apply IH.
Qed.

Lemma run_prog_sched {St} (p : prog St) : ∀ ps i s s',
  ps !! i = Some p →
  run_prog p s = Some (tt, s') →
  ∃ sched n,
    run_sched sched ps s = Some (<[i := Stop]> ps ++ replicate n Stop, s').
Proof.
  induction p as [|A a k IH|child IHc k IHk]; intros ps i s s' Hi Hrun.
  - exists [], 0%nat. cbn in *. injection Hrun as <-.
    by rewrite app_nil_r, list_insert_id.
  - cbn in Hrun. unfold mbind, M_bind in Hrun.
    destruct (a s) as [[x s1]|] eqn:Ha; [|done].
    destruct (IH x (<[i := k x]> ps) i s1 s') as (sched & n & Hs); [|done|].
    { apply list_lookup_insert_eq. by eapply lookup_lt_Some. }
    exists (i :: sched), n. cbn. unfold step_at. rewrite Hi, Ha.
    by rewrite Hs, list_insert_insert_eq.
  - cbn in Hrun. unfold mbind, M_bind in Hrun.
    destruct (run_prog child s) as [[[] s1]|] eqn:Hc; [|done].
    pose proof (lookup_lt_Some _ _ _ Hi) as Hlt.
    destruct (IHc (<[i := k]> ps ++ [child]) (length ps) s s1) as (sched1 & n1 & Hs1); [|done|].
    { rewrite lookup_app_r by (rewrite length_insert; lia).
      rewrite length_insert, Nat.sub_diag. done. }
    destruct (IHk (<[length ps := Stop]> (<[i := k]> ps ++ [child]) ++ replicate n1 Stop)
                i s1 s') as (sched2 & n2 & Hs2); [|done|].
    { rewrite lookup_app_l by (rewrite length_insert, length_app, length_insert; cbn; lia).
      rewrite list_lookup_insert_ne by lia.
      rewrite lookup_app_l by (rewrite length_insert; lia).
      apply list_lookup_insert_eq. done. }
    exists (i :: sched1 ++ sched2), (S n1 + n2)%nat. cbn [run_sched]. unfold step_at. rewrite Hi.
    rewrite (run_sched_app _ _ _ _ _ _ Hs1), Hs2. f_equal. f_equal.
    rewrite (insert_app_r_alt _ _ (length ps)) by (rewrite length_insert; lia).
    rewrite length_insert, Nat.sub_diag. cbn.
    rewrite <- !app_assoc. rewrite insert_app_l by (rewrite length_insert; lia).
    rewrite list_insert_insert_eq. cbn.
    rewrite <- app_assoc. cbn. by rewrite replicate_add.
Qed.

Section server_steps_facts.
Context {C : Type} `{!codec.Codec C}.
Implicit Types (w : Serving C).

Lemma writeResponse_prog_run hd body k w :
  run_prog (writeResponse_prog hd body k) w = (writeResponse hd body;; run_prog k) w.
Proof.
  unfold writeResponse_prog, writeResponse. cbn [run_prog]. unfold mbind, M_bind.
  destruct (mu_Lock w) as [[[] w1]|]; [|reflexivity].
  destruct (scc_Write hd body w1) as [[r w2]|]; [|reflexivity].
  destruct (mu_Unlock w2) as [[[] w3]|]; reflexivity.
Qed.

Lemma handleRequest_prog_run req w :
  run_prog (handleRequest_prog req) w = handleRequest req w.
Proof.
  unfold handleRequest_prog, handleRequest. cbn [run_prog].
  unfold mbind, M_bind.
  destruct (call (svc req) (mType req) (argv req) (replyv req) w) as [[[rv [e|]] w1]|];
    [| |reflexivity].
  - rewrite writeResponse_prog_run. unfold mbind, M_bind.
    destruct (writeResponse (set_Error e (h req)) invalidRequest w1) as [[[] w2]|];
      [|reflexivity].
    rewrite writeResponse_prog_run. unfold mbind, M_bind. cbn.
    destruct (writeResponse (set_Error e (h req)) rv w2) as [[[] w3]|]; [|reflexivity].
    unfold mbind, M_bind. by destruct (wg_Done w3) as [[[] w4]|].
  - rewrite writeResponse_prog_run. unfold mbind, M_bind. cbn.
    destruct (writeResponse (h req) rv w1) as [[[] w2]|]; [|reflexivity].
    unfold mbind, M_bind. by destruct (wg_Done w2) as [[[] w3]|].
Qed.

Lemma readRequest_prog_run k w :
  run_prog (readRequest_prog k) w = (readRequest ≫= λ r, run_prog (k r)) w.
Proof.
  unfold readRequest_prog, readRequest. cbn [run_prog].
  unfold mbind, M_bind.
  destruct (readRequestHeader w) as [[[[hd|] [e|]] w1]|]; try reflexivity.
Qed.

Lemma serveCodec_loop_prog_run fuel after : ∀ w,
  run_prog (serveCodec_loop_prog fuel after) w = (serveCodec_loop fuel;; run_prog after) w.
Proof.
  induction fuel as [|fuel IH]; intros w; [reflexivity|].
  cbn [serveCodec_loop_prog serveCodec_loop]. rewrite readRequest_prog_run.
  unfold mbind, M_bind.
  destruct (readRequest w) as [[[[req|] [e|]] w1]|]; try reflexivity.
  - cbn [serveCodec_dispatch run_prog]. unfold go. unfold mbind, M_bind.
    rewrite writeResponse_prog_run. unfold mbind, M_bind.
    destruct (writeResponse (set_Error e (h req)) invalidRequest w1) as [[[] w2]|];
      [|reflexivity].
    cbn. rewrite IH. reflexivity.
  - cbn [serveCodec_dispatch run_prog]. unfold go. unfold mbind, M_bind.
    destruct (wg_Add 1 w1) as [[[] w2]|]; [|reflexivity].
    rewrite handleRequest_prog_run.
    destruct (handleRequest req w2) as [[[] w3]|]; [|reflexivity].
    rewrite IH. reflexivity.
Qed.

Lemma serveCodec_prog_run fuel w :
  run_prog (serveCodec_prog fuel) w = serveCodec fuel w.
Proof.
  unfold serveCodec_prog, serveCodec. rewrite serveCodec_loop_prog_run.
  unfold mbind, M_bind.
  destruct (serveCodec_loop fuel w) as [[[] w1]|]; [|reflexivity].
  cbn [run_prog]. unfold mbind, M_bind.
  destruct (wg_Wait w1) as [[[] w2]|]; [|reflexivity].
  by destruct (scc_Close w2) as [[r w3]|].
Qed.

End server_steps_facts.

Lemma woven_grow {A} (ls : list (list A)) out : woven ls out → woven (ls ++ [[]]) out.
Proof.
  induction 1 as [ls Hls|l1 l l2 out x _ IH].
  - apply woven_nil. apply Forall_app. split; [done|]. by constructor.
  - rewrite <- app_assoc in *. cbn in *. by apply woven_snoc.
Qed.

Lemma woven_Permutation {A} (ls : list (list A)) out : woven ls out → concat ls ≡ₚ out.
Proof.
  induction 1 as [ls Hls|l1 l l2 out x _ IH].
  - induction Hls as [|l ls -> _ IH]; [done|]. exact IH.
  - rewrite concat_app in *. cbn in *. rewrite <- IH. solve_Permutation.
Qed.

Lemma step_at_0_Act {St A} (a : M St A) k (ps : list (prog St)) s :
  step_at 0 (Act a k :: ps) s
  = match a s with Some (x, s') => Some (k x :: ps, s') | None => None end.
Proof. reflexivity. Qed.

Lemma step_at_S_Act {St A} p0 (l1 l2 : list (prog St)) (a : M St A) k s :
  step_at (S (length l1)) (p0 :: l1 ++ Act a k :: l2) s
  = match a s with Some (x, s') => Some (p0 :: l1 ++ k x :: l2, s') | None => None end.
Proof.
  unfold step_at.
  change ((p0 :: l1 ++ Act a k :: l2) !! S (length l1))
    with ((l1 ++ Act a k :: l2) !! length l1).
  rewrite list_lookup_middle by done.
  destruct (a s) as [[x s']|]; [|done]. f_equal. f_equal.
  change (<[S (length l1) := k x]> (p0 :: l1 ++ Act a k :: l2))
    with (p0 :: <[length l1 := k x]> (l1 ++ Act a k :: l2)).
  f_equal. rewrite insert_app_r_alt by lia. by rewrite Nat.sub_diag.
Qed.

Lemma step_at_S_Stop {St} p0 (l1 l2 : list (prog St)) s :
  step_at (S (length l1)) (p0 :: l1 ++ Stop :: l2) s = None.
Proof.
  unfold step_at.
  change ((p0 :: l1 ++ Stop :: l2) !! S (length l1)) with ((l1 ++ Stop :: l2) !! length l1).
  by rewrite list_lookup_middle.
Qed.

Ltac inv_simple :=
  try done;
  try (unfold responses in *; rewrite ?omap_app; cbn; rewrite ?app_nil_r; done);
  try (cbn in *; lia).

Lemma sum_list_with_pos {A} (f : A → nat) (l : list A) :
  (0 < sum_list_with f l)%nat → ∃ l1 e l2, l = l1 ++ e :: l2 ∧ (0 < f e)%nat.
Proof.
  induction l as [|x l IH]; cbn; [lia|]. intros Hpos.
  destruct (decide (0 < f x)%nat) as [Hx|Hx].
  - by exists [], x, l.
  - destruct IH as (l1 & e & l2 & -> & He); [lia|]. by exists (x :: l1), e, l2.
Qed.

Section server_sched.
Variable srv : Server.
Variable reqs : list resp.
Hypothesis Hres : ∀ r, r ∈ reqs → resolves srv r.1.
Implicit Types (w : Serving script.Codec) (req : request) (ms : loop_place).

Lemma readRequest_body_stream w hd a rest :
  same_registry srv (server w) →
  resolves srv hd →
  script.incoming (scc w) = script.Body a :: rest →
  ∃ req tr,
    readRequest_body hd w
    = Some ((Some req, None),
            mkServing (server w)
              (script.mk rest (script.wresults (scc w)) (script.closed (scc w)))
              (smu w) (wg w) (strace w ++ tr))
    ∧ responses tr = []
    ∧ req_ok srv (hd, a) req.
Proof.
  intros Hsame Hr Hinc.
  destruct Hr as (sn & mn & mt0 & rv & Hf0 & Hd0 & Hr0).
  pose proof Hf0 as Hf. rewrite (same_registry_findService _ _ _ Hsame) in Hf.
  destruct Hsame as [_ Hb]. specialize (Hb sn mn). rewrite Hd0 in Hb.
  inversion Hb as [? mt (Hm & Ha & Hrt) Heq1 Heq2|]; subst.
  assert (Hr : newReplyv mt = Some rv) by (unfold newReplyv in *; by rewrite <- Hrt).
  destruct w as [s0 [inc ws cl] m n tr0]; cbn in *. subst inc.
  symmetry in Heq2.
  unfold readRequest_body. unfold_S. cbn. rewrite Hf, Heq2, Hr. cbn.
  unfold newArgv.
  assert (Hans : ∀ argv,
    argv = (if bool_decide (reflect.Kind_of (ArgType mt) = reflect.KPointer)
            then reflect.Ref a else a) →
    req_ok srv (hd, a) (mkRequest hd sn mn argv rv)).
  { intros argv ->. exists mt0. split; [done|]. cbn.
    unfold answer. rewrite Hf0, Hd0, Hr0. rewrite Ha.
    by destruct (method mt0 _ rv) as [reply [e|]]. }
  destruct (ArgType mt) as [| | | | |] eqn:HA; cbn;
    rewrite ?bool_decide_eq_true_2 by done; rewrite ?bool_decide_eq_false_2 by done; cbn;
    (eexists _, _; split; [rewrite <- ?app_assoc; reflexivity|split; [reflexivity|]]);
    apply Hans; rewrite ?bool_decide_eq_true_2 by done;
    rewrite ?bool_decide_eq_false_2 by done; reflexivity.
Qed.

Lemma inv_step_main ms hl ps w ps' w' :
  inv_at srv reqs ms hl ps w →
  step_at 0 ps w = Some (ps', w') →
  ∃ ms' hl', inv_at srv reqs ms' hl' ps' w' ∧ (steps_left ms' hl' < steps_left ms hl)%nat.
Proof using Hres.
  intros [Hpool Hreqs Hhok Hmok Hwov Hreg Hinc Hcl Hmu Hwg Hj Hlast] Hstep. subst ps.
  unfold steps_left.
  destruct ms as [rs|hd a rs|req r rs|req r rs| | |].
  - (* the header *)
    unfold loop_prog, loop_at in Hstep. cbn [serveCodec_loop_prog] in Hstep.
    unfold readRequest_prog in Hstep. rewrite step_at_0_Act in Hstep.
    destruct w as [s0 [inc ws cl] m n tr]. cbn in Hinc, Hcl, Hmu, Hwg, Hwov, Hreg. subst inc cl.
    destruct rs as [|[hd a] rs].
    + cbn in Hstep. injection Hstep as <- <-.
      exists MWait, hl. split; [|cbn; lia]. split; cbn; inv_simple.
    + cbn in Hstep. injection Hstep as <- <-.
      exists (MBody hd a rs), hl. split; [|cbn; lia]. split; cbn; inv_simple.
  - (* the body *)
    unfold loop_prog in Hstep. rewrite step_at_0_Act in Hstep.
    destruct (readRequest_body_stream w hd a (request_stream rs)) as (req & tr & Hrun & Htr & Hok);
      [done| |done|].
    { apply (Hres (hd, a)). rewrite Hreqs. apply elem_of_app. right. left. }
    rewrite Hrun in Hstep. cbn in Hstep. injection Hstep as <- <-.
    exists (MAdd req (hd, a) rs), hl. split; [|cbn; lia]. split; cbn; inv_simple.
    unfold responses in *. by rewrite omap_app, Htr, app_nil_r.
  - (* wg.Add(1) *)
    unfold loop_prog in Hstep. rewrite step_at_0_Act in Hstep.
    cbn in Hstep. injection Hstep as <- <-.
    exists (MSpawn req r rs), hl. split; [|cbn; lia]. split; cbn; inv_simple.
  - (* go handleRequest *)
    cbn in Hstep. injection Hstep as <- <-.
    exists (MHeader rs), (hl ++ [(HCall req, [], r)]).
    split; [|rewrite sum_list_with_app; cbn; lia]. split; cbn; inv_simple.
    + by rewrite fmap_app.
    + rewrite fmap_app, <- app_assoc. done.
    + apply Forall_app. split; [done|]. constructor; [|done]. split; [done|exact Hmok].
    + rewrite !fmap_app. cbn. by apply woven_grow.
    + rewrite sum_list_with_app. cbn in *. lia.
    + rewrite sum_list_with_app. cbn in *. lia.
  - (* wg.Wait() *)
    unfold loop_prog, after_loop in Hstep. rewrite step_at_0_Act in Hstep.
    destruct w as [s0 c0 m n tr]. cbn in Hwg. unfold wg_Wait in Hstep. unfold_S. cbn in Hstep.
    destruct n as [|n]; [|done]. injection Hstep as <- <-.
    exists MClose, hl. split; [|cbn; lia]. split; cbn; inv_simple.
  - (* cc.Close() *)
    unfold loop_prog in Hstep. rewrite step_at_0_Act in Hstep.
    destruct w as [s0 [inc ws cl] m n tr]. cbn in *. injection Hstep as <- <-.
    exists MStop, hl. split; [|cbn; lia]. split; cbn; inv_simple.
    intros _. by eexists.
  - done.
Qed.

Lemma inv_step_handler ms l1 e l2 ps w ps' w' :
  inv_at srv reqs ms (l1 ++ e :: l2) ps w →
  step_at (S (length l1)) ps w = Some (ps', w') →
  ∃ e', inv_at srv reqs ms (l1 ++ e' :: l2) ps' w' ∧ (hsteps e' < hsteps e)%nat.
Proof using Hres.
  intros [Hpool Hreqs Hhok Hmok Hwov Hreg Hinc Hcl Hmu Hwg Hj Hlast] Hstep. subst ps.
  rewrite fmap_app, fmap_cons in Hstep.
  rewrite <- (length_fmap (λ e, handler_prog e.1.1) l1) in Hstep.
  rewrite !fmap_app, !fmap_cons in Hreqs. rewrite !fmap_app, !fmap_cons in Hwov.
  apply Forall_app in Hhok as [Hhok1 Hhok]. apply Forall_cons in Hhok as [Hok Hhok2].
  rewrite sum_list_with_app in Hmu, Hwg. cbn [sum_list_with] in Hmu, Hwg.
  destruct e as [[hs past] r]. unfold hok in Hok. unfold live at 2 in Hwg.
  unfold holding at 2 in Hmu. cbn [fst snd] in *.
  assert (Hnj : hs ≠ HStop → joined ms = false).
  { intros Hhs. destruct (joined ms); [|done]. specialize (Hj eq_refl).
    rewrite Hj in Hwg. destruct hs; try done; lia. }
  assert (Hnc : joined ms = false → closed_of ms = false) by (by destruct ms).
  assert (Hgoal : ∀ hs' past' w1,
    ps' = loop_prog ms :: ((λ e, handler_prog e.1.1) <$> l1) ++ handler_prog hs'
                   :: ((λ e, handler_prog e.1.1) <$> l2) →
    w' = w1 →
    joined ms = false →
    hok srv (hs', past', r) →
    woven (l1.*1.*2 ++ past' :: l2.*1.*2) (responses (strace w1)) →
    same_registry srv (server w1) →
    script.incoming (scc w1) = stream ms →
    script.closed (scc w1) = closed_of ms →
    (sum_list_with holding l1 + (holding (hs', past', r) + sum_list_with holding l2)
     = if smu w1 then 1 else 0)%nat →
    (wg w1 = sum_list_with live l1 + (live (hs', past', r) + sum_list_with live l2)
             + spawning ms)%nat →
    (hsteps (hs', past', r) < hsteps (hs, past, r))%nat →
    ∃ e', inv_at srv reqs ms (l1 ++ e' :: l2) ps' w' ∧ (hsteps e' < hsteps (hs, past, r))%nat).
  { intros hs' past' w1 -> -> Hjj ? ? ? ? ? ? ? ?. exists (hs', past', r). split; [|done].
    split; rewrite ?fmap_app, ?fmap_cons, ?sum_list_with_app; cbn [sum_list_with fst snd];
      try done.
    - apply Forall_app. split; [done|]. by apply Forall_cons.
    - by rewrite Hjj.
    - by rewrite (Hnc Hjj). }
  destruct hs as [req|[|o outs]|o outs|outs|]; cbn [handler_prog writes_prog] in Hstep.
  - (* the call *)
    unfold handleRequest_prog in Hstep. rewrite step_at_S_Act in Hstep.
    destruct Hok as [-> (m & Hm & Hans)].
    pose proof Hreg as [_ Hb]. specialize (Hb (svc req) (mType req)). rewrite Hm in Hb.
    inversion Hb as [? m' (Hmm & _ & _) Heq1 Heq2|]; subst. symmetry in Heq2.
    destruct (call_same_registry w _ _ _ (argv req) (replyv req) Heq2)
      as (srv' & Hrun & Hsame).
    rewrite Hrun in Hstep. injection Hstep as <- <-.
    apply (Hgoal (HLock (outs_of (h req) (method m' (argv req) (replyv req)))) []
                 (mkServing srv' (scc w) (smu w) (wg w) (strace w)));
      cbn [server scc smu wg strace]; try done.
    + by destruct (method m' (argv req) (replyv req)) as [reply [e|]].
    + by apply Hnj.
    + unfold hok. cbn. by rewrite <- Hmm.
    + by eapply same_registry_trans.
    + unfold hsteps. cbn. destruct (method m' (argv req) (replyv req)) as [reply [e|]]; cbn; lia.
  - (* wg.Done() *)
    rewrite step_at_S_Act in Hstep.
    destruct w as [s0 c0 m n tr]. cbn [server scc smu wg strace] in *.
    unfold wg_Done in Hstep. unfold_S. cbn in Hstep.
    destruct n as [|n]; [done|]. injection Hstep as <- <-.
    apply (Hgoal HStop past (mkServing s0 c0 m n tr));
      cbn [server scc smu wg strace]; try done.
    + by apply Hnj.
    + unfold hok. cbn. by rewrite app_nil_r in Hok.
    + change (live (HStop, past, r)) with 0%nat. lia.
    + unfold hsteps. cbn. lia.
  - (* mu.Lock() *)
    unfold writeResponse_prog in Hstep. rewrite step_at_S_Act in Hstep.
    destruct w as [s0 c0 m n tr]. cbn [server scc smu wg strace] in *.
    unfold mu_Lock in Hstep. unfold_S. cbn in Hstep.
    destruct m; [done|]. injection Hstep as <- <-.
    apply (Hgoal (HWrite o outs) past (mkServing s0 c0 true n (tr ++ [EvLock ()])));
      cbn [server scc smu wg strace]; try done.
    + by apply Hnj.
    + by rewrite responses_app, app_nil_r.
    + change (holding (HWrite o outs, past, r)) with 1%nat. lia.
    + unfold hsteps. cbn. lia.
  - (* cc.Write *)
    rewrite step_at_S_Act in Hstep.
    destruct w as [s0 [inc ws cl] m n tr]. destruct o as [hd body].
    cbn [server scc smu wg strace script.incoming script.closed fst snd] in *.
    unfold scc_Write in Hstep. unfold_S. cbn in Hstep.
    unfold script.Write in Hstep. cbn in Hstep.
    destruct ws as [|r0 ws]; cbn in Hstep; injection Hstep as <- <-.
    + apply (Hgoal (HUnlock outs) (past ++ [(hd, body)])
               (mkServing s0 (script.mk inc [] cl) m n (tr ++ [EvWrite hd body None])));
        cbn [server scc smu wg strace script.incoming script.closed]; try done.
      * by apply Hnj.
      * unfold hok. cbn. by rewrite <- app_assoc.
      * rewrite responses_app. cbn. by apply woven_snoc.
      * unfold hsteps. cbn. lia.
    + apply (Hgoal (HUnlock outs) (past ++ [(hd, body)])
               (mkServing s0 (script.mk inc ws cl) m n (tr ++ [EvWrite hd body r0])));
        cbn [server scc smu wg strace script.incoming script.closed]; try done.
      * by apply Hnj.
      * unfold hok. cbn. by rewrite <- app_assoc.
      * rewrite responses_app. cbn. by apply woven_snoc.
      * unfold hsteps. cbn. lia.
  - (* mu.Unlock() *)
    rewrite step_at_S_Act in Hstep.
    destruct w as [s0 c0 m n tr]. cbn [server scc smu wg strace] in *.
    unfold mu_Unlock in Hstep. unfold_S. cbn in Hstep.
    destruct m; [|done]. injection Hstep as <- <-.
    apply (Hgoal (HLock outs) past (mkServing s0 c0 false n (tr ++ [EvUnlock ()])));
      cbn [server scc smu wg strace]; try done.
    + by apply Hnj.
    + by rewrite responses_app, app_nil_r.
    + change (holding (HLock outs, past, r)) with 0%nat. lia.
    + unfold hsteps. cbn. lia.
  - by rewrite step_at_S_Stop in Hstep.
Qed.

Lemma inv_step ms hl ps w i ps' w' :
  inv_at srv reqs ms hl ps w →
  step_at i ps w = Some (ps', w') →
  ∃ ms' hl', inv_at srv reqs ms' hl' ps' w' ∧ (steps_left ms' hl' < steps_left ms hl)%nat.
Proof using Hres.
  intros Hinv Hstep. destruct i as [|j]; [by eapply inv_step_main|].
  destruct (hl !! j) as [e|] eqn:He.
  - apply list_elem_of_split_length in He as (l1 & l2 & -> & ->).
    destruct (inv_step_handler _ _ _ _ _ _ _ _ Hinv Hstep) as (e' & He' & Hlt).
    exists ms, (l1 ++ e' :: l2). split; [done|].
    unfold steps_left. rewrite !sum_list_with_app. cbn. lia.
  - pose proof (inv_pool _ _ _ _ _ _ Hinv) as ->.
    unfold step_at in Hstep.
    change ((loop_prog ms :: ((λ e, handler_prog e.1.1) <$> hl)) !! S j)
      with (((λ e, handler_prog e.1.1) <$> hl) !! j) in Hstep.
    by rewrite list_lookup_fmap, He in Hstep.
Qed.

Lemma inv_reach sched : ∀ ms hl ps w ps' w',
  inv_at srv reqs ms hl ps w →
  run_sched sched ps w = Some (ps', w') →
  ∃ ms' hl', inv_at srv reqs ms' hl' ps' w'
             ∧ (length sched + steps_left ms' hl' ≤ steps_left ms hl)%nat.
Proof using Hres.
  induction sched as [|i sched IH]; intros ms hl ps w ps' w' Hinv Hrun.
  - injection Hrun as <- <-. exists ms, hl. split; [done|]. cbn. lia.
  - cbn in Hrun. destruct (step_at i ps w) as [[ps1 w1]|] eqn:Hstep; [|done].
    destruct (inv_step _ _ _ _ _ _ _ Hinv Hstep) as (ms1 & hl1 & Hinv1 & Hlt).
    destruct (IH _ _ _ _ _ _ Hinv1 Hrun) as (ms2 & hl2 & Hinv2 & Hle).
    exists ms2, hl2. split; [done|]. cbn. lia.
Qed.

Lemma inv_init ws :
  inv_at srv reqs (MHeader reqs) [] [serveCodec_prog (S (length reqs))]
    (mkServing srv (script.mk (request_stream reqs) ws false) false 0 []).
Proof.
  split; cbn; try done.
  - apply woven_nil. constructor.
  - apply same_registry_refl.
Qed.

Lemma handler_prog_Stop hs : is_Stop (handler_prog hs) = true → hs = HStop.
Proof. by destruct hs as [?|[|??]|??|?|]. Qed.

Lemma inv_finished ms hl ps w :
  inv_at srv reqs ms hl ps w →
  finished ps = true →
  woven ((λ r, answer srv r.1 r.2) <$> reqs) (responses (strace w))
  ∧ script.incoming (scc w) = []
  ∧ script.closed (scc w) = true
  ∧ same_registry srv (server w)
  ∧ smu w = false ∧ wg w = 0%nat
  ∧ ∃ tr, strace w = tr ++ [EvClose].
Proof using Hres.
  intros [Hpool Hreqs Hhok Hmok Hwov Hreg Hinc Hcl Hmu Hwg Hj Hlast] Hfin. subst ps.
  cbn in Hfin. apply andb_true_iff in Hfin as [Hm Hh].
  assert (ms = MStop) as -> by (by destruct ms).
  assert (Hall : Forall (λ e, e.1.1 = HStop) hl).
  { apply Forall_forall. intros e He.
    rewrite forallb_forall in Hh. apply handler_prog_Stop, Hh, list_elem_of_In.
    apply list_elem_of_fmap. by exists e. }
  cbn in *. rewrite app_nil_r in Hreqs.
  assert (Hpast : hl.*1.*2 = (λ r, answer srv r.1 r.2) <$> reqs).
  { subst reqs. clear -Hall Hhok. induction hl as [|[[hs past] r] hl IH]; [done|].
    apply Forall_cons in Hall as [Hs Hall]. apply Forall_cons in Hhok as [Hok Hhok].
    cbn in *. subst hs. unfold hok in Hok. cbn in Hok. subst past. f_equal. by apply IH. }
  rewrite <- Hpast. split; [done|]. split; [done|]. split; [done|]. split; [done|].
  assert (Hh0 : sum_list_with holding hl = 0%nat).
  { clear -Hall. induction Hall as [|[[hs past] r] hl Hs _ IH]; [done|].
    cbn in *. subst hs. exact IH. }
  rewrite Hh0 in Hmu. split; [by destruct (smu w)|]. split; [by apply Hj|by apply Hlast].
Qed.

Lemma step_handler_enabled ms l1 e l2 w :
  inv_at srv reqs ms (l1 ++ e :: l2) (loop_prog ms :: ((λ e, handler_prog e.1.1) <$> l1 ++ e :: l2)) w →
  (0 < wg w)%nat →
  (if smu w then 0 < holding e else 0 < live e)%nat →
  is_Some (step_at (S (length l1)) (loop_prog ms :: ((λ e, handler_prog e.1.1) <$> l1 ++ e :: l2)) w).
Proof.
  intros [_ Hreqs Hhok Hmok Hwov Hreg Hinc Hcl Hmu Hwg Hj Hlast] Hpos He.
  rewrite fmap_app, fmap_cons. rewrite <- (length_fmap (λ e, handler_prog e.1.1) l1).
  apply Forall_app in Hhok as [_ Hhok]. apply Forall_cons in Hhok as [Hok _].
  rewrite sum_list_with_app in Hmu. cbn [sum_list_with] in Hmu.
  destruct e as [[hs past] r]. unfold hok in Hok. cbn [fst snd] in *.
  destruct w as [s0 c0 m n tr]. cbn [server scc smu wg strace] in *.
  destruct hs as [req|[|o outs]|o outs|outs|]; cbn [handler_prog writes_prog].
  - unfold handleRequest_prog. rewrite step_at_S_Act.
    destruct Hok as [_ (m0 & Hm & _)].
    pose proof Hreg as [_ Hb]. specialize (Hb (svc req) (mType req)). rewrite Hm in Hb.
    destruct (deref_method s0 (svc req) (mType req)) as [m'|] eqn:Heq2; [|inversion Hb].
    destruct (call_same_registry (mkServing s0 c0 m n tr) _ _ _ (argv req) (replyv req) Heq2)
      as (srv' & Hrun & _).
    rewrite Hrun. eauto.
  - rewrite step_at_S_Act. unfold wg_Done. unfold_S. cbn.
    destruct n as [|n]; [lia|]. eauto.
  - unfold writeResponse_prog. rewrite step_at_S_Act. unfold mu_Lock. unfold_S. cbn.
    destruct m; [|eauto]. unfold holding in He. cbn in He. lia.
  - rewrite step_at_S_Act. unfold scc_Write. unfold_S. cbn.
    destruct (script.Write o.1 o.2 c0) as [r0 c1]. cbn. eauto.
  - rewrite step_at_S_Act. unfold mu_Unlock. unfold_S. cbn.
    destruct m; [eauto|]. unfold holding at 2 in Hmu. cbn in Hmu. lia.
  - destruct m; [unfold holding in He|unfold live in He]; cbn in He; lia.
Qed.

Lemma inv_progress ms hl ps w :
  inv_at srv reqs ms hl ps w →
  finished ps = false →
  ∃ i, is_Some (step_at i ps w).
Proof using Hres.
  intros Hinv Hfin. pose proof Hinv as [Hpool Hreqs Hhok Hmok Hwov Hreg Hinc Hcl Hmu Hwg Hj Hlast].
  subst ps.
  destruct ms as [rs|hd a rs|req r rs|req r rs| | |].
  - exists 0%nat. unfold loop_prog, loop_at. cbn [serveCodec_loop_prog].
    unfold readRequest_prog. rewrite step_at_0_Act.
    unfold readRequestHeader. unfold_S.
    destruct (codec.ReadHeader (scc w)) as [[e|hd] c1]; cbn; eauto.
  - exists 0%nat. unfold loop_prog. rewrite step_at_0_Act.
    destruct (readRequest_body_stream w hd a (request_stream rs)) as (req & tr & Hrun & _);
      [done| |done|].
    { apply (Hres (hd, a)). rewrite Hreqs. apply elem_of_app. right. left. }
    rewrite Hrun. eauto.
  - exists 0%nat. cbn. eauto.
  - exists 0%nat. cbn. eauto.
  - destruct (wg w) as [|n] eqn:Hn.
    { exists 0%nat. unfold loop_prog, after_loop. rewrite step_at_0_Act.
      unfold wg_Wait. unfold_S. rewrite Hn. eauto. }
    cbn in Hwg.
    assert (∃ l1 e l2, hl = l1 ++ e :: l2
                       ∧ (if smu w then 0 < holding e else 0 < live e)%nat)
      as (l1 & e & l2 & -> & He).
    { destruct (smu w).
      - apply sum_list_with_pos. lia.
      - apply sum_list_with_pos. lia. }
    exists (S (length l1)). apply step_handler_enabled; [done|lia|done].
  - exists 0%nat. cbn. unfold scc_Close. unfold_S.
    destruct (codec.Close (scc w)) as [r c1]. cbn. eauto.
  - exfalso. specialize (Hj eq_refl). rewrite Hj in Hwg. cbn in Hwg, Hfin.
    assert (Hall : forallb is_Stop ((λ e, handler_prog e.1.1) <$> hl) = true); [|congruence].
    assert (Hl : sum_list_with live hl = 0%nat) by lia.
    clear -Hl. induction hl as [|[[hs past] r] hl IH]; [done|].
    cbn in *. unfold live at 1 in Hl. cbn in Hl. destruct hs; try lia. cbn. by apply IH.
Qed.

End server_sched.

Lemma concat_fmap_bind {A B} (f : A → list B) (l : list A) : concat (f <$> l) = l ≫= f.
Proof. induction l as [|x l IH]; [done|]. cbn. by rewrite IH. Qed.

(** X20.  A stream of requests that resolve is served to its end, in
    whatever order the goroutines take their steps.  [serveCodec] is the
    program [serveCodec_prog] with every goroutine run where it is started.
    Let the goroutines of that program (the loop, and a handler for each
    request) take their steps in any order [sched], on a codec whose peer
    sends the requests [reqs].  The schedule is no longer than twelve steps
    for each request and three; as long as a goroutine has not returned,
    one of them can take a step; and when all have returned, the responses
    that were written are woven from the answers to the requests: each
    request has its own answer (one response; for a method that returns an
    error the placeholder and then the reply, both with the error text),
    the answers interleaved in any way.  The stream has then been read to
    its end and the codec closed, after the last response.  Some schedule
    does run every goroutine to its end. *)
Theorem serveCodec_answers_stream srv reqs ws :
  (∀ r, r ∈ reqs → resolves srv r.1) →
  let fuel := S (length reqs) in
  let w0 := mkServing srv (script.mk (request_stream reqs) ws false) false 0 [] in
  (∀ w : Serving script.Codec, run_prog (serveCodec_prog fuel) w = serveCodec fuel w)
  ∧ (∃ sched ps w',
       run_sched sched [serveCodec_prog fuel] w0 = Some (ps, w') ∧ finished ps = true)
  ∧ ∀ sched ps w',
      run_sched sched [serveCodec_prog fuel] w0 = Some (ps, w') →
      (length sched ≤ 12 * length reqs + 3)%nat
      ∧ (finished ps = false → ∃ i, is_Some (step_at i ps w'))
      ∧ (finished ps = true →
           woven ((λ r, answer srv r.1 r.2) <$> reqs) (responses (strace w'))
           ∧ responses (strace w') ≡ₚ reqs ≫= (λ r, answer srv r.1 r.2)
           ∧ script.incoming (scc w') = []
           ∧ script.closed (scc w') = true
           ∧ same_registry srv (server w')
           ∧ ∃ tr, strace w' = tr ++ [EvClose]).
Proof.
  intros Hres fuel w0.
  split; [intros w; apply serveCodec_prog_run|]. split.
  - destruct (serveCodec_inline_stream srv reqs ws Hres) as (w' & Hrun & _).
    fold fuel w0 in Hrun. rewrite <- serveCodec_prog_run in Hrun.
    destruct (run_prog_sched _ [serveCodec_prog fuel] 0 _ _ eq_refl Hrun) as (sched & n & Hs).
    exists sched, (<[0%nat := Stop]> [serveCodec_prog fuel] ++ replicate n Stop), w'.
    split; [done|]. cbn. clear. by induction n.
  - intros sched ps w' Hrun.
    destruct (inv_reach srv reqs Hres sched _ _ _ _ _ _ (inv_init srv reqs ws) Hrun)
      as (ms & hl & Hinv & Hlen).
    split; [unfold steps_left in Hlen; cbn in Hlen; lia|].
    split; [intros Hfin; by eapply inv_progress|].
    intros Hfin.
    destruct (inv_finished srv reqs Hres _ _ _ _ Hinv Hfin) as (Hw & Hi & Hc & Hs & _ & _ & Ht).
    split; [done|]. split; [|done].
    rewrite <- concat_fmap_bind. symmetry. by apply woven_Permutation.
Qed.


(** ** Services built by reflection *)

Section newService_facts.
Variable IsExported : string → bool.

Lemma registerMethod_cases acc m :
  (∃ mt, rpc_method IsExported m mt
         ∧ registerMethod IsExported acc m = <[Method_Name m := mt]> acc)
  ∨ ((∀ mt, ¬ rpc_method IsExported m mt) ∧ registerMethod IsExported acc m = acc).
Proof.
  unfold registerMethod, rpc_method.
  destruct (In m) as [|recv [|a [|r [|x l]]]] eqn:Hin; cbn;
    try (right; split; [intros mt (?&?&?&?&[=]&_)|done]).
  destruct (Out m) as [|out [|y l']] eqn:Hout; cbn;
    try (right; split; [intros mt (?&?&?&?&_&[=]&_)|done]).
  destruct (is_error out) eqn:He; cbn;
    [|right; split; [intros mt (?&?&?&?&_&[= <-]&?&_); congruence|done]].
  destruct (isExportedOrBuiltin IsExported a) eqn:Ha; cbn;
    [|right; split; [intros mt (?&?&?&?&[= _ <- _]&_&_&?&_); congruence|done]].
  destruct (isExportedOrBuiltin IsExported r) eqn:Hr; cbn;
    [|right; split; [intros mt (?&?&?&?&[= _ _ <-]&_&_&_&?&_); congruence|done]].
  left. eexists. split; [|reflexivity]. by exists recv, a, r, out.
Qed.

Lemma rpc_method_unique m mt mt' :
  rpc_method IsExported m mt → rpc_method IsExported m mt' → mt = mt'.
Proof.
  intros (?&?&?&?&Hi&_&_&_&_&->) (?&?&?&?&Hi'&_&_&_&_&->). congruence.
Qed.

Lemma registerMethods_fold ms : ∀ acc n mt,
  NoDup (Method_Name <$> ms) →
  foldl (registerMethod IsExported) acc ms !! n = Some mt
  ↔ (∃ m, m ∈ ms ∧ Method_Name m = n ∧ rpc_method IsExported m mt)
    ∨ (acc !! n = Some mt
       ∧ ∀ m mt', m ∈ ms → Method_Name m = n → ¬ rpc_method IsExported m mt').
Proof.
  induction ms as [|m ms IH]; intros acc n mt Hnd.
  - cbn. split.
    + intros Hl. right. split; [done|]. intros m mt' Hm. by apply elem_of_nil in Hm.
    + intros [(m & Hm & _)|[Hl _]]; [by apply elem_of_nil in Hm|done].
  - cbn in Hnd. apply NoDup_cons in Hnd as [Hm Hnd]. cbn [foldl]. rewrite IH by done.
    assert (Hother : ∀ m', m' ∈ ms → Method_Name m' ≠ Method_Name m).
    { intros m' Hin Heq. apply Hm. rewrite <- Heq. by apply list_elem_of_fmap_2. }
    destruct (registerMethod_cases acc m) as [(mtm & Hrpc & ->)|[Hno ->]].
    + split.
      * intros [(m' & Hin & Hn & Hr)|[Hl Hnone]].
        -- left. exists m'. split; [by right|done].
        -- apply lookup_insert_Some in Hl as [[<- <-]|[Hne Hl]].
           ++ left. exists m. split; [by left|done].
           ++ right. split; [done|]. intros m' mt' [->|Hin]%elem_of_cons Hn; [done|].
              by apply Hnone.
      * intros [(m' & [->|Hin]%elem_of_cons & Hn & Hr)|[Hl Hnone]].
        -- right. subst n. rewrite (rpc_method_unique _ _ _ Hr Hrpc). split.
           ++ apply lookup_insert_eq.
           ++ intros m' mt' Hin Heq. exfalso. by eapply Hother.
        -- left. exists m'. done.
        -- right. split.
           ++ rewrite lookup_insert_ne; [done|]. intros Heq.
              eapply (Hnone m mtm); [by left|done|done].
           ++ intros m' mt' Hin. apply Hnone. by right.
    + split.
      * intros [(m' & Hin & Hn & Hr)|[Hl Hnone]].
        -- left. exists m'. split; [by right|done].
        -- right. split; [done|]. intros m' mt' [->|Hin]%elem_of_cons Hn; [apply Hno|].
           by apply Hnone.
      * intros [(m' & [->|Hin]%elem_of_cons & Hn & Hr)|[Hl Hnone]].
        -- exfalso. by eapply Hno.
        -- left. exists m'. done.
        -- right. split; [done|]. intros m' mt' Hin. apply Hnone. by right.
Qed.

Lemma registerMethods_lookup ms n mt :
  NoDup (Method_Name <$> ms) →
  registerMethods IsExported ms !! n = Some mt
  ↔ ∃ m, m ∈ ms ∧ Method_Name m = n ∧ rpc_method IsExported m mt.
Proof.
  intros Hnd. unfold registerMethods. rewrite registerMethods_fold by done.
  split; [|by left]. intros [?|[Hl _]]; [done|]. by rewrite lookup_empty in Hl.
Qed.

(** X21.  [registerMethods] keeps exactly the methods that can be called
    remotely: those that take the receiver and two arguments of exported or
    builtin types and return one result of type [error].  Each is entered
    under its name with its function, the types of its two arguments and a
    counter of zero; a method of another form is left out. *)
Theorem registerMethods_keeps_rpc_methods ms n mt :
  NoDup (Method_Name <$> ms) →
  registerMethods IsExported ms !! n = Some mt
  ↔ ∃ m recv a r out,
      m ∈ ms ∧ Method_Name m = n
      ∧ In m = [recv; a; r] ∧ Out m = [out] ∧ is_error out = true
      ∧ isExportedOrBuiltin IsExported a = true
      ∧ isExportedOrBuiltin IsExported r = true
      ∧ mt = mkMethodType (Func m) (shape a) (shape r) 0.
Proof.
  intros Hnd. rewrite registerMethods_lookup by done. unfold rpc_method. split.
  - intros (m & Hin & Hn & recv & a & r & out & H). by exists m, recv, a, r, out.
  - intros (m & recv & a & r & out & Hin & Hn & H). exists m. split; [done|]. split; [done|].
    by exists recv, a, r, out.
Qed.

(** X22.  From the receiver to the call: when the type of the receiver has an
    exported name, [newService] builds its service, and once the service is
    registered a name "Type.Method" resolves exactly when the method can be
    called remotely.  A receiver whose type is not exported is fatal. *)
Theorem newService_registered_resolves rcvr s n :
  NoDup (Method_Name <$> rcvr_methods rcvr) →
  serviceMap s !! rcvr_Name rcvr = None →
  "."%char ∉ String.list_ascii_of_string n →
  (IsExported (rcvr_Name rcvr) = false → newService IsExported rcvr = None)
  ∧ (IsExported (rcvr_Name rcvr) = true →
     ∃ sv,
       newService IsExported rcvr = Some sv
       ∧ name sv = rcvr_Name rcvr
       ∧ fst (Register sv s) = None
       ∧ (findService (snd (Register sv s)) (rcvr_Name rcvr +:+ "." +:+ n)
            = (Some (rcvr_Name rcvr), Some n, None)
          ↔ ∃ m mt, m ∈ rcvr_methods rcvr ∧ Method_Name m = n
                    ∧ rpc_method IsExported m mt)).
Proof.
  intros Hnd Hfree Hdot. unfold newService. split; [by intros ->|].
  intros ->. eexists. split; [reflexivity|]. cbn. split; [done|].
  unfold Register. cbn. rewrite Hfree. cbn. split; [done|].
  rewrite findService_run by done. cbn. rewrite lookup_insert_eq. cbn.
  destruct (registerMethods IsExported (rcvr_methods rcvr) !! n) as [mt|] eqn:Hl.
  - split; [intros _|done]. apply registerMethods_lookup in Hl as (m & ? & ? & ?); [|done].
    by exists m, mt.
  - split; [done|]. intros (m & mt & Hin & Hn & Hr). exfalso.
    assert (Hsome : registerMethods IsExported (rcvr_methods rcvr) !! n = Some mt).
    { apply registerMethods_lookup; [done|]. by exists m. }
    congruence.
Qed.

End newService_facts.

(** ** The further properties on the sample codecs, clients and servers *)

Lemma GobCodec_Write_sends_header_then_body_witness :
  let _ := Gob_sample in
  codec.GobCodec_Write (codec.mkHeader 1 "Arith.Add" "") (reflect.Int 3)
    (codec.NewGobCodec (net.mkConn [] [] None false))
  = (None,
     codec.mkGobCodec _ (net.mkConn [] ["001"; "002"; "002"]%byte None false)
                      (bufio.mkWriter [] None) tt tt).
Proof.
  intros G.
  apply (@GobCodec_Write_sends_header_then_body Gob_sample
           (codec.mkHeader 1 "Arith.Add" "") (reflect.Int 3)
           (codec.NewGobCodec (net.mkConn [] [] None false))
           ["001"%byte] tt ["002"; "002"]%byte tt); reflexivity.
Defined.

Lemma GobCodec_Write_header_error_witness :
  let _ := Gob_strict in
  let c := codec.NewGobCodec (net.mkConn [] [] None false) in
  fst (codec.GobCodec_Write (codec.mkHeader 1 "" "") (reflect.Int 3) c)
  = Some "gob: header without a name"
  ∧ net.closed (codec.conn (snd (codec.GobCodec_Write (codec.mkHeader 1 "" "")
                                   (reflect.Int 3) c))) = true.
Proof.
  intros G c.
  destruct (@GobCodec_Write_header_error Gob_strict (codec.mkHeader 1 "" "") (reflect.Int 3)
              c "gob: header without a name" tt eq_refl) as (Hr & _ & Hc).
  split; [exact Hr|exact Hc].
Defined.

Lemma GobCodec_Write_body_error_witness :
  let _ := Gob_strict in
  let c := codec.NewGobCodec (net.mkConn [] [] None false) in
  fst (codec.GobCodec_Write (codec.mkHeader 1 "Arith.Add" "") reflect.Nil c)
  = Some "gob: cannot encode nil pointer"
  ∧ codec.conn (snd (codec.GobCodec_Write (codec.mkHeader 1 "Arith.Add" "") reflect.Nil c))
    = net.mkConn [] ["001"%byte] None true.
Proof.
  intros G c.
  apply (@GobCodec_Write_body_error Gob_strict (codec.mkHeader 1 "Arith.Add" "") reflect.Nil
           c ["001"%byte] tt "gob: cannot encode nil pointer" tt); reflexivity.
Defined.

Lemma GobCodec_Write_after_failed_flush_witness :
  let _ := Gob_sample in
  let c := codec.NewGobCodec (net.mkConn [] [] (Some "broken pipe") false) in
  let c' := snd (codec.GobCodec_Write (codec.mkHeader 1 "Arith.Add" "") (reflect.Int 3) c) in
  fst (codec.GobCodec_Write (codec.mkHeader 1 "Arith.Add" "") (reflect.Int 3) c) = None
  ∧ fst (codec.GobCodec_Write (codec.mkHeader 2 "Arith.Add" "") (reflect.Int 4) c') ≠ None
  ∧ net.closed (codec.conn (snd (codec.GobCodec_Write (codec.mkHeader 2 "Arith.Add" "")
                                   (reflect.Int 4) c'))) = true.
Proof.
  intros G c c'.
  eapply (@GobCodec_Write_after_failed_flush Gob_sample (codec.mkHeader 1 "Arith.Add" "")
            (reflect.Int 3) c _ _ "broken pipe"); reflexivity.
Defined.

Lemma Close_is_a_latch_witness :
  ∃ w1 w2 w3,
    Close (world_fresh []) = Some (None, w1)
    ∧ IsAvaliable w1 = Some (false, w2)
    ∧ Close w2 = Some (Some ErrShutDown, w3)
    ∧ script.closed (cc (client w3)) = true.
Proof.
  destruct (Close_is_a_latch (world_fresh []) eq_refl eq_refl eq_refl)
    as (w1 & w2 & w3 & H1 & Hcc & H2 & H3 & Hcc3 & _).
  exists w1, w2, w3. split; [exact H1|]. split; [exact H2|]. split; [exact H3|].
  rewrite Hcc3, Hcc. reflexivity.
Defined.

Lemma send_enqueues_then_writes_witness :
  ∃ w',
    send 1%positive (world_fresh []) = Some (tt, w')
    ∧ pending (client w') = <[1%N := 1%positive]> ∅
    ∧ calls w' = <[1%positive := Call_set_Seq 1 (call_Add 11)]> (calls (world_fresh []))
    ∧ seq (client w') = 2%N
    ∧ trace w' = [EvLock Sending; EvLock Mu; EvUnlock Mu;
                  EvWrite (codec.mkHeader 1 "Arith.Add" "") (mkArgs 1 2) None;
                  EvUnlock Sending].
Proof.
  destruct (send_enqueues_then_writes (world_fresh []) 1%positive (call_Add 11)
              (script.mk [] [] false))
    as (w' & Hrun & Hp & Hc & Hs & _ & _ & Htr & _); try reflexivity.
  exists w'. split; [exact Hrun|]. split; [exact Hp|]. split; [exact Hc|].
  split; [exact Hs|exact Htr].
Defined.


Lemma addCall_then_removeCall_witness :
  ∃ w1 w2,
    addCall 1%positive (world_fresh []) = Some ((1%N, None), w1)
    ∧ removeCall 1%N w1 = Some (Some 1%positive, w2)
    ∧ pending (client w2) = ∅
    ∧ seq (client w2) = 2%N.
Proof.
  apply (addCall_then_removeCall (world_fresh []) 1%positive (call_Add 11)); reflexivity.
Defined.

Lemma terminateCalls_send_lock_order_witness :
  ∃ k1 k2 w',
    let ps := [Act (addCall 1%positive) k1; Act (Lock Sending) k2] in
    run_sched [0; 1]%nat [send_prog 1%positive; terminateCalls_prog "EOF"] (world_pending [])
    = Some (ps, w')
    ∧ trace w' = [EvLock Sending; EvLock Mu]
    ∧ calls w' = calls (world_pending [])
    ∧ shutdown (client w') = false
    ∧ finished ps = false
    ∧ (∀ i, step_at i ps w' = None).
Proof.
  destruct (terminateCalls_send_lock_order (world_pending []) "EOF" 1%positive eq_refl eq_refl)
    as (_ & _ & k1 & k2 & w' & Hrun & _ & _ & Htr & Hcalls & _ & Hsh & Hfin & Hstuck & _).
  exists k1, k2, w'. split; [exact Hrun|]. split; [exact Htr|]. split; [exact Hcalls|].
  split; [exact Hsh|]. split; [exact Hfin|exact Hstuck].
Defined.


Lemma calls_signalled_once_witness :
  ∃ w',
    run_steps steps_sample (world_of_client client_sample) = Some (tt, w')
    ∧ NoDup (signalled (trace w'))
    ∧ (∀ p, p ∈ signalled (trace w') → is_Some (calls w' !! p)).
Proof.
  destruct (calls_signalled_once client_sample steps_sample eq_refl eq_refl eq_refl eq_refl)
    as (w' & Hrun & Hnd & Hsig & _).
  - reflexivity.
  - exists w'. split; [exact Hrun|]. split; [exact Hnd|exact Hsig].
Defined.

Lemma Dial_closes_on_error_witness :
  let _ := Gob_sample in
  let conn := net.mkConn [] [] None false in
  Dial codec.NewCodecFuncMap_init (λ _ _, inr conn) "tcp" "127.0.0.1:1234" [codec.JSONType]
  = (inl "invalid codec type 1", Some (net.mkConn [] [] None true))
  ∧ net.closed (net.mkConn [] [] None true) = true.
Proof.
  intros G conn. split; [reflexivity|].
  apply (@Dial_closes_on_error _ codec.NewCodecFuncMap_init (λ _ _, inr conn)
           "tcp" "127.0.0.1:1234" [codec.JSONType] "invalid codec type 1").
  reflexivity.
Defined.

Lemma Dial_default_and_arity_witness :
  let _ := Gob_sample in
  let conn := net.mkConn [] [] None false in
  ∃ client conn1,
    Dial codec.NewCodecFuncMap_init (λ _ _, inr conn) "tcp" "127.0.0.1:1234" [codec.GobType]
    = (inr client, Some conn1)
    ∧ net.wr conn1 = preamble codec.GobType
    ∧ net.closed conn1 = false.
Proof.
  intros G conn.
  destruct (@Dial_default_and_arity _ codec.NewCodecFuncMap_init (λ _ _, inr conn)
              "tcp" "127.0.0.1:1234") as (_ & _ & H).
  destruct (H codec.GobType codec.NewGobCodec conn eq_refl eq_refl eq_refl eq_refl)
    as (client & conn1 & Hrun & Hwr & _ & Hcl).
  exists client, conn1. split; [exact Hrun|]. split; [exact Hwr|exact Hcl].
Defined.

Lemma findService_cuts_at_last_dot_witness :
  findService server_Arith "Arith.Add" = (Some "Arith", Some "Add", None)
  ∧ findService server_Arith "net.rpc.Add"
    = (None, None, Some "rpc server: cannot find service net.rpc")
  ∧ findService server_Arith "Arith.Mul"
    = (Some "Arith", None, Some "rpc server: cannot find method Mul on service Arith").
Proof.
  split; [|split].
  - apply (findService_cuts_at_last_dot server_Arith "Arith" "Add").
    apply (bool_decide_unpack _). vm_compute. exact I.
  - apply (findService_cuts_at_last_dot server_Arith "net.rpc" "Add").
    apply (bool_decide_unpack _). vm_compute. exact I.
  - apply (findService_cuts_at_last_dot server_Arith "Arith" "Mul").
    apply (bool_decide_unpack _). vm_compute. exact I.
Defined.

Lemma findService_without_dot_witness :
  findService server_Arith "Arith"
  = (None, None,
     Some ("rpc server: service name must be like " +:+ dquote +:+ "Service.Method" +:+ dquote)).
Proof.
  apply (findService_without_dot server_Arith "Arith").
  apply (bool_decide_unpack _). vm_compute. exact I.
Defined.

Lemma Register_then_findService_witness :
  fst (Register Arith NewServer) = None
  ∧ findService server_Arith "Arith.Div" = (Some "Arith", Some "Div", None)
  ∧ deref_method server_Arith "Arith" "Div" = Some Arith_Div
  ∧ Register Arith server_Arith
    = (Some "rcp server: duplicated service Arith", server_Arith).
Proof.
  destruct (Register_then_findService Arith NewServer "Div" Arith_Div)
    as (H1 & H2 & H3 & _ & H5).
  - reflexivity.
  - reflexivity.
  - apply (bool_decide_unpack _). vm_compute. exact I.
  - split; [exact H1|]. split; [exact H2|]. split; [exact H3|exact H5].
Defined.

Lemma call_counts_the_method_witness :
  ∃ w' m',
    call "Arith" "Add" (reflect.Ref (mkArgs 1 2)) (reflect.Ref (reflect.Int 0)) (serving [])
    = Some ((reflect.Ref (reflect.Int 3), None), w')
    ∧ deref_method (server w') "Arith" "Add" = Some m'
    ∧ NumCalls m' = 1%N
    ∧ deref_method (server w') "Arith" "Div" = Some Arith_Div.
Proof.
  destruct (call_counts_the_method (serving []) "Arith" "Add" Arith_Add
              (reflect.Ref (mkArgs 1 2)) (reflect.Ref (reflect.Int 0)) eq_refl)
    as (w' & m' & Hrun & Hm & Hn & _ & _ & _ & Hother & _).
  exists w', m'. split; [exact Hrun|]. split; [exact Hm|]. split; [exact Hn|].
  rewrite Hother; [reflexivity|discriminate].
Defined.

Lemma serveCodec_ends_on_header_error_witness :
  serveCodec 1 (serving [script.Broken "connection reset by peer"])
  = Some (tt, mkServing server_Arith (script.mk [] [] true) false 0
                [EvReadHeader (inl "connection reset by peer"); EvClose])
  ∧ serveCodec 5 (serving [])
    = Some (tt, mkServing server_Arith (script.mk [] [] true) false 0
                  [EvReadHeader (inl "EOF"); EvClose]).
Proof.
  split.
  - exact (serveCodec_ends_on_header_error 0
             (serving [script.Broken "connection reset by peer"])
             "connection reset by peer" (script.mk [] [] false) eq_refl eq_refl).
  - exact (serveCodec_ends_on_header_error 4 (serving []) "EOF" (script.mk [] [] false)
             eq_refl eq_refl).
Defined.

Lemma ServeConn_accepts_NewClient_witness :
  let _ := Gob_sample in
  let reg := codec.NewCodecFuncMap_init in
  let connC := net.mkConn [] [] None false in
  let connS := net.mkConn (preamble codec.GobType ++ ["001"]%byte) [] None false in
  (∃ client, fst (NewClient reg connC codec.GobType) = inr client)
  ∧ ServeConn reg 1 NewServer connS
    = Served (serveCodec 1 (mkServing NewServer
                               (codec.NewGobCodec (net.mkConn ["001"]%byte [] None false))
                               false 0 [])).
Proof.
  intros G reg connC connS.
  apply (@ServeConn_accepts_NewClient _ _ _ reg reg connC codec.GobType
           codec.NewGobCodec codec.NewGobCodec 1 NewServer connS ["001"]%byte);
    try reflexivity.
Defined.

Lemma serveCodec_answers_stream_witness :
  let add := codec.mkHeader 1 "Arith.Add" "" in
  let div := codec.mkHeader 2 "Arith.Div" "" in
  let reqs := [(add, mkArgs 1 2); (div, mkArgs 1 0)] in
  ∃ ps w',
    run_sched sched_sample [serveCodec_prog 3] (serving (request_stream reqs)) = Some (ps, w')
    ∧ finished ps = true
    ∧ responses (strace w')
      = [(set_Error "divide by zero" div, invalidRequest);
         (add, reflect.Ref (reflect.Int 3));
         (set_Error "divide by zero" div, reflect.Ref (reflect.Int 0))]
    ∧ woven [[(add, reflect.Ref (reflect.Int 3))];
             [(set_Error "divide by zero" div, invalidRequest);
              (set_Error "divide by zero" div, reflect.Ref (reflect.Int 0))]]
            (responses (strace w'))
    ∧ script.closed (scc w') = true.
Proof.
  intros add div reqs.
  destruct (run_sched sched_sample [serveCodec_prog 3] (serving (request_stream reqs)))
    as [[ps w']|] eqn:Hrun; [|by vm_compute in Hrun].
  exists ps, w'. split; [reflexivity|].
  destruct (serveCodec_answers_stream server_Arith reqs []) as (_ & _ & Hall).
  - intros r Hr. apply elem_of_cons in Hr as [->|Hr].
    { exists "Arith", "Add", Arith_Add, (reflect.Ref (reflect.Int 0)).
      split; [reflexivity|]. split; reflexivity. }
    apply elem_of_cons in Hr as [->|Hr]; [|by apply elem_of_nil in Hr].
    exists "Arith", "Div", Arith_Div, (reflect.Ref (reflect.Int 0)).
    split; [reflexivity|]. split; reflexivity.
  - destruct (Hall sched_sample ps w' Hrun) as (_ & _ & Hfin).
    assert (Hf : finished ps = true).
    { vm_compute in Hrun. injection Hrun as <- <-. reflexivity. }
    destruct (Hfin Hf) as (Hw & _ & _ & Hc & _).
    split; [exact Hf|]. split; [|split; [exact Hw|exact Hc]].
    vm_compute in Hrun. injection Hrun as <- <-. reflexivity.
Defined.

Lemma registerMethods_keeps_rpc_methods_witness :
  registerMethods IsExported_sample (rcvr_methods Arith_receiver) !! "Add"
  = Some (mkMethodType (method Arith_Add)
            (reflect.TPointer (reflect.TStruct [reflect.TInt; reflect.TInt]))
            (reflect.TPointer reflect.TInt) 0)
  ∧ registerMethods IsExported_sample (rcvr_methods Arith_receiver) !! "Reset" = None.
Proof.
  assert (Hnd : NoDup (Method_Name <$> rcvr_methods Arith_receiver)).
  { apply (bool_decide_unpack _). vm_compute. exact I. }
  split.
  - apply (registerMethods_keeps_rpc_methods IsExported_sample
             (rcvr_methods Arith_receiver) "Add" _ Hnd).
    eexists _, _, _, _, _. split; [apply elem_of_cons; left; reflexivity|].
    split; [reflexivity|]. split; [reflexivity|]. split; [reflexivity|].
    split; [reflexivity|]. split; [reflexivity|]. split; reflexivity.
  - destruct (registerMethods IsExported_sample (rcvr_methods Arith_receiver) !! "Reset")
      as [mt|] eqn:E; [|reflexivity].
    apply (registerMethods_keeps_rpc_methods IsExported_sample
             (rcvr_methods Arith_receiver) "Reset" mt Hnd) in E.
    destruct E as (m & recv & a & r & out & Hm & Hn & Hin & _).
    apply elem_of_cons in Hm as [->|Hm]; [discriminate Hn|].
    apply elem_of_cons in Hm as [->|Hm]; [discriminate Hn|].
    apply elem_of_cons in Hm as [->|Hm]; [discriminate Hin|by apply elem_of_nil in Hm].
Defined.

Lemma newService_registered_resolves_witness :
  ∃ sv,
    newService IsExported_sample Arith_receiver = Some sv
    ∧ name sv = "Arith"
    ∧ fst (Register sv NewServer) = None
    ∧ findService (snd (Register sv NewServer)) "Arith.Add" = (Some "Arith", Some "Add", None).
Proof.
  destruct (newService_registered_resolves IsExported_sample Arith_receiver NewServer "Add")
    as [_ H].
  - apply (bool_decide_unpack _). vm_compute. exact I.
  - reflexivity.
  - apply (bool_decide_unpack _). vm_compute. exact I.
  - destruct (H eq_refl) as (sv & Hsv & Hname & Hreg & Hfind).
    exists sv. split; [exact Hsv|]. split; [exact Hname|]. split; [exact Hreg|].
    apply Hfind. eexists _, _. split; [apply elem_of_cons; left; reflexivity|]. split; [reflexivity|].
    unfold rpc_method. eexists _, _, _, _.
    split; [reflexivity|]. split; [reflexivity|]. split; [reflexivity|].
    split; [reflexivity|]. split; reflexivity.
Defined.
